(** * Parallel execution scheduler: status manager and task queues

    A shallow embedding of the scheduler core of the repository:

    - [exec3_status.go]: the [execStatusManager] with its sorted
      pending / in-progress / complete index lists and the two dependency
      maps;
    - the [exec] package: [TxTaskQueue] (the [heap.Interface]
      implementation ordered by [Version().TxNum]), [QueueWithRetry] and
      [ResultsQueue].

    Go's [int] is modelled as [Z] (wrap-around written out where the code
    does arithmetic on values), slices as lists, [map[int]map[int]bool] as
    [gmap Z (gmap Z bool)], run-time panics as an error result, buffered
    channels as FIFO lists with a capacity and a closed flag, and the
    pseudo-random choice of a [select] among several ready cases as an
    explicit oracle argument. *)

From Stdlib Require Import ZArith List Sorting.Sorted Sorting.Permutation Lia.
From Stdlib Require Strings.Byte.
From stdpp Require Import base tactics option list list_numbers sorting gmap fin_maps.

(** ** Go run-time: panics *)

Module Go.

Inductive panic : Set :=
  | IndexOutOfRange
  | MakeSliceLenOutOfRange
  | MakeChanSizeOutOfRange
  | SendOnClosedChannel
  | CloseOfClosedChannel
  | ElementExpectedInList.

(** The result of a call that may panic. *)
Inductive result (A : Type) : Type :=
  | Ok (a : A)
  | Panic (p : panic).
Global Arguments Ok {A} a.
Global Arguments Panic {A} p.

Definition bind {A B} (f : A → result B) (r : result A) : result B :=
  match r with
  | Ok a => f a
  | Panic p => Panic p
  end.

Global Instance result_ret : MRet result := λ A a, Ok a.
Global Instance result_bind : MBind result := λ A B f r, bind f r.

Definition is_Ok {A} (r : result A) : Prop := ∃ a, r = Ok a.

(** [int] is 64 bits wide on the platforms the node targets. *)
Definition int_min : Z := - 2 ^ 63.
Definition int_max : Z := 2 ^ 63 - 1.
Definition is_int (z : Z) : Prop := (int_min ≤ z ≤ int_max)%Z.
Definition int_wrap (z : Z) : Z := ((z + 2 ^ 63) `mod` 2 ^ 64 - 2 ^ 63)%Z.

End Go.

Export Go.

(** ** Package [sort]: binary search *)

Module Sort.

(** [sort.Search(n, f)]:
<<
    i, j := 0, n
    for i < j {
        h := int(uint(i+j) >> 1)
        if !f(h) { i = h + 1 } else { j = h }
    }
    return i
>>
    Every iteration shrinks [j - i], so [j - i] iterations are enough. *)
Fixpoint Search_loop (fuel : nat) (f : nat → bool) (i j : nat) : nat :=
  match fuel with
  | O => i
  | S fuel' =>
      if (i <? j)%nat then
        let h := ((i + j) / 2)%nat in
        if negb (f h) then Search_loop fuel' f (h + 1)%nat j
        else Search_loop fuel' f i h
      else i
  end.

Definition Search (n : nat) (f : nat → bool) : nat := Search_loop n f 0%nat n.

(** [sort.SearchInts(a, x) = Search(len(a), func(i) bool { return a[i] >= x })] *)
Definition SearchInts (a : list Z) (x : Z) : nat :=
  Search (length a)
    (λ i, match a !! i with Some y => (x <=? y)%Z | None => false end).

End Sort.

Export Sort.

(** ** [exec3_status.go]: the status manager *)

Module Status.

Local Open Scope Z_scope.

Record execStatusManager : Type := mkStatus {
  pending : list Z;
  inProgress : list Z;
  complete : list Z;
  dependency : gmap Z (gmap Z bool);
  blocker : gmap Z (gmap Z bool)
}.

(** [newStatusManager]: [pending] is [0 .. numTasks-1], every index gets an
    empty blocker set; [make] panics on a negative length. *)
Definition newStatusManager (numTasks : Z) : result execStatusManager :=
  if numTasks <? 0 then Panic MakeSliceLenOutOfRange
  else
    Ok {| pending := seqZ 0 numTasks;
          inProgress := [];
          complete := [];
          dependency := ∅;
          blocker := list_to_map ((λ i, (i, ∅)) <$> seqZ 0 numTasks) |}.

Definition insertInList (l : list Z) (v : Z) : list Z :=
  match last l with
  | None => l ++ [v]
  | Some z =>
      if z <? v then l ++ [v]
      else
        let x := SearchInts l v in
        if bool_decide (l !! x = Some v) then l
        else
          let a := take (x + 1) l ++ drop x l in
          <[x := v]> a
  end.

Definition takeNextPending (m : execStatusManager) : Z * execStatusManager :=
  match pending m with
  | [] => (-1, m)
  | x :: rest =>
      (x, {| pending := rest;
             inProgress := insertInList (inProgress m) x;
             complete := complete m;
             dependency := dependency m;
             blocker := blocker m |})
  end.

(** [hasNoGap] reads [l[0]] and [l[len(l)-1]]: it panics on an empty slice. *)
Definition hasNoGap (l : list Z) : result bool :=
  match head l, last l with
  | Some first, Some final =>
      Ok (int_wrap (first + Z.of_nat (length l)) =? int_wrap (final + 1))
  | _, _ => Panic IndexOutOfRange
  end.

(** The loop [for i := len(m.complete) - 2; i >= 0; i--] of [maxAllComplete];
    [n] is [i + 1]. *)
Fixpoint maxAllComplete_loop (c : list Z) (n : nat) : result Z :=
  match n with
  | O => Ok (-1)
  | S i =>
      b ← hasNoGap (take (i + 1)%nat c);
      if b : bool then
        match c !! i with Some z => Ok z | None => Panic IndexOutOfRange end
      else maxAllComplete_loop c i
  end.

Definition maxAllComplete (m : execStatusManager) : result Z :=
  let c := complete m in
  match head c, last c with
  | Some first, Some final =>
      if negb (first =? 0) then Ok (-1)
      else if final =? Z.of_nat (length c) - 1 then Ok final
      else maxAllComplete_loop c (length c - 1)%nat
  | _, _ => Ok (-1)
  end.

Definition set_pending (m : execStatusManager) (l : list Z) : execStatusManager :=
  {| pending := l; inProgress := inProgress m; complete := complete m;
     dependency := dependency m; blocker := blocker m |}.
Definition set_inProgress (m : execStatusManager) (l : list Z) : execStatusManager :=
  {| pending := pending m; inProgress := l; complete := complete m;
     dependency := dependency m; blocker := blocker m |}.
Definition set_complete (m : execStatusManager) (l : list Z) : execStatusManager :=
  {| pending := pending m; inProgress := inProgress m; complete := l;
     dependency := dependency m; blocker := blocker m |}.
Definition set_dependency (m : execStatusManager) (d : gmap Z (gmap Z bool)) :
    execStatusManager :=
  {| pending := pending m; inProgress := inProgress m; complete := complete m;
     dependency := d; blocker := blocker m |}.
Definition set_blocker (m : execStatusManager) (b : gmap Z (gmap Z bool)) :
    execStatusManager :=
  {| pending := pending m; inProgress := inProgress m; complete := complete m;
     dependency := dependency m; blocker := b |}.

Definition pushPending (m : execStatusManager) (tx : Z) : execStatusManager :=
  set_pending m (insertInList (pending m) tx).

(** [removeFromList]: [sort.SearchInts] never returns [-1]; when the search
    falls off the end, [l[x]] is an out-of-range read. *)
Definition removeFromList (l : list Z) (v : Z) (expect : bool) : result (list Z) :=
  let x := SearchInts l v in
  match l !! x with
  | None => Panic IndexOutOfRange
  | Some y =>
      if negb (y =? v) then
        if expect then Panic ElementExpectedInList else Ok l
      else
        Ok (if (x =? 0)%nat then drop 1 l
            else if (x =? length l - 1)%nat then take (length l - 1) l
            else take x l ++ drop (x + 1) l)
  end.

Definition markComplete (m : execStatusManager) (tx : Z) : result execStatusManager :=
  ip ← removeFromList (inProgress m) tx true;
  let m1 := set_inProgress m ip in
  Ok (set_complete m1 (insertInList (complete m1) tx)).

Definition minPending (m : execStatusManager) : Z :=
  match pending m with
  | [] => -1
  | x :: _ => x
  end.

Definition countComplete (m : execStatusManager) : Z := Z.of_nat (length (complete m)).

Definition checkList (l : list Z) (tx : Z) : bool :=
  let x := SearchInts l tx in
  (x <? length l)%nat && bool_decide (l !! x = Some tx).

Definition checkInProgress (m : execStatusManager) (tx : Z) : bool :=
  checkList (inProgress m) tx.
Definition checkPending (m : execStatusManager) (tx : Z) : bool :=
  checkList (pending m) tx.
Definition checkComplete (m : execStatusManager) (tx : Z) : bool :=
  checkList (complete m) tx.

(** [m.blocker[tx]] / [m.dependency[tx]]: a missing key reads as the nil
    map, which behaves as the empty map for [len], lookups and [delete]. *)
Definition inner (mp : gmap Z (gmap Z bool)) (k : Z) : gmap Z bool :=
  default ∅ (mp !! k).

Definition addDependencies (m : execStatusManager) (blocker_tx dependent : Z) :
    bool * execStatusManager :=
  if (blocker_tx <? 0) || (dependent <=? blocker_tx) then (false, m)
  else if checkComplete m blocker_tx then
    (* delete(curblockers, blocker): the inner map is shared with m.blocker *)
    let b := alter (delete blocker_tx) dependent (blocker m) in
    (bool_decide (0 < size (inner b dependent))%nat, set_blocker m b)
  else
    let d1 :=
      match dependency m !! blocker_tx with
      | Some _ => dependency m
      | None => <[blocker_tx := ∅]> (dependency m)
      end in
    let d2 := <[blocker_tx := <[dependent := true]> (inner d1 blocker_tx)]> d1 in
    let b := <[dependent := <[blocker_tx := true]> (inner (blocker m) dependent)]>
               (blocker m) in
    (true, set_blocker (set_dependency m d2) b).

Definition isBlocked (m : execStatusManager) (tx : Z) : bool :=
  bool_decide (0 < size (inner (blocker m) tx))%nat.

(** One iteration of the [for k := range deps] loop of [removeDependency]. *)
Definition removeDependency_step (tx : Z) (m : execStatusManager) (k : Z) :
    execStatusManager :=
  let m1 := set_blocker m (alter (delete tx) k (blocker m)) in
  if (size (inner (blocker m1) k) =? 0)%nat then
    if negb (checkComplete m1 k) && negb (checkPending m1 k)
       && negb (checkInProgress m1 k)
    then pushPending m1 k
    else m1
  else m1.

(** [removeDependency], with the iteration order of the Go map [deps] given
    as the list [ks] of its keys (Go leaves that order unspecified). *)
Definition removeDependency_in (ks : list Z) (m : execStatusManager) (tx : Z) :
    execStatusManager :=
  match dependency m !! tx with
  | Some deps =>
      if (0 <? size deps)%nat then
        let m1 := foldl (removeDependency_step tx) m ks in
        set_dependency m1 (delete tx (dependency m1))
      else m
  | None => m
  end.

(** The admissible iteration orders: the keys of [deps], each once. *)
Definition range_order (m : execStatusManager) (tx : Z) (ks : list Z) : Prop :=
  ks ≡ₚ (map_to_list (inner (dependency m) tx)).*1.

(** An executable instance: keys in the order of [map_to_list]. *)
Definition removeDependency (m : execStatusManager) (tx : Z) : execStatusManager :=
  removeDependency_in ((map_to_list (inner (dependency m) tx)).*1) m tx.

Definition clearInProgress (m : execStatusManager) (tx : Z) : result execStatusManager :=
  ip ← removeFromList (inProgress m) tx true;
  Ok (set_inProgress m ip).

(** The loop [for x := txFrom; x <= max; x++] with [n] iterations left
    ([max] is below [len(m.complete)], so [x++] does not wrap). *)
Fixpoint getRevalidationRange_loop (m : execStatusManager) (n : nat) (x : Z)
    (ret : list Z) : list Z :=
  match n with
  | O => ret
  | S n' =>
      getRevalidationRange_loop m n' (x + 1)
        (if negb (checkInProgress m x) then ret ++ [x] else ret)
  end.

Definition getRevalidationRange (m : execStatusManager) (txFrom : Z) : result (list Z) :=
  max ← maxAllComplete m;
  Ok (getRevalidationRange_loop m (Z.to_nat (max - txFrom + 1)) txFrom []).

Definition clearComplete (m : execStatusManager) (tx : Z) : result execStatusManager :=
  c ← removeFromList (complete m) tx false;
  Ok (set_complete m c).

Definition clearPending (m : execStatusManager) (tx : Z) : result execStatusManager :=
  p ← removeFromList (pending m) tx false;
  Ok (set_pending m p).

Fixpoint pushPendingSet (m : execStatusManager) (set : list Z) : result execStatusManager :=
  match set with
  | [] => Ok m
  | v :: rest =>
      m1 ← (if checkComplete m v then clearComplete m v else Ok m);
      pushPendingSet (pushPending m1 v) rest
  end.

(** The effect of the [delete(m.blocker[k], tx)] statements of one
    [removeDependency] call on the blocker map. *)
Definition release (tx : Z) (b : gmap Z (gmap Z bool)) (ks : list Z) :
    gmap Z (gmap Z bool) :=
  foldl (λ b k, alter (delete tx) k b) b ks.

(** *** Call sequences

    The mutating methods of the manager, with their arguments; a
    [removeDependency] call carries the order in which the Go run-time
    happens to range over the map. *)
Inductive call : Type :=
  | TakeNextPending
  | MarkComplete (tx : Z)
  | PushPending (tx : Z)
  | PushPendingSet (set : list Z)
  | ClearInProgress (tx : Z)
  | ClearComplete (tx : Z)
  | ClearPending (tx : Z)
  | AddDependencies (blocker_tx dependent : Z)
  | RemoveDependency (tx : Z) (ks : list Z).

Definition run (m : execStatusManager) (c : call) : result execStatusManager :=
  match c with
  | TakeNextPending => Ok (takeNextPending m).2
  | MarkComplete tx => markComplete m tx
  | PushPending tx => Ok (pushPending m tx)
  | PushPendingSet set => pushPendingSet m set
  | ClearInProgress tx => clearInProgress m tx
  | ClearComplete tx => clearComplete m tx
  | ClearPending tx => clearPending m tx
  | AddDependencies b d => Ok (addDependencies m b d).2
  | RemoveDependency tx ks => Ok (removeDependency_in ks m tx)
  end.

(** A call the run-time can perform in state [m]. *)
Definition possible (m : execStatusManager) (c : call) : Prop :=
  match c with
  | RemoveDependency tx ks => range_order m tx ks
  | _ => True
  end.

(** States reachable from [newStatusManager] by calls that return (do not
    panic) and satisfy the side condition [guard]. *)
Inductive reachable_under (guard : execStatusManager → call → Prop) :
    execStatusManager → Prop :=
  | reachable_new numTasks m :
      newStatusManager numTasks = Ok m → reachable_under guard m
  | reachable_call m c m' :
      reachable_under guard m → possible m c → guard m c →
      run m c = Ok m' → reachable_under guard m'.

Definition reachable : execStatusManager → Prop := reachable_under (λ _ _, True).

(** The discipline under which the three lists stay disjoint: a task is
    pushed to pending only when it is not in progress (and, for the plain
    [pushPending], not complete). *)
Definition push_guard (m : execStatusManager) (c : call) : Prop :=
  match c with
  | PushPending tx => (tx ∉ inProgress m) ∧ (tx ∉ complete m)
  | PushPendingSet set => Forall (λ v, v ∉ inProgress m) set
  | _ => True
  end.

Definition pairwise_disjoint (m : execStatusManager) : Prop :=
  pending m ## inProgress m ∧ pending m ## complete m
  ∧ inProgress m ## complete m.

Definition well_formed (m : execStatusManager) : Prop :=
  StronglySorted Z.lt (pending m) ∧ StronglySorted Z.lt (inProgress m)
  ∧ StronglySorted Z.lt (complete m) ∧ pairwise_disjoint m.

End Status.

(** ** Package [core/state]: versions *)

Module state.

(** Modelled from the spec: the struct [state.Version] is declared in
    package [core/state], whose file is not among the sources.  The spec
    gives it as [{BlockNum, TxNum, TxIndex}]; the field types are those of
    the literal built in [TxTask.Version()] ([uint64], [uint64], [int]).
    [TxNum] is only ever compared, never computed with. *)
Record Version : Type := mkVersion {
  BlockNum : N;
  TxNum : N;
  TxIndex : Z
}.

End state.

(** ** Package [exec]: tasks, the [TxNum] heap, channels and the queues *)

Module Exec.

(** [Task] is an interface; the queues only use its [Version()] method. *)
Class Task (T : Type) : Type := Version : T → state.Version.

(** [TxTask], with the fields [Version()] reads, and [Incarnation]. *)
Record TxTask : Type := mkTxTask {
  TxNum : N;
  TxIndex : Z;
  BlockNum : N;
  Incarnation : Z
}.

Global Instance TxTask_Task : Task TxTask :=
  λ t, {| state.BlockNum := BlockNum t; state.TxNum := TxNum t;
          state.TxIndex := TxIndex t |}.

Record ErrExecAbortError : Type := mkAbort { Dependency : Z }.

(** [Result] embeds its [Task] and so implements the interface through it. *)
Record Result : Type := mkResult {
  Result_Task : TxTask;
  Err : option ErrExecAbortError;
  ShouldRerunWithoutFeeDelay : bool
}.

Global Instance Result_Task_inst : Task Result := λ r, Version (Result_Task r).

(** *** [TxTaskQueue] under [container/heap]

    [type TxTaskQueue []Task] *)
Abbreviation TxTaskQueue T := (list T) (only parsing).

Section heap.
Context {T : Type} `{!Task T}.

Definition Len (h : TxTaskQueue T) : nat := length h.

(** [h[i].Version().TxNum < h[j].Version().TxNum]; [container/heap] calls
    it with indices inside the slice only. *)
Definition Less (h : TxTaskQueue T) (i j : nat) : bool :=
  match h !! i, h !! j with
  | Some a, Some b => (state.TxNum (Version a) <? state.TxNum (Version b))%N
  | _, _ => false
  end.

(** [h[i], h[j] = h[j], h[i]] *)
Definition Swap (h : TxTaskQueue T) (i j : nat) : TxTaskQueue T :=
  match h !! i, h !! j with
  | Some a, Some b => <[i := b]> (<[j := a]> h)
  | _, _ => h
  end.

Definition Push (h : TxTaskQueue T) (a : T) : TxTaskQueue T := h ++ [a].

(** [Pop] removes and returns the last element; on an empty slice
    [old[n-1]] is out of range. *)
Definition Pop (h : TxTaskQueue T) : result (T * TxTaskQueue T) :=
  match last h with
  | Some x => Ok (x, take (length h - 1) h)
  | None => Panic IndexOutOfRange
  end.

(** [heap.up]:
<<
    for {
        i := (j - 1) / 2 // parent
        if i == j || !h.Less(j, i) { break }
        h.Swap(i, j)
        j = i
    }
>>
    [j] strictly decreases, so [j] iterations are enough. *)
Fixpoint up_loop (fuel : nat) (h : TxTaskQueue T) (j : nat) : TxTaskQueue T :=
  match fuel with
  | O => h
  | S fuel' =>
      let i := ((j - 1) / 2)%nat in
      if (i =? j)%nat || negb (Less h j i) then h
      else up_loop fuel' (Swap h i j) i
  end.

Definition up (h : TxTaskQueue T) (j : nat) : TxTaskQueue T := up_loop j h j.

(** [heap.down] (its boolean result is not used by [Pop]):
<<
    i := i0
    for {
        j1 := 2*i + 1
        if j1 >= n || j1 < 0 { break }
        j := j1
        if j2 := j1 + 1; j2 < n && h.Less(j2, j1) { j = j2 }
        if !h.Less(j, i) { break }
        h.Swap(i, j)
        i = j
    }
>>
    [i] strictly increases and stays below [n]. *)
Fixpoint down_loop (fuel : nat) (h : TxTaskQueue T) (i n : nat) : TxTaskQueue T :=
  match fuel with
  | O => h
  | S fuel' =>
      let j1 := (2 * i + 1)%nat in
      if (n <=? j1)%nat then h
      else
        let j := if (j1 + 1 <? n)%nat && Less h (j1 + 1) j1
                 then (j1 + 1)%nat else j1 in
        if negb (Less h j i) then h
        else down_loop fuel' (Swap h i j) j n
  end.

Definition down (h : TxTaskQueue T) (i0 n : nat) : TxTaskQueue T :=
  down_loop (n - i0) h i0 n.

(** [heap.Push(h, x)]: [h.Push(x); up(h, h.Len()-1)] *)
Definition heap_Push (h : TxTaskQueue T) (x : T) : TxTaskQueue T :=
  let h1 := Push h x in up h1 (Len h1 - 1).

(** [heap.Pop(h)]: [n := h.Len() - 1; h.Swap(0, n); down(h, 0, n);
    return h.Pop()].  On an empty heap [h.Swap(0, -1)] panics. *)
Definition heap_Pop (h : TxTaskQueue T) : result (T * TxTaskQueue T) :=
  match h with
  | [] => Panic IndexOutOfRange
  | _ :: _ =>
      let n := (Len h - 1)%nat in
      Pop (down (Swap h 0 n) 0 n)
  end.

(** [heap.Pop] repeated [n] times, collecting what it returns. *)
Fixpoint pop_many (n : nat) (h : TxTaskQueue T) : result (list T * TxTaskQueue T) :=
  match n with
  | O => Ok ([], h)
  | S n' =>
      '(x, h1) ← heap_Pop h;
      '(xs, h2) ← pop_many n' h1;
      Ok (x :: xs, h2)
  end.

(** The [TxNum] a queue entry is ordered by. *)
Definition key (x : T) : N := state.TxNum (Version x).

Definition key_at (h : TxTaskQueue T) (i : nat) : N :=
  match h !! i with Some x => key x | None => 0%N end.

(** The heap condition on the first [n] slots: no entry is smaller than
    its parent. *)
Definition heap_upto (n : nat) (h : TxTaskQueue T) : Prop :=
  ∀ c, (0 < c < n)%nat → (key_at h ((c - 1) / 2) ≤ key_at h c)%N.

Definition is_heap (h : TxTaskQueue T) : Prop := heap_upto (length h) h.
End heap.

(** ** Buffered channels *)

Record chan (A : Type) : Type := mkChan {
  buf : list A;
  cap : nat;
  chan_closed : bool
}.
Global Arguments mkChan {A} buf cap chan_closed.
Global Arguments buf {A} c.
Global Arguments cap {A} c.
Global Arguments chan_closed {A} c.

(** [make(chan A, size)] *)
Definition make_chan {A} (size : Z) : result (chan A) :=
  if (size <? 0)%Z then Panic MakeChanSizeOutOfRange
  else Ok (mkChan [] (Z.to_nat size) false).

(** A send can proceed when the buffer has room; on a closed channel it
    proceeds by panicking. *)
Definition send_ready {A} (c : chan A) : bool :=
  chan_closed c || (length (buf c) <? cap c)%nat.

Definition send {A} (c : chan A) (x : A) : result (chan A) :=
  if chan_closed c then Panic SendOnClosedChannel
  else Ok (mkChan (buf c ++ [x]) (cap c) (chan_closed c)).

(** A receive can proceed when the buffer is non-empty or the channel is
    closed. *)
Definition recv_ready {A} (c : chan A) : bool :=
  match buf c with [] => chan_closed c | _ :: _ => true end.

Definition set_buf {A} (c : chan A) (b : list A) : chan A :=
  mkChan b (cap c) (chan_closed c).

Definition close {A} (c : chan A) : result (chan A) :=
  if chan_closed c then Panic CloseOfClosedChannel
  else Ok (mkChan (buf c) (cap c) true).

(** What a call that may block does in a sequential run: it returns, or
    waits for another goroutine, or panics. *)
Inductive outcome (S A : Type) : Type :=
  | Returned (a : A) (s : S)
  | Blocked (s : S)
  | Panicked (p : panic).
Global Arguments Returned {S A} a s.
Global Arguments Blocked {S A} s.
Global Arguments Panicked {S A} p.

(** A [context.Context], as far as the queues look at it. *)
Record Context : Type := mkContext { done : bool }.

Inductive error : Set := Canceled.

(** [ctx.Err()] *)
Definition ctx_Err (ctx : Context) : option error :=
  if done ctx then Some Canceled else None.

(** ** [QueueWithRetry] *)

Section queue_with_retry.
Context {T : Type} `{!Task T}.

(** A [nil] task in the channel is the wake-up marker sent by [ReTry]. *)
Record QueueWithRetry : Type := mkQueue {
  closed : bool;
  newTasks : chan (option T);
  retires : TxTaskQueue T;
  capacity : Z
}.

Definition NewQueueWithRetry (capacity : Z) : result QueueWithRetry :=
  c ← make_chan capacity;
  Ok {| closed := false; newTasks := c; retires := []; capacity := capacity |}.

Definition NewTasksLen (q : QueueWithRetry) : nat := length (buf (newTasks q)).
Definition Capacity (q : QueueWithRetry) : Z := capacity q.
Definition RetriesLen (q : QueueWithRetry) : nat := Len (retires q).
Definition RetryTxNumsList (q : QueueWithRetry) : list N :=
  (λ t, state.TxNum (Version t)) <$> retires q.
Definition QueueWithRetry_Len (q : QueueWithRetry) : nat :=
  (RetriesLen q + NewTasksLen q)%nat.

Definition set_newTasks (q : QueueWithRetry) (c : chan (option T)) : QueueWithRetry :=
  {| closed := closed q; newTasks := c; retires := retires q;
     capacity := capacity q |}.
Definition set_retires (q : QueueWithRetry) (r : TxTaskQueue T) : QueueWithRetry :=
  {| closed := closed q; newTasks := newTasks q; retires := r;
     capacity := capacity q |}.

(** [Add]:
<<
    select {
    case <-ctx.Done(): return
    case q.newTasks <- t:
    }
>>
    When both cases can proceed Go picks one pseudo-randomly; [pick_done]
    is that pick. *)
Definition Add (pick_done : bool) (ctx : Context) (q : QueueWithRetry) (t : T) :
    outcome QueueWithRetry () :=
  let do_send :=
    match send (newTasks q) (Some t) with
    | Ok c => Returned () (set_newTasks q c)
    | Panic p => Panicked p
    end in
  match done ctx, send_ready (newTasks q) with
  | false, false => Blocked q
  | true, false => Returned () q
  | false, true => do_send
  | true, true => if pick_done then Returned () q else do_send
  end.

(** [ReTry]: push on the heap, then a non-blocking send of the [nil]
    marker unless the queue is closed. *)
Definition ReTry (q : QueueWithRetry) (t : T) : result QueueWithRetry :=
  let q1 := set_retires q (heap_Push (retires q) t) in
  if closed q1 then Ok q1
  else if send_ready (newTasks q1) then
    c ← send (newTasks q1) None;
    Ok (set_newTasks q1 c)
  else Ok q1.

(** The receive loop at the end of [popNoWait]: markers are skipped until
    a task arrives or the buffer is empty. *)
Fixpoint popNoWait_recv (b : list (option T)) : option T * list (option T) :=
  match b with
  | [] => (None, [])
  | None :: b' => popNoWait_recv b'
  | Some t :: b' => (Some t, b')
  end.

Definition popNoWait (q : QueueWithRetry) : result ((option T * bool) * QueueWithRetry) :=
  if (0 <? Len (retires q))%nat then
    '(task, r) ← heap_Pop (retires q);
    Ok ((Some task, true), set_retires q r)
  else
    let '(task, b) := popNoWait_recv (buf (newTasks q)) in
    Ok ((task, bool_decide (is_Some task)), set_newTasks q (set_buf (newTasks q) b)).

(** [popWait]; [pick k] is the pick of the [k]-th [select] when both of
    its cases can proceed ([true]: the [ctx.Done()] case). *)
Fixpoint popWait_loop (pick : nat → bool) (k : nat) (ctx : Context)
    (q : QueueWithRetry) (b : list (option T)) (r : TxTaskQueue T) :
    outcome QueueWithRetry (option T * bool) :=
  let q_now b r := set_retires (set_newTasks q (set_buf (newTasks q) b)) r in
  match b with
  | [] =>
      if chan_closed (newTasks q) then
        if done ctx && pick k then Returned (None, false) (q_now b r)
        else if (0 <? Len r)%nat then
          match heap_Pop r with
          | Ok (task, r') => Returned (Some task, true) (q_now b r')
          | Panic p => Panicked p
          end
        else Returned (None, false) (q_now b r)
      else if done ctx then Returned (None, false) (q_now b r)
      else Blocked (q_now b r)
  | inTask :: b' =>
      if done ctx && pick k then Returned (None, false) (q_now b r)
      else
        let r1 := match inTask with Some t => heap_Push r t | None => r end in
        if (0 <? Len r1)%nat then
          match heap_Pop r1 with
          | Ok (task, r') => Returned (Some task, true) (q_now b' r')
          | Panic p => Panicked p
          end
        else popWait_loop pick (S k) ctx q b' r1
  end.

Definition popWait (pick : nat → bool) (ctx : Context) (q : QueueWithRetry) :
    outcome QueueWithRetry (option T * bool) :=
  popWait_loop pick 0 ctx q (buf (newTasks q)) (retires q).

Definition Next (pick : nat → bool) (ctx : Context) (q : QueueWithRetry) :
    outcome QueueWithRetry (option T * bool) :=
  match popNoWait q with
  | Ok ((task, true), q1) => Returned (task, true) q1
  | Ok ((_, false), q1) => popWait pick ctx q1
  | Panic p => Panicked p
  end.

Definition Close (q : QueueWithRetry) : result QueueWithRetry :=
  if closed q then Ok q
  else
    c ← close (newTasks q);
    Ok {| closed := true; newTasks := c; retires := retires q;
          capacity := capacity q |}.

(** Calls of the queue that return, for reachability. *)
Inductive queue_step : QueueWithRetry → QueueWithRetry → Prop :=
  | step_Add pick ctx q t q' :
      Add pick ctx q t = Returned () q' → queue_step q q'
  | step_ReTry q t q' : ReTry q t = Ok q' → queue_step q q'
  | step_Next pick ctx q a q' :
      Next pick ctx q = Returned a q' → queue_step q q'
  | step_Next_blocked pick ctx q q' :
      Next pick ctx q = Blocked q' → queue_step q q'
  | step_Close q q' : Close q = Ok q' → queue_step q q'.

Inductive queue_reachable : QueueWithRetry → Prop :=
  | queue_reachable_new capacity q :
      NewQueueWithRetry capacity = Ok q → queue_reachable q
  | queue_reachable_step q q' :
      queue_reachable q → queue_step q q' → queue_reachable q'.

(** [Next] called [n] times in a row, collecting the tasks returned with
    [ok = true]; stops at the first call that does not return a task. *)
Fixpoint Next_many (pick : nat → bool) (ctx : Context) (n : nat)
    (q : QueueWithRetry) : list T * QueueWithRetry :=
  match n with
  | O => ([], q)
  | S n' =>
      match Next pick ctx q with
      | Returned (Some t, true) q1 =>
          let '(ts, q2) := Next_many pick ctx n' q1 in (t :: ts, q2)
      | _ => ([], q)
      end
  end.
End queue_with_retry.

Global Arguments QueueWithRetry T : clear implicits.

(** ** [ResultsQueue] *)

Record ResultsQueue : Type := mkResults {
  limit : Z;
  results_closed : bool;
  resultCh : chan (option Result);
  ticker_stopped : bool;
  results : TxTaskQueue Result
}.

(** [NewResultsQueue]; [heap.Init] on the empty queue does nothing. *)
Definition NewResultsQueue (resultChannelLimit heapLimit : Z) : result ResultsQueue :=
  c ← make_chan resultChannelLimit;
  Ok {| limit := heapLimit; results_closed := false; resultCh := c;
        ticker_stopped := false; results := [] |}.

Definition set_resultCh (q : ResultsQueue) (c : chan (option Result)) : ResultsQueue :=
  {| limit := limit q; results_closed := results_closed q; resultCh := c;
     ticker_stopped := ticker_stopped q; results := results q |}.
Definition set_results (q : ResultsQueue) (r : TxTaskQueue Result) : ResultsQueue :=
  {| limit := limit q; results_closed := results_closed q; resultCh := resultCh q;
     ticker_stopped := ticker_stopped q; results := r |}.

(** [ResultsQueue.Add]: as [QueueWithRetry.Add], returning [ctx.Err()] on
    cancellation. *)
Definition ResultsQueue_Add (pick_done : bool) (ctx : Context) (q : ResultsQueue)
    (task : option Result) : outcome ResultsQueue (option error) :=
  let do_send :=
    match send (resultCh q) task with
    | Ok c => Returned None (set_resultCh q c)
    | Panic p => Panicked p
    end in
  match done ctx, send_ready (resultCh q) with
  | false, false => Blocked q
  | true, false => Returned (ctx_Err ctx) q
  | false, true => do_send
  | true, true => if pick_done then Returned (ctx_Err ctx) q else do_send
  end.

(** The [for { select { ... default: } }] loop of [drainNoBlock]. *)
Fixpoint drainNoBlock_loop (pick : nat → bool) (k : nat) (ctx : Context)
    (q : ResultsQueue) (b : list (option Result)) (r : TxTaskQueue Result) :
    option error * ResultsQueue :=
  let q_now b r := set_results (set_resultCh q (set_buf (resultCh q) b)) r in
  match b with
  | [] =>
      if chan_closed (resultCh q) then
        if done ctx && pick k then (ctx_Err ctx, q_now b r) else (None, q_now b r)
      else if done ctx then (ctx_Err ctx, q_now b r)
      else (None, q_now b r)
  | txTask :: b' =>
      if done ctx && pick k then (ctx_Err ctx, q_now b r)
      else
        match txTask with
        | None => drainNoBlock_loop pick (S k) ctx q b' r
        | Some t =>
            let r1 := heap_Push r t in
            if (limit q <? Z.of_nat (Len r1))%Z then (None, q_now b' r1)
            else drainNoBlock_loop pick (S k) ctx q b' r1
        end
  end.

Definition drainNoBlock (pick : nat → bool) (ctx : Context) (q : ResultsQueue)
    (task : option Result) : option error * ResultsQueue :=
  let r := match task with Some t => heap_Push (results q) t | None => results q end in
  drainNoBlock_loop pick 0 ctx q (buf (resultCh q)) r.

Definition DrainNonBlocking (pick : nat → bool) (ctx : Context) (q : ResultsQueue) :
    option error * ResultsQueue :=
  drainNoBlock pick ctx q None.

(** The receive case of [Drain]: [if !ok { return nil }], else
    [drainNoBlock(ctx, txTask)]. *)
Definition Drain_receive (pick : nat → bool) (ctx : Context) (q : ResultsQueue) :
    outcome ResultsQueue (option error) :=
  match buf (resultCh q) with
  | [] => Returned None q
  | txTask :: b =>
      let '(e, q') :=
        drainNoBlock pick ctx (set_resultCh q (set_buf (resultCh q) b)) txTask in
      Returned e q'
  end.

(** The [select] of [Drain] when the ticker has not fired. *)
Definition Drain_no_tick (pick_done : bool) (pick : nat → bool) (ctx : Context)
    (q : ResultsQueue) : outcome ResultsQueue (option error) :=
  match done ctx, recv_ready (resultCh q) with
  | false, false => Blocked q
  | true, false => Returned (ctx_Err ctx) q
  | false, true => Drain_receive pick ctx q
  | true, true =>
      if pick_done then Returned (ctx_Err ctx) q else Drain_receive pick ctx q
  end.

(** [Drain]:
<<
    select {
    case <-ctx.Done(): return ctx.Err()
    case txTask, ok := <-q.resultCh:
        if !ok { return nil }
        if err := q.drainNoBlock(ctx, txTask); err != nil { return err }
    case <-q.ticker.C:
        if q.Len() > 0 { return nil }
        return q.Drain(ctx)
    }
    return nil
>>
    When the ticker fires is a matter of time: [ticks] is the number of
    times in a row the run-time takes the ticker case (none once the ticker
    is stopped); [pick_done] and [pick] are the picks among the other
    cases. *)
Fixpoint Drain (ticks : nat) (pick_done : bool) (pick : nat → bool)
    (ctx : Context) (q : ResultsQueue) : outcome ResultsQueue (option error) :=
  match ticks with
  | O => Drain_no_tick pick_done pick ctx q
  | S ticks' =>
      if ticker_stopped q then Drain_no_tick pick_done pick ctx q
      else if (0 <? Len (results q))%nat then Returned None q
      else Drain ticks' pick_done pick ctx q
  end.

Definition HasNext (q : ResultsQueue) : bool := (0 <? length (results q))%nat.

Definition Has (q : ResultsQueue) (outputTxNum : N) : bool :=
  match results q with
  | [] => false
  | r :: _ => (state.TxNum (Version r) =? outputTxNum)%N
  end.

Definition PopNext (q : ResultsQueue) : result (Result * ResultsQueue) :=
  '(r, h) ← heap_Pop (results q);
  Ok (r, set_results q h).

Definition ResultsQueue_Push (q : ResultsQueue) (t : Result) : ResultsQueue :=
  set_results q (heap_Push (results q) t).

Definition ResultsQueue_Len (q : ResultsQueue) : nat := Len (results q).
Definition ResultChLen (q : ResultsQueue) : nat := length (buf (resultCh q)).

Definition ResultsQueue_Close (q : ResultsQueue) : result ResultsQueue :=
  if results_closed q then Ok q
  else
    c ← close (resultCh q);
    Ok {| limit := limit q; results_closed := true; resultCh := c;
          ticker_stopped := true; results := results q |}.

(** [PopNext] repeated [n] times. *)
Fixpoint PopNext_many (n : nat) (q : ResultsQueue) : result (list Result * ResultsQueue) :=
  match n with
  | O => Ok ([], q)
  | S n' =>
      '(x, q1) ← PopNext q;
      '(xs, q2) ← PopNext_many n' q1;
      Ok (x :: xs, q2)
  end.

(** Calls of the results queue that return, for reachability. *)
Inductive results_step : ResultsQueue → ResultsQueue → Prop :=
  | rstep_Add pick ctx q task e q' :
      ResultsQueue_Add pick ctx q task = Returned e q' → results_step q q'
  | rstep_drain pick ctx q task e q' :
      drainNoBlock pick ctx q task = (e, q') → results_step q q'
  | rstep_Drain ticks pick_done pick ctx q e q' :
      Drain ticks pick_done pick ctx q = Returned e q' → results_step q q'
  | rstep_Push q t : results_step q (ResultsQueue_Push q t)
  | rstep_PopNext q r q' : PopNext q = Ok (r, q') → results_step q q'
  | rstep_Close q q' : ResultsQueue_Close q = Ok q' → results_step q q'.

Inductive results_reachable : ResultsQueue → Prop :=
  | results_reachable_new resultChannelLimit heapLimit q :
      NewResultsQueue resultChannelLimit heapLimit = Ok q → results_reachable q
  | results_reachable_step q q' :
      results_reachable q → results_step q q' → results_reachable q'.

End Exec.

(** ** Call sequences of the status manager *)

Module StatusCalls.

Import Status.
Local Open Scope Z_scope.

(** A sequence of calls, stopping at the first panic. *)
Fixpoint run_all (m : execStatusManager) (cs : list call) : result execStatusManager :=
  match cs with
  | [] => Ok m
  | c :: cs' => m1 ← run m c; run_all m1 cs'
  end.

(** The calls of a conflict-free pass over [n] tasks: each task is taken
    and then marked complete. *)
Definition process_all (first : Z) (n : nat) : list call :=
  flat_map (λ i, [TakeNextPending; MarkComplete i]) (seqZ first (Z.of_nat n)).

Definition lists_sorted (m : execStatusManager) : Prop :=
  StronglySorted Z.lt (pending m) ∧ StronglySorted Z.lt (inProgress m)
  ∧ StronglySorted Z.lt (complete m).

(** Every recorded blocker of a task has the matching entry in the
    dependency map. *)
Definition edges_consistent (m : execStatusManager) : Prop :=
  ∀ d b, is_Some (inner (blocker m) d !! b) → is_Some (inner (dependency m) b !! d).

End StatusCalls.

(** ** What the queues hold *)

Module ExecCalls.

Import Exec.

Section queue_contents.
Context {T : Type} `{!Task T}.

(** The fresh tasks waiting in the channel, in arrival order; the [nil]
    markers of [ReTry] are not tasks. *)
Definition fresh (q : QueueWithRetry T) : list T := omap id (buf (newTasks q)).

(** All the tasks a queue holds. *)
Definition queued (q : QueueWithRetry T) : list T := retires q ++ fresh q.

(** The [closed] flag mirrors the channel, whose buffer respects the
    capacity the queue was made with. *)
Definition queue_inv (q : QueueWithRetry T) : Prop :=
  closed q = chan_closed (newTasks q)
  ∧ (length (buf (newTasks q)) ≤ cap (newTasks q))%nat
  ∧ Z.of_nat (cap (newTasks q)) = capacity q.
End queue_contents.

(** The results a [ResultsQueue] holds, in the heap or still in the
    channel. *)
Definition held (q : ResultsQueue) : list Result :=
  results q ++ omap id (buf (resultCh q)).

(** The [closed] flag mirrors the channel, a closed queue has its ticker
    stopped, and the buffer respects the channel's capacity. *)
Definition results_inv (q : ResultsQueue) : Prop :=
  results_closed q = chan_closed (resultCh q)
  ∧ (results_closed q = true → ticker_stopped q = true)
  ∧ (length (buf (resultCh q)) ≤ cap (resultCh q))%nat.

(** [DropResults]:
<<
    Loop:
        for {
            select {
            case <-ctx.Done(): return
            case txTask, ok := <-q.resultCh:
                if !ok { break Loop }
                f(txTask)
            default: break Loop
            }
        }
        for q.results.Len() > 0 { f(heap.Pop(q.results)) }
>>
    The callback [f] is modelled by the list of the arguments it is called
    with, in call order.  The first loop returns whether the context case
    was taken, what is left in the buffer, and the calls so far. *)
Fixpoint DropResults_loop (pick : nat → bool) (k : nat) (ctx : Context)
    (ch_closed : bool) (b : list (option Result)) (calls : list (option Result)) :
    bool * list (option Result) * list (option Result) :=
  match b with
  | [] =>
      if ch_closed then (done ctx && pick k, b, calls)
      else (done ctx, b, calls)
  | txTask :: b' =>
      if done ctx && pick k then (true, b, calls)
      else DropResults_loop pick (S k) ctx ch_closed b' (calls ++ [txTask])
  end.

(** The second loop; each iteration pops one result, so [Len] iterations
    empty the heap. *)
Fixpoint DropResults_heap (fuel : nat) (h : TxTaskQueue Result)
    (calls : list (option Result)) :
    result (list (option Result) * TxTaskQueue Result) :=
  match fuel with
  | O => Ok (calls, h)
  | S fuel' =>
      if (0 <? Len h)%nat then
        '(x, h') ← heap_Pop h;
        DropResults_heap fuel' h' (calls ++ [Some x])
      else Ok (calls, h)
  end.

Definition DropResults (pick : nat → bool) (ctx : Context) (q : ResultsQueue) :
    result (list (option Result) * ResultsQueue) :=
  let '(cancelled, b, calls) :=
    DropResults_loop pick 0 ctx (chan_closed (resultCh q)) (buf (resultCh q)) [] in
  let q1 := set_resultCh q (set_buf (resultCh q) b) in
  if cancelled : bool then Ok (calls, q1)
  else
    '(calls', h) ← DropResults_heap (Len (results q1)) (results q1) calls;
    Ok (calls', set_results q1 h).

(** [ResultsQueue.Add] called for each result of [rs] in turn, while the
    calls return [nil]; [pick_done k] is the pick of the [k]-th call. *)
Fixpoint Add_all (pick_done : nat → bool) (k : nat) (ctx : Context)
    (q : ResultsQueue) (rs : list Result) : option ResultsQueue :=
  match rs with
  | [] => Some q
  | r :: rs' =>
      match ResultsQueue_Add (pick_done k) ctx q (Some r) with
      | Returned None q1 => Add_all pick_done (S k) ctx q1 rs'
      | _ => None
      end
  end.

(** ** [Worker.Run]

    Of the worker only the fields [Run] touches: the input queue [in], the
    context, the results queue [resultCh], and the rest of the worker as
    the state [W] that [RunTxTask] reads and updates ([RunTxTask] runs the
    EVM; it is a parameter here). *)
Section worker.
Context {W : Type}.
Variable RunTxTask : W → option TxTask → result (Result * W).

Record Worker : Type := mkWorker {
  worker_in : QueueWithRetry TxTask;
  worker_ctx : Context;
  worker_resultCh : ResultsQueue;
  worker_rest : W
}.

(** [Run]:
<<
    for txTask, ok := rw.in.Next(rw.ctx); ok; txTask, ok = rw.in.Next(rw.ctx) {
        result := rw.RunTxTask(txTask)
        if err := rw.resultCh.Add(rw.ctx, result); err != nil { return err }
    }
    return nil
>>
    [k] counts the iterations, for the picks of the two [select]s. *)
Fixpoint Run (fuel : nat) (pick_next : nat → nat → bool) (pick_add : nat → bool)
    (k : nat) (rw : Worker) : option (outcome Worker (option error)) :=
  match fuel with
  | O => None
  | S fuel' =>
      match Next (pick_next k) (worker_ctx rw) (worker_in rw) with
      | Panicked p => Some (Panicked p)
      | Blocked q1 =>
          Some (Blocked (mkWorker q1 (worker_ctx rw) (worker_resultCh rw)
                           (worker_rest rw)))
      | Returned (_, false) q1 =>
          Some (Returned None
                  (mkWorker q1 (worker_ctx rw) (worker_resultCh rw)
                     (worker_rest rw)))
      | Returned (txTask, true) q1 =>
          match RunTxTask (worker_rest rw) txTask with
          | Panic p => Some (Panicked p)
          | Ok (res, w1) =>
              match ResultsQueue_Add (pick_add k) (worker_ctx rw)
                      (worker_resultCh rw) (Some res) with
              | Panicked p => Some (Panicked p)
              | Blocked rq => Some (Blocked (mkWorker q1 (worker_ctx rw) rq w1))
              | Returned (Some err) rq =>
                  Some (Returned (Some err) (mkWorker q1 (worker_ctx rw) rq w1))
              | Returned None rq =>
                  Run fuel' pick_next pick_add (S k)
                    (mkWorker q1 (worker_ctx rw) rq w1)
              end
          end
      end
  end.

(** [RunTxTask] on the tasks of [ts], one after the other. *)
Fixpoint run_tasks (w : W) (ts : list TxTask) : result (list Result * W) :=
  match ts with
  | [] => Ok ([], w)
  | t :: ts' =>
      '(r, w1) ← RunTxTask w (Some t);
      '(rs, w2) ← run_tasks w1 ts';
      Ok (r :: rs, w2)
  end.
End worker.

End ExecCalls.

(** ** Transaction lookup entries ([rawdb]) *)

Module Rawdb.

Local Open Scope N_scope.

(** [byte(v)]: the low eight bits. *)
Definition byte_of_N (v : N) : Byte.byte :=
  default Byte.x00 (Byte.of_N (v mod 256)).

(** [new(big.Int).SetBytes(buf)]: [buf] read as a big-endian unsigned
    integer. *)
Definition SetBytes (buf : list Byte.byte) : N :=
  foldl (λ acc b, acc * 256 + Byte.to_N b) 0 buf.

(** [big.Int]'s [Uint64()] of a non-negative value: its low 64 bits. *)
Definition Uint64 (x : N) : N := x mod 2 ^ 64.

(** [big.Int]'s [Bytes()]: the big-endian bytes without leading zeros (none
    at all for zero); a number has no more bytes than bits. *)
Fixpoint Bytes_loop (fuel : nat) (x : N) : list Byte.byte :=
  match fuel with
  | O => []
  | S fuel' =>
      if x =? 0 then [] else Bytes_loop fuel' (x / 256) ++ [byte_of_N x]
  end.

Definition Bytes (x : N) : list Byte.byte := Bytes_loop (N.to_nat (N.size x)) x.

(** Big-endian encoding on [w] bytes. *)
Fixpoint big_endian (w : nat) (v : N) : list Byte.byte :=
  match w with
  | O => []
  | S w' => big_endian w' (v / 256) ++ [byte_of_N v]
  end.

(** [binary.BigEndian.PutUint64(b, v)] on a fresh eight-byte slice. *)
Definition PutUint64 (v : N) : list Byte.byte := big_endian 8 v.

(** The [kv.TxLookup] table, keyed by transaction hash. *)
Abbreviation TxLookup Hash := (gmap Hash (list Byte.byte)) (only parsing).

Section tx_lookup.
Context {Hash : Type} `{Countable Hash}.

(** [GetOne] on a key that is not there returns no data. *)

Definition GetOne {E : Type} (db : TxLookup Hash) (k : Hash) : list Byte.byte + E :=
  inl (default [] (db !! k)).

(** [ReadTxLookupEntry]; [GetOne] is the read of the database, which may
    fail. *)
Definition ReadTxLookupEntry {E : Type} (GetOne : Hash → list Byte.byte + E)
    (txnHash : Hash) : option N * option N * option E :=
  match GetOne txnHash with
  | inr err => (None, None, Some err)
  | inl data =>
      if (length data =? 0)%nat then (None, None, None)
      else
        let numberBlockNum :=
          Uint64 (SetBytes (take (Nat.min 8 (length data)) data)) in
        if (8 <=? length data)%nat then
          (Some numberBlockNum, Some (Uint64 (SetBytes (drop 8 data))), None)
        else (Some numberBlockNum, None, None)
  end.

(** [WriteTxLookupEntries] into the table, for a block with number
    [blockNumber] and transactions with hashes [txns]; [txNum++] is on a
    [uint64].  A [Put] into the table does not fail, and the debugging
    print at the start leaves the table alone. *)
Fixpoint WriteTxLookupEntries (db : TxLookup Hash) (blockNumber : N)
    (txns : list Hash) (txNum : N) : TxLookup Hash :=
  match txns with
  | [] => db
  | txn :: txns' =>
      let data := Bytes blockNumber ++ PutUint64 txNum in
      WriteTxLookupEntries (<[txn := data]> db) blockNumber txns'
        ((txNum + 1) mod 2 ^ 64)
  end.

Definition DeleteTxLookupEntry (db : TxLookup Hash) (hash : Hash) :
    TxLookup Hash :=
  delete hash db.
End tx_lookup.

End Rawdb.

(** * Facts *)

(** ** Binary search *)

Module SortFacts.

Lemma half_between (i j : nat) : (i < j → i ≤ (i + j) / 2 < j)%nat.
Proof.
  intros Hij.
  pose proof (Nat.div_mod_eq (i + j) 2) as Hd.
  pose proof (Nat.mod_upper_bound (i + j) 2) as Hm.
  lia.
Qed.

(** The loop invariant of [sort.Search], for an arbitrary predicate: the
    element left of the result fails [f] and the result itself satisfies
    it. *)
Lemma Search_loop_inv (fuel : nat) (f : nat → bool) (i j n : nat) :
  (i ≤ j)%nat → (j - i ≤ fuel)%nat →
  (i = 0%nat ∨ f (i - 1)%nat = false) →
  (j = n ∨ f j = true) →
  let r := Search_loop fuel f i j in
  (i ≤ r ≤ j)%nat ∧ (r = 0%nat ∨ f (r - 1)%nat = false) ∧ (r = n ∨ f r = true).
Proof.
  revert i j.
  induction fuel as [|fuel IH]; intros i j Hij Hfuel Hi Hj; cbn [Search_loop].
  - assert (i = j) by lia. subst j. auto with lia.
  - destruct (Nat.ltb_spec i j) as [Hlt|Hge].
    + pose proof (half_between i j Hlt) as Hh.
      destruct (f ((i + j) / 2)%nat) eqn:Hf; cbn [negb].
      * destruct (IH i ((i + j) / 2)%nat) as (? & ? & ?);
          [lia|lia|done|by right|].
        split; [lia|done].
      * destruct (IH ((i + j) / 2 + 1)%nat j) as (? & ? & ?); [lia|lia| |done|].
        { right. by replace ((i + j) / 2 + 1 - 1)%nat with ((i + j) / 2)%nat by lia. }
        split; [lia|done].
    + assert (i = j) by lia. subst j. auto with lia.
Qed.

(** Fuel beyond [j - i] is never used: the model loop stops exactly where
    the Go loop does. *)
Lemma Search_loop_fuel (fuel fuel' : nat) (f : nat → bool) (i j : nat) :
  (j - i ≤ fuel)%nat → (j - i ≤ fuel')%nat →
  Search_loop fuel f i j = Search_loop fuel' f i j.
Proof.
  revert fuel' i j. induction fuel as [|fuel IH]; intros fuel' i j H1 H2.
  - destruct fuel'; cbn [Search_loop]; [done|].
    destruct (Nat.ltb_spec i j); [lia|done].
  - destruct fuel' as [|fuel']; cbn [Search_loop].
    + destruct (Nat.ltb_spec i j); [lia|done].
    + destruct (Nat.ltb_spec i j) as [Hlt|]; [|done].
      pose proof (half_between i j Hlt).
      destruct (f ((i + j) / 2)%nat); cbn [negb]; apply IH; lia.
Qed.

Lemma Search_spec (n : nat) (f : nat → bool) :
  let r := Search n f in
  (r ≤ n)%nat ∧ (r = 0%nat ∨ f (r - 1)%nat = false) ∧ (r = n ∨ f r = true).
Proof.
  unfold Search.
  destruct (Search_loop_inv n f 0 n n) as (? & ? & ?); auto with lia.
Qed.

Lemma SearchInts_spec (a : list Z) (x : Z) :
  let r := SearchInts a x in
  (r ≤ length a)%nat
  ∧ (r = 0%nat ∨ ∃ y, a !! (r - 1)%nat = Some y ∧ (y < x)%Z)
  ∧ (r = length a ∨ ∃ y, a !! r = Some y ∧ (x ≤ y)%Z).
Proof.
  unfold SearchInts.
  match goal with |- context [Search ?n ?f] =>
    destruct (Search_spec n f) as (Hle & Hl & Hr); set (r := Search n f) in *
  end.
  split; [done|]. split.
  - destruct Hl as [?|Hl]; [by left|].
    destruct (decide (r = 0%nat)) as [?|Hr0]; [by left|right].
    destruct (a !! (r - 1)%nat) as [y|] eqn:Hy.
    + exists y. split; [done|]. apply Z.leb_gt in Hl. lia.
    + apply lookup_ge_None in Hy. lia.
  - destruct Hr as [?|Hr]; [by left|right].
    destruct (a !! r) as [y|] eqn:Hy; [|done].
    exists y. split; [done|]. by apply Z.leb_le.
Qed.

End SortFacts.

(** ** The sorted index lists of the status manager *)

Module ListFacts.

Import SortFacts Status.
Local Open Scope Z_scope.

Lemma StronglySorted_lookup {A} (R : relation A) (l : list A) (i j : nat) (x y : A) :
  StronglySorted R l → (i < j)%nat → l !! i = Some x → l !! j = Some y → R x y.
Proof.
  intros Hs. revert i j. induction Hs as [|a l Hs IH Hall]; intros i j Hij Hi Hj.
  - done.
  - destruct j as [|j]; [lia|]. destruct i as [|i]; simpl in *.
    + simplify_eq. rewrite Forall_lookup in Hall. eauto.
    + apply (IH i j); [lia|done..].
Qed.

Lemma sorted_le_of_lt (l : list Z) : StronglySorted Z.lt l → StronglySorted Z.le l.
Proof.
  induction 1 as [|a l Hs IH Hall]; constructor; [done|].
  eapply Forall_impl; [done|]. intros; simpl in *; lia.
Qed.

Lemma sorted_lt_NoDup (l : list Z) : StronglySorted Z.lt l → NoDup l.
Proof.
  induction 1 as [|a l Hs IH Hall]; [constructor|].
  apply NoDup_cons. split; [|done].
  intros Hin. rewrite Forall_forall in Hall. specialize (Hall _ Hin). lia.
Qed.

Lemma sorted_le_NoDup_lt (l : list Z) :
  StronglySorted Z.le l → NoDup l → StronglySorted Z.lt l.
Proof.
  induction 1 as [|a l Hs IH Hall]; intros Hnd; [constructor|].
  apply NoDup_cons in Hnd as [Hnotin Hnd]. constructor; [auto|].
  rewrite Forall_forall in Hall |- *. intros y Hy.
  specialize (Hall y Hy). assert (a ≠ y) by (intros ->; done). lia.
Qed.

(** On a sorted list the binary search splits the list into the elements
    below [v] and the elements at or above [v]. *)
Lemma SearchInts_split (l : list Z) (v : Z) :
  StronglySorted Z.le l →
  Forall (λ y, y < v) (take (SearchInts l v) l)
  ∧ Forall (λ y, v ≤ y) (drop (SearchInts l v) l).
Proof.
  intros Hs. destruct (SearchInts_spec l v) as (Hle & Hl & Hr).
  set (k := SearchInts l v) in *. split.
  - apply Forall_lookup. intros i y Hy.
    apply lookup_take_Some in Hy as [Hy Hik].
    destruct Hl as [?|(z & Hz & Hzv)]; [lia|].
    destruct (decide (i = k - 1)%nat) as [->|Hne]; [naive_solver lia|].
    pose proof (StronglySorted_lookup _ l i (k - 1)%nat y z Hs ltac:(lia) Hy Hz). lia.
  - apply Forall_lookup. intros i y Hy. rewrite lookup_drop in Hy.
    destruct Hr as [Hr|(z & Hz & Hzv)].
    { apply lookup_lt_Some in Hy. lia. }
    destruct (decide (i = 0)%nat) as [->|Hne].
    { rewrite Nat.add_0_r in Hy. naive_solver lia. }
    pose proof (StronglySorted_lookup _ l k (k + i)%nat z y Hs ltac:(lia) Hz Hy). lia.
Qed.

Lemma checkList_elem_of (l : list Z) (tx : Z) : checkList l tx = true → tx ∈ l.
Proof.
  unfold checkList. intros [_ Hx%bool_decide_eq_true]%andb_prop.
  apply list_elem_of_lookup. eauto.
Qed.

(** Binary-search membership is exact on sorted lists. *)
Lemma checkList_spec (l : list Z) (tx : Z) :
  StronglySorted Z.le l → checkList l tx = true ↔ tx ∈ l.
Proof.
  intros Hs. split; [apply checkList_elem_of|]. intros Hin.
  destruct (SearchInts_split l tx Hs) as [Hlo Hhi].
  unfold checkList. set (k := SearchInts l tx) in *.
  rewrite <-(take_drop k l) in Hin. apply elem_of_app in Hin as [Hin|Hin].
  { rewrite Forall_forall in Hlo. specialize (Hlo _ Hin). lia. }
  destruct (drop k l) as [|y rest] eqn:Hd; [by apply elem_of_nil in Hin|].
  assert (l !! k = Some y) as Hk.
  { rewrite <-(Nat.add_0_r k), <-lookup_drop, Hd. done. }
  assert (y = tx) as ->.
  { apply Forall_cons in Hhi as [Hy _].
    apply elem_of_cons in Hin as [->|Hin]; [done|].
    assert (StronglySorted Z.le (y :: rest)) as Hs'.
    { rewrite <-Hd. rewrite <-(take_drop k l) in Hs.
      by apply StronglySorted_app_1_r in Hs. }
    apply StronglySorted_cons in Hs' as [Hall _].
    rewrite Forall_forall in Hall. specialize (Hall _ Hin). lia. }
  apply andb_true_intro. split.
  - apply Nat.ltb_lt. by apply lookup_lt_Some in Hk.
  - by apply bool_decide_eq_true.
Qed.

Lemma checkList_false (l : list Z) (tx : Z) : tx ∉ l → checkList l tx = false.
Proof.
  intros Hn. destruct (checkList l tx) eqn:E; [|done].
  by apply checkList_elem_of in E.
Qed.

(** In the insertion branch of [insertInList] the search result is a valid
    index, so the slice expression [l[:x+1]] is always in range. *)
Lemma SearchInts_lt_length (l : list Z) (v z : Z) :
  last l = Some z → v ≤ z → (SearchInts l v < length l)%nat.
Proof.
  intros Hlast Hvz. destruct (SearchInts_spec l v) as (Hle & Hl & Hr).
  rewrite last_lookup in Hlast.
  destruct (decide (SearchInts l v = length l)) as [Heq|]; [|lia].
  destruct Hl as [H0|(y & Hy & Hyv)].
  - rewrite H0 in Heq. destruct l; simpl in *; [done|lia].
  - rewrite Heq in Hy. replace (length l - 1)%nat with (pred (length l)) in Hy by lia.
    simplify_eq. lia.
Qed.

Lemma insert_take_succ_drop (l : list Z) (x : nat) (v : Z) :
  (x < length l)%nat →
  <[x := v]> (take (x + 1) l ++ drop x l) = take x l ++ v :: drop x l.
Proof.
  intros Hx. destruct (lookup_lt_is_Some_2 l x Hx) as [y Hy].
  rewrite Nat.add_1_r, (take_S_r l x y Hy), <-app_assoc.
  rewrite insert_app_r_alt by (rewrite length_take; lia).
  rewrite length_take, Nat.min_l, Nat.sub_diag by lia. done.
Qed.

(** What [insertInList] computes, on any list. *)
Lemma insertInList_cases (l : list Z) (v : Z) :
  (insertInList l v = l ++ [v] ∧ (∀ z, last l = Some z → z < v))
  ∨ (insertInList l v = l ∧ v ∈ l)
  ∨ (insertInList l v = take (SearchInts l v) l ++ v :: drop (SearchInts l v) l
     ∧ (SearchInts l v < length l)%nat ∧ l !! SearchInts l v ≠ Some v
     ∧ ∃ z, last l = Some z ∧ v ≤ z).
Proof.
  unfold insertInList. destruct (last l) as [z|] eqn:Hlast.
  - destruct (Z.ltb_spec z v) as [Hlt|Hge].
    + left. split; [done|]. intros ? [= <-]. done.
    + right. case_bool_decide as Hx.
      * left. split; [done|]. apply list_elem_of_lookup. eauto.
      * right. pose proof (SearchInts_lt_length l v z Hlast Hge) as Hlen.
        split; [by apply insert_take_succ_drop|]. eauto.
  - left. split; [done|]. intros ? [=].
Qed.

Lemma elem_of_insertInList (l : list Z) (v y : Z) :
  y ∈ insertInList l v ↔ y = v ∨ y ∈ l.
Proof.
  destruct (insertInList_cases l v) as [[-> _]|[[-> Hin]|[-> _]]].
  - rewrite elem_of_app, list_elem_of_singleton. tauto.
  - split; [tauto|]. intros [->|]; done.
  - rewrite elem_of_app, elem_of_cons.
    assert (y ∈ l ↔ y ∈ take (SearchInts l v) l ∨ y ∈ drop (SearchInts l v) l) as ->.
    { by rewrite <-elem_of_app, take_drop. }
    tauto.
Qed.

Lemma insertInList_sorted (l : list Z) (v : Z) :
  StronglySorted Z.lt l → StronglySorted Z.lt (insertInList l v).
Proof.
  intros Hs. destruct (insertInList_cases l v) as [[-> Hl]|[[-> _]|(-> & Hlen & Hne & _)]].
  - apply StronglySorted_app_2; [|done|repeat constructor].
    intros x1 x2 Hx1 ->%list_elem_of_singleton.
    destruct (last l) as [z|] eqn:Hlast.
    + specialize (Hl z eq_refl).
      apply list_elem_of_lookup in Hx1 as [i Hi].
      rewrite last_lookup in Hlast.
      destruct (decide (i = pred (length l))) as [->|]; [naive_solver|].
      pose proof (lookup_lt_Some _ _ _ Hi).
      pose proof (StronglySorted_lookup _ l i (pred (length l)) x1 z Hs ltac:(lia) Hi Hlast). lia.
    + apply last_None in Hlast. subst l. by apply elem_of_nil in Hx1.
  - done.
  - destruct (SearchInts_split l v (sorted_le_of_lt l Hs)) as [Hlo Hhi].
    set (k := SearchInts l v) in *.
    assert (Forall (λ y, v < y) (drop k l)) as Hhi'.
    { apply Forall_lookup. intros i y Hy.
      rewrite Forall_lookup in Hhi. pose proof (Hhi i y Hy) as Hvy.
      rewrite lookup_drop in Hy.
      destruct (decide (i = 0)%nat) as [->|].
      - rewrite Nat.add_0_r in Hy. assert (y ≠ v) by congruence. lia.
      - destruct (lookup_lt_is_Some_2 l k Hlen) as [z Hz].
        pose proof (StronglySorted_lookup _ l k (k + i)%nat z y Hs ltac:(lia) Hz Hy).
        specialize (Hhi 0%nat z).
        rewrite lookup_drop, Nat.add_0_r in Hhi. specialize (Hhi Hz). lia. }
    rewrite <-(take_drop k l) in Hs.
    apply StronglySorted_app in Hs as (Hcross & Hs1 & Hs2).
    apply StronglySorted_app_2; [|done|by constructor].
    rewrite Forall_forall in Hlo. rewrite Forall_forall in Hhi'.
    intros x1 x2 Hx1 [->|Hx2]%elem_of_cons; [by apply Hlo|by apply Hcross].
Qed.

(** What [removeFromList] computes, on any list: the three arms of the
    [switch] all remove position [x]. *)
Lemma removeFromList_cases (l : list Z) (v : Z) (expect : bool) :
  removeFromList l v expect =
    match l !! SearchInts l v with
    | None => Panic IndexOutOfRange
    | Some y =>
        if bool_decide (y = v) then Ok (delete (SearchInts l v) l)
        else if expect then Panic ElementExpectedInList else Ok l
    end.
Proof.
  unfold removeFromList. set (x := SearchInts l v).
  destruct (l !! x) as [y|] eqn:Hy; [|done].
  destruct (Z.eqb_spec y v) as [->|Hne]; simpl.
  - rewrite bool_decide_eq_true_2 by done. f_equal.
    rewrite delete_take_drop. pose proof (lookup_lt_Some _ _ _ Hy) as Hlen.
    destruct (Nat.eqb_spec x 0) as [->|Hx0]; [by rewrite take_0|].
    destruct (Nat.eqb_spec x (length l - 1)) as [->|Hxl].
    + rewrite (drop_ge l (S _)) by lia. by rewrite app_nil_r.
    + by rewrite Nat.add_1_r.
  - by rewrite bool_decide_eq_false_2 by done.
Qed.

Lemma removeFromList_Ok (l l' : list Z) (v : Z) (expect : bool) :
  StronglySorted Z.lt l → removeFromList l v expect = Ok l' →
  StronglySorted Z.lt l' ∧ (∀ y, y ∈ l' ↔ y ∈ l ∧ y ≠ v)
  ∧ (expect = true → v ∈ l).
Proof.
  intros Hs. rewrite removeFromList_cases. set (x := SearchInts l v).
  destruct (l !! x) as [y|] eqn:Hy; [|done].
  case_bool_decide as Hyv.
  - subst y. intros [= <-].
    pose proof (take_drop_middle l x v Hy) as Hmid.
    rewrite delete_take_drop.
    pose proof Hs as Hs0. rewrite <-Hmid in Hs.
    apply StronglySorted_app in Hs as (Hcross & Hs1 & Hs2).
    apply StronglySorted_cons in Hs2 as [Hall Hs2].
    rewrite Forall_forall in Hall.
    assert (v ∉ take x l ++ drop (S x) l) as Hnotin.
    { intros [Hin|Hin]%elem_of_app.
      - specialize (Hcross v v Hin). rewrite elem_of_cons in Hcross.
        specialize (Hcross (or_introl eq_refl)). lia.
      - specialize (Hall v Hin). lia. }
    split; [|split].
    + apply StronglySorted_app_2; [|done..].
      intros x1 x2 Hx1 Hx2. apply Hcross; [done|]. by right.
    + intros y.
      assert (y ∈ l ↔ y ∈ take x l ∨ y = v ∨ y ∈ drop (S x) l) as ->.
      { by rewrite <-Hmid at 1; rewrite elem_of_app, elem_of_cons. }
      rewrite elem_of_app in Hnotin |- *. split.
      * intros Hin. split; [tauto|]. intros ->. tauto.
      * tauto.
    + intros _. apply list_elem_of_lookup. eauto.
  - destruct expect; [done|]. intros [= <-].
    split; [done|]. split; [|done].
    assert (v ∉ l) as Hnotin.
    { intros Hin.
      apply (checkList_spec l v (sorted_le_of_lt l Hs)) in Hin.
      unfold checkList in Hin. fold x in Hin.
      apply andb_prop in Hin as [_ Hin%bool_decide_eq_true]. congruence. }
    intros z. split; [|tauto]. intros Hz. split; [done|]. by intros ->.
Qed.

(** A removal of an element that is present never panics. *)
Lemma removeFromList_present (l : list Z) (v : Z) (expect : bool) :
  StronglySorted Z.lt l → v ∈ l → is_Ok (removeFromList l v expect).
Proof.
  intros Hs Hin. rewrite removeFromList_cases.
  apply (checkList_spec l v (sorted_le_of_lt l Hs)) in Hin.
  unfold checkList in Hin.
  apply andb_prop in Hin as [_ Hin%bool_decide_eq_true]. rewrite Hin.
  rewrite bool_decide_eq_true_2 by done. by eexists.
Qed.

End ListFacts.

(** ** [maxAllComplete] *)

Module MaxCompleteFacts.

Import SortFacts Status ListFacts.
Local Open Scope Z_scope.

Lemma int_wrap_eq_iff (a b : Z) :
  0 ≤ a ≤ 2 ^ 63 → 0 ≤ b ≤ 2 ^ 63 → int_wrap a = int_wrap b ↔ a = b.
Proof.
  unfold int_wrap. change (2 ^ 63) with 9223372036854775808.
  change (2 ^ 64) with 18446744073709551616.
  intros Ha Hb. split; [|by intros ->].
  intros Heq. Z.to_euclidean_division_equations. lia.
Qed.

(** In a strictly increasing list, values grow at least as fast as
    positions. *)
Lemma sorted_lt_gap (l : list Z) (d i : nat) (a b : Z) :
  StronglySorted Z.lt l → l !! i = Some a → l !! (i + d)%nat = Some b →
  a + Z.of_nat d ≤ b.
Proof.
  intros Hs Ha. revert b. induction d as [|d IH]; intros b Hb.
  - rewrite Nat.add_0_r in Hb. simplify_eq. lia.
  - assert (is_Some (l !! (i + d)%nat)) as [c Hc].
    { apply lookup_lt_is_Some. apply lookup_lt_Some in Hb. lia. }
    specialize (IH c Hc).
    pose proof (StronglySorted_lookup _ l (i + d)%nat (i + S d)%nat c b Hs
                  ltac:(lia) Hc Hb).
    lia.
Qed.

Section with_complete.
Variable c : list Z.
Hypothesis c_sorted : StronglySorted Z.lt c.
Hypothesis c_first : c !! 0%nat = Some 0.

Lemma index_le_value (i : nat) (z : Z) : c !! i = Some z → Z.of_nat i ≤ z.
Proof.
  intros Hz. pose proof (sorted_lt_gap c i 0 0 z c_sorted c_first Hz). lia.
Qed.

(** If position [i] holds [i], so does every earlier position. *)
Lemma gapless_prefix (i j : nat) :
  c !! i = Some (Z.of_nat i) → (j ≤ i)%nat → c !! j = Some (Z.of_nat j).
Proof.
  intros Hi Hji.
  assert (is_Some (c !! j)) as [z Hz].
  { apply lookup_lt_is_Some. apply lookup_lt_Some in Hi. lia. }
  pose proof (index_le_value j z Hz).
  replace i with (j + (i - j))%nat in Hi by lia.
  pose proof (sorted_lt_gap c (i - j) j z _ c_sorted Hz Hi).
  rewrite Hz. f_equal. lia.
Qed.

Lemma gapless_elem_of (i : nat) (j : Z) :
  c !! i = Some (Z.of_nat i) → 0 ≤ j ≤ Z.of_nat i → j ∈ c.
Proof.
  intros Hi Hj. apply list_elem_of_lookup. exists (Z.to_nat j).
  rewrite (gapless_prefix i (Z.to_nat j) Hi) by lia. f_equal. lia.
Qed.

(** If the prefix is gapless up to [i] and position [i + 1] holds more
    than [i + 1], the value [i + 1] is missing. *)
Lemma gap_not_elem_of (i : nat) (z : Z) :
  c !! i = Some (Z.of_nat i) → c !! S i = Some z → Z.of_nat (S i) < z →
  Z.of_nat (S i) ∉ c.
Proof.
  intros Hi Hz Hlt [j Hj]%list_elem_of_lookup.
  destruct (decide (j ≤ i)%nat) as [Hji|Hji].
  { rewrite (gapless_prefix i j Hi Hji) in Hj. simplify_eq. lia. }
  destruct (decide (j = S i)) as [->|Hne]; [simplify_eq; lia|].
  pose proof (StronglySorted_lookup _ c (S i) j z _ c_sorted ltac:(lia) Hz Hj).
  lia.
Qed.

Hypothesis c_int : Forall (λ z, z ≤ int_max) c.

Lemma hasNoGap_prefix (i : nat) (z : Z) :
  c !! i = Some z →
  hasNoGap (take (i + 1) c) = Ok (bool_decide (z = Z.of_nat i)).
Proof.
  intros Hz. unfold hasNoGap.
  rewrite head_lookup, lookup_take_lt, c_first by lia.
  rewrite last_lookup, length_take_le
    by (apply lookup_lt_Some in Hz; lia).
  replace (pred (i + 1)) with i by lia.
  rewrite lookup_take_lt, Hz by lia. f_equal.
  pose proof (index_le_value i z Hz) as Hiz.
  assert (z ≤ int_max) as Hmax.
  { rewrite Forall_lookup in c_int. by apply (c_int i). }
  unfold int_max in Hmax.
  apply eq_true_iff_eq. rewrite Z.eqb_eq, bool_decide_eq_true.
  rewrite int_wrap_eq_iff by lia. lia.
Qed.

(** The descending loop stops at the last position [i < n] that holds
    [i]. *)
Lemma maxAllComplete_loop_spec (n : nat) :
  (1 ≤ n ≤ length c)%nat →
  ∃ i : nat, (i < n)%nat
    ∧ maxAllComplete_loop c n = Ok (Z.of_nat i)
    ∧ c !! i = Some (Z.of_nat i)
    ∧ ∀ j z, (i < j < n)%nat → c !! j = Some z → Z.of_nat j < z.
Proof.
  induction n as [|n IH]; intros Hn; [lia|].
  assert (is_Some (c !! n)) as [z Hz] by (apply lookup_lt_is_Some; lia).
  cbn [maxAllComplete_loop].
  rewrite (hasNoGap_prefix n z Hz). cbn.
  case_bool_decide as Hzn.
  - subst z. exists n. rewrite Hz. split; [lia|]. split; [done|].
    split; [done|]. intros; lia.
  - destruct n as [|n'].
    { rewrite c_first in Hz. simplify_eq. }
    destruct IH as (i & Hi & Hloop & Hci & Hgap); [lia|].
    exists i. split; [lia|]. split; [done|]. split; [done|].
    intros j w Hj Hw. destruct (decide (j = S n')) as [->|].
    + simplify_eq. pose proof (index_le_value _ _ Hz). lia.
    + apply (Hgap j w); [lia|done].
Qed.
End with_complete.

(** The value computed for a strictly sorted list of non-negative ints: the
    end [k] of the gapless prefix [0..k], or [-1]. *)
Lemma maxAllComplete_prefix (m : execStatusManager) :
  StronglySorted Z.lt (complete m) →
  Forall (λ z, 0 ≤ z ≤ int_max) (complete m) →
  ∃ k, maxAllComplete m = Ok k ∧ -1 ≤ k
       ∧ (∀ j, 0 ≤ j ≤ k → j ∈ complete m) ∧ (k + 1) ∉ complete m.
Proof.
  intros Hs Hint. unfold maxAllComplete. set (c := complete m) in *.
  assert (Forall (λ z, z ≤ int_max) c) as Hmax.
  { eapply Forall_impl; [done|]. intros; simpl in *; lia. }
  destruct (head c) as [first|] eqn:Hhead; cycle 1.
  { apply head_None in Hhead. rewrite Hhead. simpl.
    exists (-1). split; [done|]. split; [lia|]. split; [intros; lia|].
    by intros ?%elem_of_nil. }
  destruct (last c) as [final|] eqn:Hlast; cycle 1.
  { apply last_None in Hlast. rewrite Hlast in Hhead. done. }
  rewrite head_lookup in Hhead. rewrite last_lookup in Hlast.
  destruct (Z.eqb_spec first 0) as [->|Hne]; simpl.
  - pose proof (lookup_lt_Some _ _ _ Hhead) as Hlen.
    destruct (Z.eqb_spec final (Z.of_nat (length c) - 1)) as [->|Hfin].
    + exists (Z.of_nat (length c) - 1). split; [done|]. split; [lia|].
      replace (Z.of_nat (length c) - 1) with (Z.of_nat (pred (length c))) in * by lia.
      split; [intros j Hj; by eapply gapless_elem_of|].
      replace (Z.of_nat (pred (length c)) + 1) with (Z.of_nat (length c)) by lia.
      intros [i Hi]%list_elem_of_lookup.
      pose proof (lookup_lt_Some _ _ _ Hi).
      destruct (decide (i = pred (length c))) as [->|]; [simplify_eq; lia|].
      pose proof (StronglySorted_lookup _ c i (pred (length c)) _ _ Hs
                    ltac:(lia) Hi Hlast). lia.
    + assert (2 ≤ length c)%nat as Hlen2.
      { destruct (decide (length c = 1)%nat) as [E|]; [|lia].
        rewrite E in Hlast. simpl in Hlast. rewrite Hhead in Hlast.
        simplify_eq. lia. }
      destruct (maxAllComplete_loop_spec c Hs Hhead Hmax (length c - 1))
        as (i & Hi & -> & Hci & Hgap); [lia|].
      exists (Z.of_nat i). split; [done|]. split; [lia|].
      split; [intros j Hj; by eapply gapless_elem_of|].
      assert (is_Some (c !! S i)) as [z Hz] by (apply lookup_lt_is_Some; lia).
      replace (Z.of_nat i + 1) with (Z.of_nat (S i)) by lia.
      apply (gap_not_elem_of c Hs Hhead i z Hci Hz).
      destruct (decide (S i = pred (length c))) as [E|].
      * rewrite E in Hz. simplify_eq.
        pose proof (index_le_value c Hs Hhead _ _ Hlast). lia.
      * apply (Hgap (S i) z); [lia|done].
  - exists (-1). split; [done|]. split; [lia|]. split; [intros; lia|].
    simpl. intros [i Hi]%list_elem_of_lookup.
    rewrite Forall_lookup in Hint. pose proof (Hint _ _ Hhead).
    destruct (decide (i = 0)%nat) as [->|]; [simplify_eq|].
    pose proof (StronglySorted_lookup _ c 0%nat i _ _ Hs ltac:(lia) Hhead Hi).
    lia.
Qed.

(** [maxAllComplete] never panics: [hasNoGap] is only applied to non-empty
    prefixes. *)
Lemma maxAllComplete_loop_total (c : list Z) (n : nat) :
  (n ≤ length c)%nat → is_Ok (maxAllComplete_loop c n).
Proof.
  induction n as [|n IH]; intros Hn; [by eexists|].
  cbn [maxAllComplete_loop]. unfold hasNoGap.
  assert (is_Some (c !! n)) as [z Hz] by (apply lookup_lt_is_Some; lia).
  assert (is_Some (c !! 0%nat)) as [z0 Hz0] by (apply lookup_lt_is_Some; lia).
  rewrite head_lookup, lookup_take_lt, Hz0 by lia.
  rewrite last_lookup, length_take_le by lia.
  replace (pred (n + 1)) with n by lia.
  rewrite lookup_take_lt, Hz by lia. cbn.
  destruct (_ =? _); [by eexists|]. apply IH. lia.
Qed.

Lemma maxAllComplete_total (m : execStatusManager) : is_Ok (maxAllComplete m).
Proof.
  unfold maxAllComplete. destruct (head _); [|by eexists].
  destruct (last _); [|by eexists].
  destruct (negb _); [by eexists|]. destruct (_ =? _); [by eexists|].
  apply maxAllComplete_loop_total. lia.
Qed.

Lemma int_wrap_in_range (a : Z) : is_int a → int_wrap a = a.
Proof.
  unfold is_int, int_min, int_max, int_wrap.
  change (2 ^ 63) with 9223372036854775808.
  change (2 ^ 64) with 18446744073709551616.
  intros Ha. Z.to_euclidean_division_equations. lia.
Qed.

Lemma int_wrap_succ_max : int_wrap (int_max + 1) = int_min.
Proof. reflexivity. Qed.

Lemma maxAllComplete_loop_bound (c : list Z) (n : nat) (k : Z) :
  Forall is_int c → Z.of_nat (length c) ≤ int_max →
  c !! 0%nat = Some 0 → (n ≤ length c)%nat →
  maxAllComplete_loop c n = Ok k → -1 ≤ k < Z.of_nat n.
Proof.
  intros Hint Hlen Hfirst. induction n as [|n IH]; intros Hn.
  { intros [= <-]. lia. }
  cbn [maxAllComplete_loop]. unfold hasNoGap.
  assert (is_Some (c !! n)) as [z Hz] by (apply lookup_lt_is_Some; lia).
  rewrite head_lookup, lookup_take_lt, Hfirst by lia.
  rewrite last_lookup, length_take_le by lia.
  replace (pred (n + 1)) with n by lia.
  rewrite lookup_take_lt, Hz by lia. cbn.
  destruct (Z.eqb_spec (int_wrap (0 + Z.of_nat (n + 1))) (int_wrap (z + 1)))
    as [Heq|Hne].
  - intros [= <-].
    rewrite int_wrap_in_range in Heq by (unfold is_int, int_min, int_max in *; lia).
    rewrite Forall_lookup in Hint. pose proof (Hint _ _ Hz) as Hzi.
    destruct (decide (z = int_max)) as [->|Hzm].
    + rewrite int_wrap_succ_max in Heq. unfold int_min in Heq. lia.
    + rewrite int_wrap_in_range in Heq
        by (unfold is_int, int_min, int_max in *; lia).
      lia.
  - intros Hk. specialize (IH ltac:(lia) Hk). lia.
Qed.

(** The value of [maxAllComplete] is below [len(m.complete)], so the
    increment [x++] of the scan in [getRevalidationRange] does not
    overflow. *)
Lemma maxAllComplete_bound (m : execStatusManager) (k : Z) :
  Forall is_int (complete m) → Z.of_nat (length (complete m)) ≤ int_max →
  maxAllComplete m = Ok k → -1 ≤ k < Z.of_nat (length (complete m)).
Proof.
  intros Hint Hlen. unfold maxAllComplete.
  destruct (head (complete m)) as [first|] eqn:Hhead; [|intros [= <-]; lia].
  destruct (last (complete m)) as [final|] eqn:Hlast; [|intros [= <-]; lia].
  rewrite head_lookup in Hhead. pose proof (lookup_lt_Some _ _ _ Hhead).
  destruct (Z.eqb_spec first 0) as [->|]; cbn [negb]; [|intros [= <-]; lia].
  destruct (Z.eqb_spec final (Z.of_nat (length (complete m)) - 1)) as [->|].
  { intros [= <-]. lia. }
  intros Hk.
  pose proof (maxAllComplete_loop_bound (complete m) (length (complete m) - 1) k
                Hint Hlen Hhead ltac:(lia) Hk).
  lia.
Qed.

End MaxCompleteFacts.

(** ** [getRevalidationRange] *)

Module RevalidationFacts.

Import SortFacts Status ListFacts MaxCompleteFacts.
Local Open Scope Z_scope.

(** Invariant of the scanning loop: [ret] stays strictly increasing and
    below the cursor [x], and gains exactly the scanned indices that are not
    reported in progress. *)
Lemma getRevalidationRange_loop_spec (m : execStatusManager) (n : nat) (x : Z)
    (ret : list Z) :
  StronglySorted Z.lt ret → Forall (λ y, y < x) ret →
  StronglySorted Z.lt (getRevalidationRange_loop m n x ret)
  ∧ ∀ y, y ∈ getRevalidationRange_loop m n x ret ↔
         y ∈ ret ∨ (x ≤ y < x + Z.of_nat n ∧ checkInProgress m y = false).
Proof.
  revert x ret. induction n as [|n IH]; intros x ret Hs Hlt.
  - cbn. split; [done|]. intros y. split; [tauto|]. intros [?|[? _]]; [done|lia].
  - cbn [getRevalidationRange_loop].
    destruct (checkInProgress m x) eqn:Hx; cbn [negb].
    + destruct (IH (x + 1) ret) as [Hs' Hin]; [done| |].
      { eapply Forall_impl; [done|]. intros; simpl in *; lia. }
      split; [done|]. intros y. rewrite Hin. split.
      * intros [?|[? ?]]; [by left|right]. split; [lia|done].
      * intros [?|[? Hy]]; [by left|right].
        assert (y ≠ x) by congruence. split; [lia|done].
    + destruct (IH (x + 1) (ret ++ [x])) as [Hs' Hin].
      { apply StronglySorted_app_2; [|done|repeat constructor].
        rewrite Forall_forall in Hlt.
        intros x1 x2 Hx1 ->%list_elem_of_singleton. by apply Hlt. }
      { apply Forall_app. split.
        - eapply Forall_impl; [done|]. intros; simpl in *; lia.
        - repeat constructor. lia. }
      split; [done|]. intros y. rewrite Hin, elem_of_app, list_elem_of_singleton.
      split.
      * intros [[?| ->]|[? ?]].
        -- by left.
        -- right. split; [lia|done].
        -- right. split; [lia|done].
      * intros [?|[? Hy]]; [by left; left|].
        destruct (decide (y = x)) as [->|]; [by left; right|].
        right. split; [lia|done].
Qed.

End RevalidationFacts.

(** ** Dependency edges *)

Module DependencyFacts.

Import SortFacts Status ListFacts.
Local Open Scope Z_scope.

Lemma inner_insert_eq (mp : gmap Z (gmap Z bool)) (k : Z) (v : gmap Z bool) :
  inner (<[k := v]> mp) k = v.
Proof. unfold inner. by rewrite lookup_insert_eq. Qed.

Lemma inner_insert_ne (mp : gmap Z (gmap Z bool)) (k j : Z) (v : gmap Z bool) :
  k ≠ j → inner (<[k := v]> mp) j = inner mp j.
Proof. intros. unfold inner. by rewrite lookup_insert_ne. Qed.

Lemma inner_delete_ne (mp : gmap Z (gmap Z bool)) (k j : Z) :
  k ≠ j → inner (delete k mp) j = inner mp j.
Proof. intros. unfold inner. by rewrite lookup_delete_ne. Qed.

(** [delete(m.blocker[k], tx)] acts on the inner map of [k] only. *)
Lemma inner_alter_delete (mp : gmap Z (gmap Z bool)) (tx k j : Z) :
  inner (alter (delete tx) k mp) j =
    if decide (k = j) then delete tx (inner mp j) else inner mp j.
Proof.
  unfold inner. case_decide as Hkj.
  - subst j. rewrite lookup_alter_eq.
    destruct (mp !! k); simpl; [done|]. by rewrite delete_empty.
  - by rewrite lookup_alter_ne.
Qed.

Lemma size_pos_of_lookup (b : gmap Z bool) (k : Z) (v : bool) :
  b !! k = Some v → (0 < size b)%nat.
Proof.
  intros Hk. destruct (decide (size b = 0%nat)) as [E|]; [|lia].
  apply map_size_empty_inv in E. subst b. by rewrite lookup_empty in Hk.
Qed.

Lemma isBlocked_of_lookup (m : execStatusManager) (tx k : Z) (v : bool) :
  inner (blocker m) tx !! k = Some v → isBlocked m tx = true.
Proof.
  intros Hk. unfold isBlocked. apply bool_decide_eq_true.
  by eapply size_pos_of_lookup.
Qed.

Lemma isBlocked_empty (m : execStatusManager) (tx : Z) :
  inner (blocker m) tx = ∅ → isBlocked m tx = false.
Proof.
  intros E. unfold isBlocked. rewrite E, map_size_empty.
  by apply bool_decide_eq_false_2; lia.
Qed.

(** The guard of [addDependencies]. *)
Lemma addDependencies_rejected (m : execStatusManager) (b d : Z) :
  b < 0 ∨ d ≤ b → addDependencies m b d = (false, m).
Proof.
  intros H. unfold addDependencies.
  destruct (Z.ltb_spec b 0), (Z.leb_spec d b); simpl; try done; lia.
Qed.

(** The blocker has completed: only [blocker[dependent]] is touched. *)
Lemma addDependencies_completed (m : execStatusManager) (b d : Z) :
  0 ≤ b < d → checkComplete m b = true →
  addDependencies m b d =
    (bool_decide (0 < size (delete b (inner (blocker m) d)))%nat,
     set_blocker m (alter (delete b) d (blocker m))).
Proof.
  intros H Hc. unfold addDependencies.
  destruct (Z.ltb_spec b 0), (Z.leb_spec d b); simpl; try lia.
  rewrite Hc, inner_alter_delete. by rewrite decide_True.
Qed.

(** The recording branch. *)
Lemma addDependencies_recorded (m : execStatusManager) (b d : Z) :
  0 ≤ b < d → checkComplete m b = false →
  ∃ m', addDependencies m b d = (true, m')
    ∧ pending m' = pending m ∧ inProgress m' = inProgress m
    ∧ complete m' = complete m
    ∧ inner (dependency m') b = <[d := true]> (inner (dependency m) b)
    ∧ (∀ j, j ≠ b → dependency m' !! j = dependency m !! j)
    ∧ blocker m' = <[d := <[b := true]> (inner (blocker m) d)]> (blocker m).
Proof.
  intros H Hc. unfold addDependencies.
  destruct (Z.ltb_spec b 0), (Z.leb_spec d b); simpl; try lia.
  rewrite Hc. eexists. split; [done|]. simpl.
  do 3 (split; [done|]). split; [|split; [|done]].
  - rewrite inner_insert_eq. f_equal.
    unfold inner. destruct (dependency m !! b) eqn:E; [by rewrite E|].
    by rewrite lookup_insert_eq.
  - intros j Hj. rewrite lookup_insert_ne by done.
    destruct (dependency m !! b); [done|]. by rewrite lookup_insert_ne.
Qed.

(** *** [removeDependency] *)

Lemma inner_release (tx : Z) (ks : list Z) (b : gmap Z (gmap Z bool)) (j : Z) :
  inner (release tx b ks) j =
    if decide (j ∈ ks) then delete tx (inner b j) else inner b j.
Proof.
  unfold release. revert b. induction ks as [|k ks IH]; intros b; simpl.
  - destruct (decide (j ∈ [])) as [Hin|]; [|done]. by apply elem_of_nil in Hin.
  - rewrite IH, !inner_alter_delete.
    destruct (decide (j ∈ k :: ks)) as [Hin|Hnin];
      destruct (decide (j ∈ ks)) as [Hin'|Hnin'];
      destruct (decide (k = j)) as [->|Hne]; try done.
    + apply map_eq. intros i. rewrite !lookup_delete. by repeat case_decide.
    + apply elem_of_cons in Hin as [?|?]; congruence.
    + exfalso. apply Hnin. by left.
    + exfalso. apply Hnin. by right.
    + exfalso. apply Hnin. by left.
Qed.

Lemma removeDependency_step_frame (tx : Z) (m : execStatusManager) (k : Z) :
  let m' := removeDependency_step tx m k in
  inProgress m' = inProgress m ∧ complete m' = complete m
  ∧ dependency m' = dependency m
  ∧ blocker m' = alter (delete tx) k (blocker m)
  ∧ (pending m' = pending m ∨ pending m' = insertInList (pending m) k).
Proof.
  unfold removeDependency_step. simpl.
  destruct (_ =? _)%nat; [|by auto 10].
  destruct (_ && _); simpl; by auto 10.
Qed.

Lemma removeDependency_step_pending_mono (tx : Z) (m : execStatusManager) (k y : Z) :
  y ∈ pending m → y ∈ pending (removeDependency_step tx m k).
Proof.
  intros Hy. destruct (removeDependency_step_frame tx m k) as (_ & _ & _ & _ & [->| ->]).
  - done.
  - apply elem_of_insertInList. by right.
Qed.

Lemma removeDependency_fold_frame (tx : Z) (ks : list Z) (m : execStatusManager) :
  let m' := foldl (removeDependency_step tx) m ks in
  inProgress m' = inProgress m ∧ complete m' = complete m
  ∧ dependency m' = dependency m
  ∧ blocker m' = release tx (blocker m) ks
  ∧ (∀ y, y ∈ pending m → y ∈ pending m').
Proof.
  revert m. induction ks as [|k ks IH]; intros m; simpl; [by auto|].
  destruct (IH (removeDependency_step tx m k)) as (Hi & Hc & Hd & Hb & Hp).
  destruct (removeDependency_step_frame tx m k) as (Hi' & Hc' & Hd' & Hb' & _).
  rewrite Hi, Hc, Hd, Hb, Hi', Hc', Hd', Hb'. do 4 (split; [done|]).
  intros y Hy. by apply Hp, removeDependency_step_pending_mono.
Qed.

(** A released task whose blocker set became empty and that is in none of
    the three lists is pushed to pending. *)
Lemma removeDependency_step_released (tx : Z) (m : execStatusManager) (k : Z) :
  delete tx (inner (blocker m) k) = ∅ →
  k ∉ complete m → k ∉ inProgress m →
  k ∈ pending (removeDependency_step tx m k).
Proof.
  intros Hempty Hc Hi. unfold removeDependency_step. simpl.
  rewrite inner_alter_delete, decide_True, Hempty, map_size_empty by done.
  simpl. unfold checkComplete, checkPending, checkInProgress. simpl.
  rewrite (checkList_false _ _ Hc), (checkList_false _ _ Hi). simpl.
  destruct (checkList (pending m) k) eqn:Hp; simpl.
  - by apply checkList_elem_of.
  - apply elem_of_insertInList. by left.
Qed.

Lemma removeDependency_fold_released (tx k : Z) (ks : list Z) (m : execStatusManager) :
  k ∈ ks → delete tx (inner (blocker m) k) = ∅ →
  k ∉ complete m → k ∉ inProgress m →
  k ∈ pending (foldl (removeDependency_step tx) m ks).
Proof.
  revert m. induction ks as [|k' ks IH]; intros m Hin Hempty Hc Hi.
  { by apply elem_of_nil in Hin. }
  simpl. destruct (decide (k' = k)) as [->|Hne].
  - apply removeDependency_fold_frame.
    by apply removeDependency_step_released.
  - apply elem_of_cons in Hin as [?|Hin]; [congruence|].
    destruct (removeDependency_step_frame tx m k') as (Hi' & Hc' & _ & Hb' & _).
    apply IH; [done| |by rewrite Hc'|by rewrite Hi'].
    rewrite Hb', inner_alter_delete, decide_False by done. done.
Qed.

(** The keys visited by [removeDependency] include every recorded
    dependent. *)
Lemma range_order_elem_of (m : execStatusManager) (tx k : Z) (v : bool) (ks : list Z) :
  range_order m tx ks → inner (dependency m) tx !! k = Some v → k ∈ ks.
Proof.
  unfold range_order. intros -> Hk.
  apply list_elem_of_fmap. exists (k, v). split; [done|].
  by apply elem_of_map_to_list.
Qed.

Lemma removeDependency_in_frame (ks : list Z) (m : execStatusManager) (tx : Z) :
  let m' := removeDependency_in ks m tx in
  inProgress m' = inProgress m ∧ complete m' = complete m
  ∧ (∀ j, j ≠ tx → dependency m' !! j = dependency m !! j)
  ∧ (∀ y, y ∈ pending m → y ∈ pending m').
Proof.
  unfold removeDependency_in.
  destruct (dependency m !! tx) as [deps|]; [|by auto].
  destruct (0 <? size deps)%nat; [|by auto].
  destruct (removeDependency_fold_frame tx ks m) as (Hi & Hc & Hd & Hb & Hp).
  simpl. rewrite Hd. do 2 (split; [done|]).
  split; [|done]. intros j Hj. by rewrite lookup_delete_ne.
Qed.

(** When [tx] has recorded dependents, the blocker sets after
    [removeDependency] are the released ones. *)
Lemma removeDependency_in_blocker (ks : list Z) (m : execStatusManager) (tx k : Z)
    (v : bool) :
  inner (dependency m) tx !! k = Some v →
  blocker (removeDependency_in ks m tx) = release tx (blocker m) ks
  ∧ pending (removeDependency_in ks m tx)
    = pending (foldl (removeDependency_step tx) m ks).
Proof.
  unfold removeDependency_in, inner. intros Hk.
  destruct (dependency m !! tx) as [deps|]; simpl in *; [|by rewrite lookup_empty in Hk].
  pose proof (size_pos_of_lookup _ _ _ Hk) as Hsz.
  apply Nat.ltb_lt in Hsz. rewrite Hsz. simpl.
  by destruct (removeDependency_fold_frame tx ks m) as (_ & _ & _ & -> & _).
Qed.

End DependencyFacts.

(** ** The disjointness invariant *)

Module InvariantFacts.

Import SortFacts Status ListFacts DependencyFacts.
Local Open Scope Z_scope.

Lemma newStatusManager_well_formed (n : Z) (m : execStatusManager) :
  newStatusManager n = Ok m → well_formed m.
Proof.
  unfold newStatusManager. destruct (n <? 0); [done|]. intros [= <-].
  unfold well_formed, pairwise_disjoint. simpl.
  split; [|repeat split; try constructor; by intros ? ? ?%elem_of_nil].
  apply Sorted_StronglySorted; [apply _|].
  destruct (decide (n ≤ 0)) as [|Hpos]; [by rewrite seqZ_nil by lia|].
  replace n with (Z.of_nat (Z.to_nat n)) by lia. generalize (Z.to_nat n) as k.
  intros k. generalize 0. induction k as [|k IH]; intros z.
  - constructor.
  - rewrite seqZ_cons by lia. constructor.
    + replace (Z.pred (Z.of_nat (S k))) with (Z.of_nat k) by lia. apply IH.
    + replace (Z.pred (Z.of_nat (S k))) with (Z.of_nat k) by lia.
      destruct k as [|k]; [rewrite seqZ_nil by lia; constructor|].
      rewrite seqZ_cons by lia. constructor. lia.
Qed.

Lemma takeNextPending_well_formed (m : execStatusManager) :
  well_formed m → well_formed (takeNextPending m).2.
Proof.
  intros Hwf. pose proof Hwf as (Hp & Hi & Hc & Hpi & Hpc & Hic).
  unfold takeNextPending.
  destruct (pending m) as [|x rest] eqn:E; [done|]. simpl.
  apply StronglySorted_cons in Hp as [Hall Hrest].
  assert (x ∉ rest) as Hx.
  { intros Hin. rewrite Forall_forall in Hall. specialize (Hall _ Hin). lia. }
  split; [done|]. split; [by apply insertInList_sorted|]. split; [done|].
  unfold pairwise_disjoint. simpl. repeat split.
  - intros y Hy [->|Hy']%elem_of_insertInList; [done|].
    apply (Hpi y); [by right|done].
  - intros y Hy Hy'. apply (Hpc y); [by right|done].
  - intros y [->|Hy]%elem_of_insertInList Hy'.
    + apply (Hpc x); [by left|done].
    + by apply (Hic y).
Qed.

Lemma markComplete_well_formed (m m' : execStatusManager) (tx : Z) :
  well_formed m → markComplete m tx = Ok m' → well_formed m'.
Proof.
  intros (Hp & Hi & Hc & Hpi & Hpc & Hic). unfold markComplete.
  destruct (removeFromList (inProgress m) tx true) as [ip|] eqn:E; [|done].
  simpl. intros [= <-].
  destruct (removeFromList_Ok _ _ _ _ Hi E) as (Hs & Hin & Htx).
  specialize (Htx eq_refl).
  split; [done|]. split; [done|]. split; [by apply insertInList_sorted|].
  unfold pairwise_disjoint. simpl. repeat split.
  - intros y Hy [Hy' _]%Hin. by apply (Hpi y).
  - intros y Hy [->|Hy']%elem_of_insertInList.
    + by apply (Hpi tx).
    + by apply (Hpc y).
  - intros y [Hy Hne]%Hin [->|Hy']%elem_of_insertInList; [done|].
    by apply (Hic y).
Qed.

Lemma pushPending_well_formed (m : execStatusManager) (tx : Z) :
  well_formed m → tx ∉ inProgress m → tx ∉ complete m →
  well_formed (pushPending m tx).
Proof.
  intros (Hp & Hi & Hc & Hpi & Hpc & Hic) Hni Hnc.
  split; [by apply insertInList_sorted|]. do 2 (split; [done|]).
  unfold pairwise_disjoint. simpl. repeat split; [| |done].
  - intros y [->|Hy]%elem_of_insertInList Hy'; [done|]. by apply (Hpi y).
  - intros y [->|Hy]%elem_of_insertInList Hy'; [done|]. by apply (Hpc y).
Qed.

Lemma clearInProgress_well_formed (m m' : execStatusManager) (tx : Z) :
  well_formed m → clearInProgress m tx = Ok m' → well_formed m'.
Proof.
  intros (Hp & Hi & Hc & Hpi & Hpc & Hic). unfold clearInProgress.
  destruct (removeFromList (inProgress m) tx true) as [ip|] eqn:E; [|done].
  simpl. intros [= <-].
  destruct (removeFromList_Ok _ _ _ _ Hi E) as (Hs & Hin & _).
  do 3 (split; [done|]). unfold pairwise_disjoint. simpl. repeat split; [|done|].
  - intros y Hy [Hy' _]%Hin. by apply (Hpi y).
  - intros y [Hy _]%Hin Hy'. by apply (Hic y).
Qed.

Lemma clearComplete_well_formed (m m' : execStatusManager) (tx : Z) :
  well_formed m → clearComplete m tx = Ok m' →
  well_formed m' ∧ pending m' = pending m ∧ inProgress m' = inProgress m
  ∧ ∀ y, y ∈ complete m' ↔ y ∈ complete m ∧ y ≠ tx.
Proof.
  intros (Hp & Hi & Hc & Hpi & Hpc & Hic). unfold clearComplete.
  destruct (removeFromList (complete m) tx false) as [c|] eqn:E; [|done].
  simpl. intros [= <-].
  destruct (removeFromList_Ok _ _ _ _ Hc E) as (Hs & Hin & _).
  split; [|by auto].
  do 3 (split; [done|]). unfold pairwise_disjoint. simpl. repeat split; [done| |].
  - intros y Hy [Hy' _]%Hin. by apply (Hpc y).
  - intros y Hy [Hy' _]%Hin. by apply (Hic y).
Qed.

Lemma clearPending_well_formed (m m' : execStatusManager) (tx : Z) :
  well_formed m → clearPending m tx = Ok m' → well_formed m'.
Proof.
  intros (Hp & Hi & Hc & Hpi & Hpc & Hic). unfold clearPending.
  destruct (removeFromList (pending m) tx false) as [c|] eqn:E; [|done].
  simpl. intros [= <-].
  destruct (removeFromList_Ok _ _ _ _ Hp E) as (Hs & Hin & _).
  split; [done|]. do 2 (split; [done|]).
  unfold pairwise_disjoint. simpl. repeat split; [| |done].
  - intros y [Hy _]%Hin Hy'. by apply (Hpi y).
  - intros y [Hy _]%Hin Hy'. by apply (Hpc y).
Qed.

Lemma pushPendingSet_well_formed (set : list Z) (m m' : execStatusManager) :
  well_formed m → Forall (λ v, v ∉ inProgress m) set →
  pushPendingSet m set = Ok m' → well_formed m'.
Proof.
  revert m. induction set as [|v rest IH]; intros m Hwf Hg; simpl.
  { by intros [= <-]. }
  apply Forall_cons in Hg as [Hv Hrest].
  destruct (checkComplete m v) eqn:Hcc.
  - destruct (clearComplete m v) as [m1|] eqn:E; [|done]. simpl.
    destruct (clearComplete_well_formed _ _ _ Hwf E) as (Hwf1 & Hp1 & Hi1 & Hc1).
    apply IH.
    + apply pushPending_well_formed; [done|by rewrite Hi1|].
      rewrite Hc1. tauto.
    + simpl. by rewrite Hi1.
  - simpl. apply IH.
    + apply pushPending_well_formed; [done..|].
      intros Hin. destruct Hwf as (_ & _ & Hc & _).
      apply (checkList_spec _ _ (sorted_le_of_lt _ Hc)) in Hin.
      unfold checkComplete in Hcc. congruence.
    + done.
Qed.

(** [pushPendingSet] never panics: [clearComplete] is only called on an
    index the binary search has just found. *)
Lemma pushPendingSet_total (set : list Z) (m : execStatusManager) :
  is_Ok (pushPendingSet m set).
Proof.
  revert m. induction set as [|v rest IH]; intros m; simpl; [by eexists|].
  destruct (checkComplete m v) eqn:Hcc; simpl; [|apply IH].
  unfold clearComplete. rewrite removeFromList_cases.
  unfold checkComplete, checkList in Hcc.
  apply andb_prop in Hcc as [_ Hx%bool_decide_eq_true]. rewrite Hx.
  rewrite bool_decide_eq_true_2 by done. simpl. apply IH.
Qed.

Lemma addDependencies_lists (m : execStatusManager) (b d : Z) :
  let m' := (addDependencies m b d).2 in
  pending m' = pending m ∧ inProgress m' = inProgress m
  ∧ complete m' = complete m.
Proof.
  unfold addDependencies. destruct (_ || _); [done|].
  by destruct (checkComplete m b).
Qed.

Lemma well_formed_lists (m m' : execStatusManager) :
  pending m' = pending m → inProgress m' = inProgress m →
  complete m' = complete m → well_formed m → well_formed m'.
Proof.
  unfold well_formed, pairwise_disjoint. by intros -> -> ->.
Qed.

Lemma removeDependency_step_well_formed (tx k : Z) (m : execStatusManager) :
  well_formed m → well_formed (removeDependency_step tx m k).
Proof.
  intros Hwf. unfold removeDependency_step.
  set (m1 := set_blocker m _).
  assert (well_formed m1) as Hwf1 by (by apply (well_formed_lists m)).
  destruct (_ =? _)%nat; [|done].
  destruct (checkComplete m1 k) eqn:Hc; [done|].
  destruct (checkPending m1 k) eqn:Hp; [done|].
  destruct (checkInProgress m1 k) eqn:Hi; [done|]. simpl.
  destruct Hwf1 as (Hsp & Hsi & Hsc & Hd).
  apply pushPending_well_formed; [done| |].
  - intros Hin. apply (checkList_spec _ _ (sorted_le_of_lt _ Hsi)) in Hin.
    unfold checkInProgress in Hi. congruence.
  - intros Hin. apply (checkList_spec _ _ (sorted_le_of_lt _ Hsc)) in Hin.
    unfold checkComplete in Hc. congruence.
Qed.

Lemma removeDependency_in_well_formed (ks : list Z) (tx : Z) (m : execStatusManager) :
  well_formed m → well_formed (removeDependency_in ks m tx).
Proof.
  intros Hwf. unfold removeDependency_in.
  destruct (dependency m !! tx) as [deps|]; [|done].
  destruct (0 <? size deps)%nat; [|done].
  apply (well_formed_lists (foldl (removeDependency_step tx) m ks)); [done..|].
  clear deps. revert m Hwf. induction ks as [|k ks IH]; intros m Hwf; [done|].
  simpl. by apply IH, removeDependency_step_well_formed.
Qed.

Lemma run_well_formed (m m' : execStatusManager) (c : call) :
  well_formed m → push_guard m c → run m c = Ok m' → well_formed m'.
Proof.
  intros Hwf Hg. destruct c; simpl in *.
  - intros [= <-]. by apply takeNextPending_well_formed.
  - by apply markComplete_well_formed.
  - intros [= <-]. destruct Hg. by apply pushPending_well_formed.
  - by apply pushPendingSet_well_formed.
  - by apply clearInProgress_well_formed.
  - intros E. by destruct (clearComplete_well_formed _ _ _ Hwf E).
  - by apply clearPending_well_formed.
  - intros [= <-].
    destruct (addDependencies_lists m blocker_tx dependent) as (? & ? & ?).
    by apply (well_formed_lists m).
  - intros [= <-]. by apply removeDependency_in_well_formed.
Qed.

End InvariantFacts.

(** ** The binary heap of [container/heap] *)

Module HeapFacts.

Import Exec.

Section heap_facts.
Context {T : Type} `{!Task T}.
Implicit Types h : TxTaskQueue T.

(** *** Parent and child positions *)

Lemma parent_spec (c : nat) :
  (0 < c)%nat → (c = 2 * ((c - 1) / 2) + 1 ∨ c = 2 * ((c - 1) / 2) + 2)%nat.
Proof.
  intros Hc. pose proof (Nat.div_mod_eq (c - 1) 2) as Hd.
  pose proof (Nat.mod_upper_bound (c - 1) 2) as Hm. lia.
Qed.

Lemma parent_of_left (i : nat) : ((2 * i + 1 - 1) / 2 = i)%nat.
Proof.
  replace (2 * i + 1 - 1)%nat with (i * 2)%nat by lia. by apply Nat.div_mul.
Qed.

Lemma parent_of_right (i : nat) : ((2 * i + 1 + 1 - 1) / 2 = i)%nat.
Proof.
  pose proof (parent_spec (2 * i + 1 + 1)) as H. lia.
Qed.

Lemma parent_zero : ((0 - 1) / 2 = 0)%nat.
Proof. reflexivity. Qed.

(** *** [Swap] *)

Lemma insert_exchange (l : list T) (j : nat) (x b : T) :
  l !! j = Some b → b :: <[j := x]> l ≡ₚ x :: l.
Proof.
  revert j. induction l as [|y l IH]; intros [|j] Hj; simplify_eq/=.
  - apply Permutation_swap.
  - rewrite (Permutation_swap y b), (IH j Hj). apply Permutation_swap.
Qed.

Lemma insert_insert_Permutation (l : list T) (i j : nat) (a b : T) :
  l !! i = Some a → l !! j = Some b → <[i := b]> (<[j := a]> l) ≡ₚ l.
Proof.
  revert i j. induction l as [|y l IH]; intros [|i] [|j] Hi Hj; simplify_eq/=.
  - done.
  - by apply insert_exchange.
  - by apply insert_exchange.
  - f_equiv. by apply IH.
Qed.

Lemma Swap_Permutation h (i j : nat) : Swap h i j ≡ₚ h.
Proof.
  unfold Swap. destruct (h !! i) as [a|] eqn:Hi; [|done].
  destruct (h !! j) as [b|] eqn:Hj; [|done].
  by apply insert_insert_Permutation.
Qed.

Lemma Swap_length h (i j : nat) : length (Swap h i j) = length h.
Proof.
  unfold Swap. destruct (h !! i); [|done]. destruct (h !! j); [|done].
  by rewrite !length_insert.
Qed.

Lemma lookup_Swap h (i j k : nat) :
  (i < length h)%nat → (j < length h)%nat →
  Swap h i j !! k =
    if decide (k = i) then h !! j else if decide (k = j) then h !! i else h !! k.
Proof.
  intros Hi Hj. unfold Swap.
  destruct (lookup_lt_is_Some_2 h i Hi) as [a Ha].
  destruct (lookup_lt_is_Some_2 h j Hj) as [b Hb]. rewrite Ha, Hb.
  destruct (decide (k = i)) as [->|Hki].
  - by rewrite list_lookup_insert_eq by (by rewrite length_insert).
  - rewrite list_lookup_insert_ne by done.
    destruct (decide (k = j)) as [->|Hkj].
    + by rewrite list_lookup_insert_eq.
    + by rewrite list_lookup_insert_ne.
Qed.

Lemma key_at_Swap h (i j k : nat) :
  (i < length h)%nat → (j < length h)%nat →
  key_at (Swap h i j) k =
    if decide (k = i) then key_at h j
    else if decide (k = j) then key_at h i else key_at h k.
Proof.
  intros Hi Hj. unfold key_at. rewrite lookup_Swap by done.
  by repeat case_decide.
Qed.

Lemma Less_key_at h (i j : nat) :
  (i < length h)%nat → (j < length h)%nat →
  Less h i j = (key_at h i <? key_at h j)%N.
Proof.
  intros Hi Hj. unfold Less, key_at, key.
  destruct (lookup_lt_is_Some_2 h i Hi) as [a ->].
  by destruct (lookup_lt_is_Some_2 h j Hj) as [b ->].
Qed.

(** *** [up] *)

Lemma up_loop_length (fuel : nat) h (j : nat) :
  length (up_loop fuel h j) = length h.
Proof.
  revert h j. induction fuel as [|fuel IH]; intros h j; [done|].
  cbn [up_loop]. destruct (_ || _); [done|]. by rewrite IH, Swap_length.
Qed.

Lemma up_loop_Permutation (fuel : nat) h (j : nat) : up_loop fuel h j ≡ₚ h.
Proof.
  revert h j. induction fuel as [|fuel IH]; intros h j; [done|].
  cbn [up_loop]. destruct (_ || _); [done|]. by rewrite IH, Swap_Permutation.
Qed.

(** More fuel than [j] changes nothing: the loop has already stopped. *)
Lemma up_loop_fuel (fuel : nat) h (j : nat) :
  (j ≤ fuel)%nat → up_loop fuel h j = up_loop j h j.
Proof.
  revert h fuel. induction (lt_wf j) as [j _ IH]. intros h fuel Hf.
  destruct j as [|j'].
  - destruct fuel; [done|]. cbn [up_loop]. by rewrite parent_zero.
  - destruct fuel as [|fuel]; [lia|]. cbn [up_loop].
    destruct (_ || _); [done|].
    pose proof (parent_spec (S j') ltac:(lia)).
    rewrite (IH ((S j' - 1) / 2)%nat ltac:(lia) _ fuel ltac:(lia)).
    by rewrite (IH ((S j' - 1) / 2)%nat ltac:(lia) _ j' ltac:(lia)).
Qed.

(** The sift-up invariant: the heap condition holds everywhere except
    between [j] and its parent, and the children of [j] are not below the
    parent of [j]. *)
Lemma up_loop_heap (fuel : nat) h (j : nat) :
  (j ≤ fuel)%nat → (j < length h)%nat →
  (∀ c, (0 < c < length h)%nat → c ≠ j →
        (key_at h ((c - 1) / 2) ≤ key_at h c)%N) →
  (∀ c, (0 < c < length h)%nat → (0 < j)%nat → ((c - 1) / 2)%nat = j →
        (key_at h ((j - 1) / 2) ≤ key_at h c)%N) →
  is_heap (up_loop fuel h j).
Proof.
  revert h j. induction fuel as [|fuel IH]; intros h j Hf Hj H1 H2.
  - cbn. intros c Hc. apply H1; [done|lia].
  - cbn [up_loop]. set (i := ((j - 1) / 2)%nat) in *.
    destruct (Nat.eqb_spec i j) as [Hij|Hij]; cbn [orb].
    { intros c Hc. apply H1; [done|].
      intros ->. destruct (decide (j = 0)%nat); [lia|].
      pose proof (parent_spec j). lia. }
    assert (0 < j)%nat as Hj0.
    { destruct (decide (j = 0)%nat) as [->|]; [|lia]. by subst i. }
    pose proof (parent_spec j Hj0) as Hpj. fold i in Hpj.
    rewrite Less_key_at by lia.
    destruct (N.ltb_spec (key_at h j) (key_at h i)) as [Hlt|Hge]; cbn [negb].
    2:{ intros c Hc. destruct (decide (c = j)) as [->|]; [done|by apply H1]. }
    apply IH; [lia|rewrite Swap_length; lia| |].
    + rewrite Swap_length. intros c Hc Hci.
      pose proof (parent_spec c ltac:(lia)) as Hpc.
      rewrite !key_at_Swap by lia.
      destruct (decide (c = i)) as [|_]; [done|].
      destruct (decide (c = j)) as [->|Hcj].
      * fold i. rewrite decide_True by done. lia.
      * destruct (decide (((c - 1) / 2)%nat = i)) as [Hp|Hp].
        { specialize (H1 c Hc Hcj). rewrite Hp in H1. lia. }
        destruct (decide (((c - 1) / 2)%nat = j)) as [Hp'|Hp'].
        { specialize (H2 c Hc Hj0 Hp'). fold i in H2. lia. }
        by apply H1.
    + rewrite Swap_length. intros c Hc Hi0 Hpc.
      rewrite !key_at_Swap by lia.
      pose proof (parent_spec i Hi0) as Hpi.
      pose proof (parent_spec c ltac:(lia)) as Hpc'. rewrite Hpc in Hpc'.
      rewrite (decide_False (P := ((i - 1) / 2)%nat = i)) by lia.
      rewrite (decide_False (P := ((i - 1) / 2)%nat = j)) by lia.
      rewrite (decide_False (P := c = i)) by lia.
      assert (key_at h ((i - 1) / 2) ≤ key_at h i)%N as Hpar.
      { apply H1; [lia|lia]. }
      destruct (decide (c = j)) as [->|Hcj]; [done|].
      specialize (H1 c Hc Hcj). rewrite Hpc in H1. lia.
Qed.

(** *** [down] *)

Lemma down_loop_length (fuel : nat) h (i n : nat) :
  length (down_loop fuel h i n) = length h.
Proof.
  revert h i. induction fuel as [|fuel IH]; intros h i; [done|].
  cbn [down_loop]. destruct (_ <=? _)%nat; [done|].
  destruct (negb _); [done|]. by rewrite IH, Swap_length.
Qed.

Lemma down_loop_Permutation (fuel : nat) h (i n : nat) :
  down_loop fuel h i n ≡ₚ h.
Proof.
  revert h i. induction fuel as [|fuel IH]; intros h i; [done|].
  cbn [down_loop]. destruct (_ <=? _)%nat; [done|].
  destruct (negb _); [done|]. by rewrite IH, Swap_Permutation.
Qed.

(** More fuel than [n - i] changes nothing. *)
Lemma down_loop_fuel (fuel fuel' : nat) h (i n : nat) :
  (n - i ≤ fuel)%nat → (n - i ≤ fuel')%nat →
  down_loop fuel h i n = down_loop fuel' h i n.
Proof.
  revert fuel' h i. induction fuel as [|fuel IH]; intros fuel' h i Hf Hf'.
  - destruct fuel' as [|fuel']; [done|]. cbn [down_loop].
    destruct (Nat.leb_spec n (2 * i + 1)); [done|lia].
  - destruct fuel' as [|fuel']; cbn [down_loop].
    + destruct (Nat.leb_spec n (2 * i + 1)); [done|lia].
    + destruct (Nat.leb_spec n (2 * i + 1)); [done|].
      destruct (negb _); [done|].
      destruct (_ && _); apply IH; lia.
Qed.

(** The slots from [n] on are not touched. *)
Lemma down_loop_above (fuel : nat) h (i n k : nat) :
  (n ≤ length h)%nat → (n ≤ k)%nat → down_loop fuel h i n !! k = h !! k.
Proof.
  revert h i. induction fuel as [|fuel IH]; intros h i Hn Hk; [done|].
  cbn [down_loop]. destruct (Nat.leb_spec n (2 * i + 1)); [done|].
  destruct (negb _); [done|].
  set (j := if _ && _ then _ else _).
  assert (j < n)%nat as Hj.
  { subst j. destruct (Nat.ltb_spec (2 * i + 1 + 1) n); simpl; [|lia].
    destruct (Less _ _ _); lia. }
  rewrite IH by (rewrite ?Swap_length; lia).
  rewrite lookup_Swap by lia. by rewrite !decide_False by lia.
Qed.

(** The sift-down invariant: the heap condition holds on the first [n]
    slots except between [i] and its children, and the children of [i]
    are not below the parent of [i]. *)
Lemma down_loop_heap (fuel : nat) h (i n : nat) :
  (n - i ≤ fuel)%nat → (n ≤ length h)%nat →
  (∀ c, (0 < c < n)%nat → ((c - 1) / 2)%nat ≠ i →
        (key_at h ((c - 1) / 2) ≤ key_at h c)%N) →
  (∀ c, (0 < c < n)%nat → ((c - 1) / 2)%nat = i → (0 < i)%nat →
        (key_at h ((i - 1) / 2) ≤ key_at h c)%N) →
  heap_upto n (down_loop fuel h i n).
Proof.
  revert h i. induction fuel as [|fuel IH]; intros h i Hf Hn H1 H2.
  { cbn. intros c Hc. apply H1; [done|].
    pose proof (parent_spec c ltac:(lia)). lia. }
  cbn [down_loop]. destruct (Nat.leb_spec n (2 * i + 1)) as [Hle|Hgt].
  { intros c Hc. apply H1; [done|].
    pose proof (parent_spec c ltac:(lia)). lia. }
  set (j := if _ && _ then _ else _).
  assert ((j = 2 * i + 1 ∨ j = 2 * i + 1 + 1) ∧ (j < n)%nat
          ∧ ∀ c, (0 < c < n)%nat → ((c - 1) / 2)%nat = i →
                 (key_at h j ≤ key_at h c)%N) as (Hjc & Hjn & Hmin).
  { subst j. destruct (Nat.ltb_spec (2 * i + 1 + 1) n) as [H2n|H2n]; cbn [andb].
    - rewrite Less_key_at by lia.
      destruct (N.ltb_spec (key_at h (2 * i + 1 + 1)) (key_at h (2 * i + 1))).
      + split; [by right|]. split; [done|]. intros c Hc Hp.
        pose proof (parent_spec c ltac:(lia)) as Hpc. rewrite Hp in Hpc.
        destruct Hpc as [->| ->].
        * lia.
        * replace (2 * i + 2)%nat with (2 * i + 1 + 1)%nat by lia. lia.
      + split; [by left|]. split; [lia|]. intros c Hc Hp.
        pose proof (parent_spec c ltac:(lia)) as Hpc. rewrite Hp in Hpc.
        destruct Hpc as [->| ->].
        * lia.
        * replace (2 * i + 2)%nat with (2 * i + 1 + 1)%nat by lia. lia.
    - split; [by left|]. split; [lia|]. intros c Hc Hp.
      pose proof (parent_spec c ltac:(lia)) as Hpc. rewrite Hp in Hpc.
      destruct Hpc as [->| ->]; lia. }
  assert (((j - 1) / 2)%nat = i) as Hpj.
  { destruct Hjc as [->| ->]; [apply parent_of_left|apply parent_of_right]. }
  assert (i < j)%nat as Hij by lia.
  rewrite Less_key_at by lia.
  destruct (N.ltb_spec (key_at h j) (key_at h i)) as [Hlt|Hge]; cbn [negb].
  2:{ intros c Hc.
      destruct (decide (((c - 1) / 2)%nat = i)) as [Hp|Hp]; [|by apply H1].
      rewrite Hp. specialize (Hmin c Hc Hp). lia. }
  apply IH; [lia|by rewrite Swap_length| |].
  - intros c Hc Hpc. pose proof (parent_spec c ltac:(lia)) as Hc'.
    rewrite !key_at_Swap by lia.
    destruct (decide (c = i)) as [->|Hci].
    + assert (0 < i)%nat as Hi0 by lia.
      pose proof (parent_spec i Hi0).
      rewrite decide_False by lia. rewrite decide_False by lia.
      apply (H2 j); [lia|done|done].
    + destruct (decide (c = j)) as [->|Hcj].
      * rewrite Hpj, decide_True by done. lia.
      * destruct (decide (((c - 1) / 2)%nat = i)) as [Hp|Hp].
        { by apply Hmin. }
        rewrite decide_False by done. by apply H1.
  - intros c Hc Hpc Hj0. pose proof (parent_spec c ltac:(lia)) as Hc'.
    rewrite Hpc in Hc'. rewrite !key_at_Swap by lia.
    rewrite Hpj, decide_True by done.
    rewrite decide_False by lia. rewrite decide_False by lia.
    assert (((c - 1) / 2)%nat ≠ i) as Hne by lia.
    specialize (H1 c Hc Hne). by rewrite Hpc in H1.
Qed.

(** *** [heap.Push] and [heap.Pop] *)

Lemma key_at_app_l h (x : T) (c : nat) :
  (c < length h)%nat → key_at (h ++ [x]) c = key_at h c.
Proof. intros Hc. unfold key_at. by rewrite lookup_app_l. Qed.

Lemma heap_Push_Permutation h (x : T) : heap_Push h x ≡ₚ x :: h.
Proof.
  unfold heap_Push, up, Push. rewrite up_loop_Permutation.
  by rewrite Permutation_app_comm.
Qed.

Lemma heap_Push_length h (x : T) : length (heap_Push h x) = S (length h).
Proof. by rewrite heap_Push_Permutation. Qed.

Lemma heap_Push_is_heap h (x : T) : is_heap h → is_heap (heap_Push h x).
Proof.
  intros Hh. unfold heap_Push, up, Push, Len.
  rewrite length_app. cbn [length].
  replace (length h + 1 - 1)%nat with (length h) by lia.
  apply up_loop_heap; rewrite ?length_app; cbn [length]; [lia|lia| |].
  - intros c Hc Hne. pose proof (parent_spec c ltac:(lia)).
    rewrite !key_at_app_l by lia. apply Hh. lia.
  - intros c Hc _ Hp. pose proof (parent_spec c ltac:(lia)). lia.
Qed.

(** The root of a heap is a minimum. *)
Lemma is_heap_root_min h (k : nat) :
  is_heap h → (k < length h)%nat → (key_at h 0 ≤ key_at h k)%N.
Proof.
  intros Hh. induction (lt_wf k) as [k _ IH]. intros Hk.
  destruct (decide (k = 0)%nat) as [->|Hk0]; [done|].
  pose proof (parent_spec k ltac:(lia)).
  specialize (IH ((k - 1) / 2)%nat ltac:(lia) ltac:(lia)).
  specialize (Hh k ltac:(lia)). lia.
Qed.

Lemma heap_upto_take (n : nat) h :
  (n ≤ length h)%nat → heap_upto n h → is_heap (take n h).
Proof.
  intros Hn Hh. unfold is_heap. rewrite length_take_le by done.
  intros c Hc. pose proof (parent_spec c ltac:(lia)).
  unfold key_at. rewrite !lookup_take_lt by lia. by apply Hh.
Qed.

(** [heap.Pop] on a non-empty queue returns an element and keeps the
    rest. *)
Lemma heap_Pop_Permutation h :
  h ≠ [] → ∃ x h', heap_Pop h = Ok (x, h') ∧ h ≡ₚ x :: h'
    ∧ h' = take (length h - 1) (down (Swap h 0 (length h - 1)) 0 (length h - 1))
    ∧ Swap h 0 (length h - 1) !! (length h - 1)%nat = Some x.
Proof.
  intros Hne. destruct h as [|y t] eqn:Eh; [done|]. rewrite <-Eh.
  assert (heap_Pop h = Pop (down (Swap h 0 (length h - 1)) 0 (length h - 1)))
    as -> by (by rewrite Eh).
  assert (0 < length h)%nat as Hlen by (rewrite Eh; simpl; lia).
  clear Eh y t Hne. set (n := (length h - 1)%nat).
  set (h2 := down (Swap h 0 n) 0 n).
  assert (length h2 = length h) as Hlen2.
  { unfold h2, down. by rewrite down_loop_length, Swap_length. }
  assert (h2 !! n = Swap h 0 n !! n) as Hlast.
  { unfold h2, down. apply down_loop_above; [rewrite Swap_length; lia|done]. }
  assert (is_Some (Swap h 0 n !! n)) as [x Hx].
  { apply lookup_lt_is_Some. rewrite Swap_length. lia. }
  exists x, (take n h2). unfold Pop.
  rewrite last_lookup, Hlen2. replace (pred (length h)) with n by lia.
  rewrite Hlast, Hx. split; [done|]. split; [|done].
  assert (h2 ≡ₚ h) as <-.
  { unfold h2, down. by rewrite down_loop_Permutation, Swap_Permutation. }
  rewrite <-(take_drop n h2) at 1.
  rewrite Hx in Hlast.
  rewrite (drop_S h2 x n Hlast), drop_ge by lia.
  by rewrite Permutation_app_comm.
Qed.

(** On a heap, [heap.Pop] returns a minimum and leaves a heap. *)
Lemma heap_Pop_is_heap h :
  is_heap h → h ≠ [] →
  ∃ x h', heap_Pop h = Ok (x, h') ∧ h ≡ₚ x :: h' ∧ is_heap h'
    ∧ ∀ y, y ∈ h → (key x ≤ key y)%N.
Proof.
  intros Hh Hne.
  destruct (heap_Pop_Permutation h Hne) as (x & h' & Hpop & Hperm & Hh' & Hx).
  exists x, h'. split; [done|]. split; [done|].
  assert (0 < length h)%nat as Hlen by (destruct h; [done|simpl; lia]).
  set (n := (length h - 1)%nat) in *.
  rewrite lookup_Swap in Hx by lia.
  assert (h !! 0%nat = Some x) as Hroot.
  { case_decide as E; [by rewrite E in Hx|]. by rewrite decide_True in Hx. }
  split.
  - subst h'. apply heap_upto_take.
    { unfold down. rewrite down_loop_length, Swap_length. lia. }
    unfold down. apply down_loop_heap; [lia|rewrite Swap_length; lia| |].
    + intros c Hc Hp. pose proof (parent_spec c ltac:(lia)).
      rewrite !key_at_Swap by lia.
      rewrite !decide_False by lia. apply Hh. lia.
    + intros; lia.
  - intros y [k Hk]%list_elem_of_lookup.
    pose proof (is_heap_root_min h k Hh (lookup_lt_Some _ _ _ Hk)) as Hmin.
    unfold key_at in Hmin. by rewrite Hroot, Hk in Hmin.
Qed.

Lemma is_heap_nil : is_heap ([] : list T).
Proof. intros c Hc. simpl in Hc. lia. Qed.

(** *** Popping everything *)

Lemma pop_many_Permutation (n : nat) h :
  (n ≤ length h)%nat →
  ∃ out h', pop_many n h = Ok (out, h') ∧ h ≡ₚ out ++ h' ∧ length out = n.
Proof.
  revert h. induction n as [|n IH]; intros h Hn.
  { exists [], h. done. }
  destruct (heap_Pop_Permutation h) as (x & h1 & Hpop & Hperm & _).
  { intros ->. simpl in Hn. lia. }
  destruct (IH h1) as (out & h' & Hout & Hperm' & Hlen).
  { apply Permutation_length in Hperm. simpl in Hperm. lia. }
  exists (x :: out), h'. cbn [pop_many]. rewrite Hpop. cbn.
  rewrite Hout. cbn. split; [done|]. split; [|simpl; lia].
  by rewrite Hperm, Hperm'.
Qed.

Lemma pop_many_sorted (n : nat) h :
  is_heap h → (n ≤ length h)%nat →
  ∃ out h', pop_many n h = Ok (out, h') ∧ h ≡ₚ out ++ h' ∧ length out = n
    ∧ is_heap h'
    ∧ StronglySorted (λ a b, (key a ≤ key b)%N) out
    ∧ ∀ a b, a ∈ out → b ∈ h' → (key a ≤ key b)%N.
Proof.
  revert h. induction n as [|n IH]; intros h Hh Hn.
  { exists [], h. repeat split; try done; [constructor|].
    by intros a b ?%elem_of_nil. }
  destruct (heap_Pop_is_heap h Hh) as (x & h1 & Hpop & Hperm & Hh1 & Hmin).
  { intros ->. simpl in Hn. lia. }
  destruct (IH h1 Hh1) as (out & h' & Hout & Hperm' & Hlen & Hh' & Hs & Hcross).
  { apply Permutation_length in Hperm. simpl in Hperm. lia. }
  exists (x :: out), h'. cbn [pop_many]. rewrite Hpop. cbn.
  rewrite Hout. cbn. split; [done|].
  split; [by rewrite Hperm, Hperm'|]. split; [simpl; lia|]. split; [done|].
  assert (∀ y, y ∈ out ++ h' → (key x ≤ key y)%N) as Hx.
  { intros y Hy. apply Hmin. rewrite Hperm, Hperm'. by right. }
  split.
  - constructor; [done|]. apply Forall_forall. intros y Hy.
    apply Hx, elem_of_app. by left.
  - intros a b [->|Ha]%elem_of_cons Hb.
    + apply Hx, elem_of_app. by right.
    + by apply Hcross.
Qed.

(** With pairwise distinct [TxNum]s the order is strict. *)
Lemma sorted_key_strict (l : list T) :
  StronglySorted (λ a b, (key a ≤ key b)%N) l → NoDup (key <$> l) →
  StronglySorted (λ a b, (key a < key b)%N) l.
Proof.
  induction 1 as [|a l Hs IH Hall]; intros Hnd; [constructor|].
  rewrite fmap_cons in Hnd. apply NoDup_cons in Hnd as [Hnotin Hnd].
  constructor; [by apply IH|].
  rewrite Forall_forall in Hall |- *. intros y Hy.
  specialize (Hall y Hy).
  assert (key a ≠ key y).
  { intros E. apply Hnotin. rewrite E. apply list_elem_of_fmap. eauto. }
  lia.
Qed.
End heap_facts.

End HeapFacts.

(** ** The two queues *)

Module QueueFacts.

Import Exec HeapFacts.

Section queue_facts.
Context {T : Type} `{!Task T}.
Implicit Types q : QueueWithRetry T.

(** With a non-empty retry heap [Next] is [heap.Pop] on it; the channel is
    not looked at. *)
Lemma Next_retry pick ctx q (t : T) (r : list T) :
  heap_Pop (retires q) = Ok (t, r) →
  Next pick ctx q = Returned (Some t, true) (set_retires q r).
Proof.
  intros Hpop. unfold Next, popNoWait.
  destruct (retires q) as [|x h] eqn:E; [done|].
  cbn [Len length Nat.ltb Nat.leb]. rewrite Hpop. done.
Qed.

Lemma popWait_loop_is_heap pick k ctx q (b : list (option T)) (r : list T) :
  is_heap r →
  match popWait_loop pick k ctx q b r with
  | Returned _ q' | Blocked q' => is_heap (retires q')
  | Panicked _ => True
  end.
Proof.
  revert k r. induction b as [|x b IH]; intros k r Hr; cbn [popWait_loop].
  - destruct (chan_closed _).
    + destruct (done ctx && pick k); [done|].
      destruct r as [|y r']; [done|]. cbn [Len length Nat.ltb Nat.leb].
      destruct (heap_Pop_is_heap (y :: r') Hr) as (t & h' & -> & _ & Hh' & _);
        done.
    + by destruct (done ctx).
  - destruct (done ctx && pick k); [done|].
    set (r1 := match x with Some t => heap_Push r t | None => r end).
    assert (is_heap r1) as Hr1.
    { subst r1. destruct x; [by apply heap_Push_is_heap|done]. }
    destruct r1 as [|y r1'] eqn:E; [by apply IH|].
    cbn [Len length Nat.ltb Nat.leb].
    destruct (heap_Pop_is_heap (y :: r1') Hr1) as (t & h' & -> & _ & Hh' & _);
      done.
Qed.

Lemma queue_step_is_heap q q' :
  queue_step q q' → is_heap (retires q) → is_heap (retires q').
Proof.
  intros Hstep Hh. destruct Hstep as
    [pick ctx q t q' HAdd|q t q' HRe|pick ctx q a q' HNext
    |pick ctx q q' HNext|q q' HClose].
  - unfold Add in HAdd.
    destruct (send (newTasks q) (Some t));
      destruct (done ctx), (send_ready (newTasks q)); try destruct pick;
      by simplify_eq.
  - unfold ReTry in HRe. cbn in HRe.
    pose proof (heap_Push_is_heap _ t Hh).
    destruct (closed q); [by simplify_eq|].
    destruct (send_ready _); [|by simplify_eq].
    destruct (send _ _); cbn in HRe; by simplify_eq.
  - unfold Next, popNoWait in HNext.
    destruct (retires q) as [|y r'] eqn:E; cbn [Len length Nat.ltb Nat.leb] in HNext.
    + destruct (popNoWait_recv _) as [[t|] b]; cbn in HNext;
        [simplify_eq; cbn; by rewrite E|].
      pose proof (popWait_loop_is_heap pick 0 ctx
        (set_newTasks q (set_buf (newTasks q) b)) b [] is_heap_nil) as Hw.
      unfold popWait in HNext. cbn in HNext. rewrite E in HNext.
      by rewrite HNext in Hw.
    + destruct (heap_Pop_is_heap (y :: r') Hh) as (t & h' & Hpop & _ & Hh' & _);
        [done|].
      rewrite Hpop in HNext. cbn in HNext. by simplify_eq.
  - unfold Next, popNoWait in HNext.
    destruct (retires q) as [|y r'] eqn:E; cbn [Len length Nat.ltb Nat.leb] in HNext.
    + destruct (popNoWait_recv _) as [[t|] b]; cbn in HNext;
        [simplify_eq; cbn; by rewrite E|].
      pose proof (popWait_loop_is_heap pick 0 ctx
        (set_newTasks q (set_buf (newTasks q) b)) b [] is_heap_nil) as Hw.
      unfold popWait in HNext. cbn in HNext. rewrite E in HNext.
      by rewrite HNext in Hw.
    + destruct (heap_Pop_is_heap (y :: r') Hh) as (t & h' & Hpop & _ & Hh' & _);
        [done|].
      rewrite Hpop in HNext. cbn in HNext. by simplify_eq.
  - unfold Close in HClose. destruct (closed q); [by simplify_eq|].
    destruct (close _); cbn in HClose; by simplify_eq.
Qed.

(** The retry heap of a reachable queue is a heap. *)
Lemma queue_reachable_is_heap q : queue_reachable q → is_heap (retires q).
Proof.
  induction 1 as [c q Hnew|q q' _ IH Hstep].
  - unfold NewQueueWithRetry in Hnew. destruct (make_chan c); [|done].
    cbn in Hnew. simplify_eq. apply is_heap_nil.
  - by eapply queue_step_is_heap.
Qed.

Lemma Close_closed q q' : Close q = Ok q' → closed q' = true.
Proof.
  unfold Close. destruct (closed q) eqn:E; [by intros [= <-]|].
  destruct (close _); [|done]. cbn. by intros [= <-].
Qed.

(** Draining the retry heap with [Next]. *)
Lemma Next_many_retries pick ctx (k : nat) q :
  (k ≤ RetriesLen q)%nat →
  ∃ ts q', Next_many pick ctx k q = (ts, q')
    ∧ length ts = k ∧ retires q ≡ₚ ts ++ retires q'
    ∧ newTasks q' = newTasks q ∧ closed q' = closed q.
Proof.
  revert q. induction k as [|k IH]; intros q Hk.
  { exists [], q. done. }
  unfold RetriesLen, Len in Hk.
  destruct (heap_Pop_Permutation (retires q)) as (t & r & Hpop & Hperm & _).
  { intros E. rewrite E in Hk. simpl in Hk. lia. }
  destruct (IH (set_retires q r)) as (ts & q' & Hts & Hlen & Hperm' & Hn & Hc).
  { unfold RetriesLen, Len. cbn.
    apply Permutation_length in Hperm. simpl in Hperm. lia. }
  exists (t :: ts), q'. cbn [Next_many].
  rewrite (Next_retry pick ctx q t r Hpop), Hts.
  split; [done|]. split; [simpl; lia|]. split; [|done].
  cbn in Hperm'. by rewrite Hperm, Hperm'.
Qed.
End queue_facts.

(** *** [ResultsQueue] *)

Lemma drainNoBlock_loop_is_heap pick k ctx q (b : list (option Result))
    (r : list Result) :
  is_heap r → is_heap (results (drainNoBlock_loop pick k ctx q b r).2).
Proof.
  revert k r. induction b as [|x b IH]; intros k r Hr; cbn [drainNoBlock_loop].
  - destruct (chan_closed _); [destruct (done ctx && pick k)|destruct (done ctx)];
      done.
  - destruct (done ctx && pick k); [done|]. destruct x as [t|]; [|by apply IH].
    pose proof (heap_Push_is_heap r t Hr).
    destruct (_ <? _)%Z; [done|]. by apply IH.
Qed.

(** Draining loses nothing: what was in the heap or in the channel is in the
    heap or in the channel afterwards. *)
Lemma drainNoBlock_loop_Permutation pick k ctx q (b : list (option Result))
    (r : list Result) :
  let q' := (drainNoBlock_loop pick k ctx q b r).2 in
  results q' ++ omap id (buf (resultCh q')) ≡ₚ r ++ omap id b.
Proof.
  revert k r. induction b as [|x b IH]; intros k r; cbn [drainNoBlock_loop].
  - destruct (chan_closed _); [destruct (done ctx && pick k)|destruct (done ctx)];
      done.
  - destruct (done ctx && pick k); [done|]. destruct x as [t|]; cbn.
    + destruct (_ <? _)%Z; cbn.
      * rewrite heap_Push_Permutation. cbn. apply Permutation_middle.
      * cbn in IH. rewrite IH, heap_Push_Permutation. cbn.
        apply Permutation_middle.
    + apply IH.
Qed.

Lemma drainNoBlock_is_heap pick ctx q task :
  is_heap (results q) → is_heap (results (drainNoBlock pick ctx q task).2).
Proof.
  intros Hh. unfold drainNoBlock. apply drainNoBlock_loop_is_heap.
  destruct task; [by apply heap_Push_is_heap|done].
Qed.

Lemma Drain_no_tick_is_heap pick_done pick ctx q e q' :
  Drain_no_tick pick_done pick ctx q = Returned e q' →
  is_heap (results q) → is_heap (results q').
Proof.
  intros HD Hh.
  assert (Drain_receive pick ctx q = Returned e q' → is_heap (results q'))
    as Hrecv.
  { unfold Drain_receive. destruct (buf (resultCh q)) as [|x b]; [by intros [= _ <-]|].
    pose proof (drainNoBlock_is_heap pick ctx
      (set_resultCh q (set_buf (resultCh q) b)) x Hh) as Hd.
    destruct (drainNoBlock _ _ _ _) as [e1 q1]. by intros [= _ <-]. }
  unfold Drain_no_tick in HD.
  destruct (done ctx), (recv_ready (resultCh q)); try destruct pick_done;
    try (by simplify_eq); by apply Hrecv.
Qed.

Lemma Drain_is_heap ticks pick_done pick ctx q e q' :
  Drain ticks pick_done pick ctx q = Returned e q' →
  is_heap (results q) → is_heap (results q').
Proof.
  intros HD Hh. induction ticks as [|ticks IH]; cbn [Drain] in HD.
  - by eapply Drain_no_tick_is_heap.
  - destruct (ticker_stopped q); [by eapply Drain_no_tick_is_heap|].
    destruct (0 <? Len (results q))%nat; [by simplify_eq|]. by apply IH.
Qed.

Lemma results_step_is_heap q q' :
  results_step q q' → is_heap (results q) → is_heap (results q').
Proof.
  intros Hstep Hh. destruct Hstep as
    [pick ctx q task e q' HAdd|pick ctx q task e q' Hdrain
    |ticks pick_done pick ctx q e q' HDrain|q t
    |q r q' Hpop|q q' HClose]; [| |by eapply Drain_is_heap|..].
  - unfold ResultsQueue_Add in HAdd.
    destruct (send (resultCh q) task);
      destruct (done ctx), (send_ready (resultCh q)); try destruct pick;
      by simplify_eq.
  - unfold drainNoBlock in Hdrain.
    match type of Hdrain with drainNoBlock_loop _ _ _ _ _ ?r = _ =>
      pose proof (drainNoBlock_loop_is_heap pick 0 ctx q (buf (resultCh q)) r) as Hd
    end.
    rewrite Hdrain in Hd. apply Hd.
    destruct task; [by apply heap_Push_is_heap|done].
  - by apply heap_Push_is_heap.
  - unfold PopNext in Hpop.
    destruct (results q) as [|y r'] eqn:E; [done|].
    destruct (heap_Pop_is_heap (y :: r') Hh) as (t & h' & Hp & _ & Hh' & _);
      [done|].
    rewrite Hp in Hpop. cbn in Hpop. by simplify_eq.
  - unfold ResultsQueue_Close in HClose. destruct (results_closed q); [by simplify_eq|].
    destruct (close _); cbn in HClose; by simplify_eq.
Qed.

Lemma results_reachable_is_heap q : results_reachable q → is_heap (results q).
Proof.
  induction 1 as [c l q Hnew|q q' _ IH Hstep].
  - unfold NewResultsQueue in Hnew. destruct (make_chan c); [|done].
    cbn in Hnew. simplify_eq. apply is_heap_nil.
  - by eapply results_step_is_heap.
Qed.

(** [PopNext] repeated is [heap.Pop] repeated on the heap. *)
Lemma PopNext_many_pop_many (n : nat) (q : ResultsQueue) :
  PopNext_many n q =
    match pop_many n (results q) with
    | Ok (out, h) => Ok (out, set_results q h)
    | Panic p => Panic p
    end.
Proof.
  revert q. induction n as [|n IH]; intros q; cbn [PopNext_many pop_many].
  { by destruct q. }
  unfold PopNext. destruct (heap_Pop (results q)) as [[x h]|] eqn:E; cbn; [|done].
  rewrite IH. cbn. destruct (pop_many n h) as [[xs h2]|]; done.
Qed.

End QueueFacts.

(** * Properties of the status manager *)

Module StatusTheorems.

Import SortFacts Status ListFacts MaxCompleteFacts RevalidationFacts
  DependencyFacts InvariantFacts.
Local Open Scope Z_scope.

(** The three examples of the specification. *)
Example maxAllComplete_example_gap :
  maxAllComplete (mkStatus [] [] [0; 1; 2; 5; 6] ∅ ∅) = Ok 2.
Proof. reflexivity. Qed.

Example maxAllComplete_example_full :
  maxAllComplete (mkStatus [] [] [0; 1; 2; 3] ∅ ∅) = Ok 3.
Proof. reflexivity. Qed.

Example maxAllComplete_example_no_zero :
  maxAllComplete (mkStatus [] [] [1; 2] ∅ ∅) = Ok (-1).
Proof. reflexivity. Qed.

(** C3, as amended.  For every state whose [complete] list is sorted,
    duplicate-free and holds only non-negative indices (Go ints),
    [maxAllComplete] returns the largest [k] such that every index in
    [0..k] is completed, and [-1] when index 0 is not completed. *)
Theorem maxAllComplete_gapless_prefix (m : execStatusManager) :
  Sorted Z.le (complete m) → NoDup (complete m) →
  Forall (λ z, 0 ≤ z ≤ int_max) (complete m) →
  ∃ k, maxAllComplete m = Ok k
    ∧ (∀ j, 0 ≤ j ≤ k → j ∈ complete m)
    ∧ (∀ k', (∀ j, 0 ≤ j ≤ k' → j ∈ complete m) → k' ≤ k)
    ∧ (0 ∉ complete m → k = -1).
Proof.
  intros Hs Hnd Hint.
  assert (StronglySorted Z.lt (complete m)) as Hlt.
  { apply sorted_le_NoDup_lt; [|done]. by apply Sorted_StronglySorted; [apply _|]. }
  destruct (maxAllComplete_prefix m Hlt Hint) as (k & Hk & Hge & Hall & Hnext).
  exists k. split; [done|]. split; [done|]. split.
  - intros k' Hk'. destruct (decide (k' ≤ k)) as [|Hgt]; [done|].
    exfalso. apply Hnext, Hk'. lia.
  - intros H0. destruct (decide (k = -1)) as [|Hne]; [done|].
    exfalso. apply H0, Hall. lia.
Qed.

Lemma maxAllComplete_gapless_prefix_witness :
  let m := mkStatus [] [] [0; 1; 2; 5; 6] ∅ ∅ in
  Sorted Z.le (complete m) ∧ NoDup (complete m)
  ∧ Forall (λ z, 0 ≤ z ≤ int_max) (complete m)
  ∧ ∃ k, maxAllComplete m = Ok k
      ∧ (∀ j, 0 ≤ j ≤ k → j ∈ complete m)
      ∧ (∀ k', (∀ j, 0 ≤ j ≤ k' → j ∈ complete m) → k' ≤ k)
      ∧ (0 ∉ complete m → k = -1).
Proof.
  intros m.
  assert (Sorted Z.le (complete m)) as Hs.
  { simpl. repeat constructor; lia. }
  assert (NoDup (complete m)) as Hnd.
  { simpl. compute_done. }
  assert (Forall (λ z, 0 ≤ z ≤ int_max) (complete m)) as Hint.
  { simpl. unfold int_max. repeat constructor; lia. }
  split; [exact Hs|]. split; [exact Hnd|]. split; [exact Hint|].
  exact (maxAllComplete_gapless_prefix m Hs Hnd Hint).
Defined.

(** C3 as stated fails when the list holds a negative index: with
    [complete = [-1; 0; 1]] (sorted, duplicate-free) the indices [0..1] are
    all completed, yet the test [m.complete[0] != 0] makes the function
    return [-1]. *)
Lemma maxAllComplete_negative_index_counterexample :
  let m := mkStatus [] [] [-1; 0; 1] ∅ ∅ in
  Sorted Z.le (complete m) ∧ NoDup (complete m)
  ∧ 0 ∈ complete m
  ∧ (∀ j, 0 ≤ j ≤ 1 → j ∈ complete m)
  ∧ maxAllComplete m = Ok (-1).
Proof.
  intros m. simpl. split; [repeat constructor; lia|]. split.
  { compute_done. }
  split; [rewrite !elem_of_cons; lia|]. split; [|reflexivity].
  intros j Hj. rewrite !elem_of_cons. lia.
Qed.

(** C4, as amended.  [addDependencies(blocker, dependent)] leaves the state
    untouched when [blocker < 0] or [blocker >= dependent]; when the blocker
    is reported complete no edge is recorded: the dependency map is kept and
    the blocker is dropped from [blocker[dependent]]; otherwise the edge is
    recorded in both directions and the dependent is blocked. *)
Theorem addDependencies_spec (m : execStatusManager) (b d : Z) :
  (b < 0 ∨ d ≤ b → addDependencies m b d = (false, m))
  ∧ (0 ≤ b < d → checkComplete m b = true →
       let m' := (addDependencies m b d).2 in
       dependency m' = dependency m
       ∧ inner (blocker m') d !! b = None
       ∧ (∀ j, j ≠ d → blocker m' !! j = blocker m !! j))
  ∧ (0 ≤ b < d → checkComplete m b = false →
       let m' := (addDependencies m b d).2 in
       (addDependencies m b d).1 = true
       ∧ inner (dependency m') b !! d = Some true
       ∧ inner (blocker m') d !! b = Some true
       ∧ isBlocked m' d = true).
Proof.
  split; [apply addDependencies_rejected|]. split.
  - intros Hbd Hc. rewrite (addDependencies_completed m b d Hbd Hc). simpl.
    split; [done|]. split.
    + rewrite inner_alter_delete, decide_True by done. apply lookup_delete_eq.
    + intros j Hj. by rewrite lookup_alter_ne.
  - intros Hbd Hc.
    destruct (addDependencies_recorded m b d Hbd Hc)
      as (m' & -> & _ & _ & _ & Hdep & _ & Hblk).
    simpl. split; [done|].
    assert (inner (blocker m') d !! b = Some true) as Hb.
    { by rewrite Hblk, inner_insert_eq, lookup_insert_eq. }
    split; [by rewrite Hdep, lookup_insert_eq|]. split; [done|].
    by eapply isBlocked_of_lookup.
Qed.

Lemma addDependencies_spec_witness :
  let m := mkStatus [3; 5] [] [1] ∅ ∅ in
  (3 < 0 ∨ 3 ≤ 3)
  ∧ (0 ≤ 1 < 5 ∧ checkComplete m 1 = true)
  ∧ (0 ≤ 3 < 5 ∧ checkComplete m 3 = false)
  ∧ addDependencies m 3 3 = (false, m)
  ∧ inner (blocker (addDependencies m 1 5).2) 5 !! 1 = None
  ∧ isBlocked (addDependencies m 3 5).2 5 = true.
Proof.
  intros m.
  assert (3 < 0 ∨ 3 ≤ 3) as H0 by lia.
  assert (0 ≤ 1 < 5) as H1 by lia.
  assert (0 ≤ 3 < 5) as H3 by lia.
  assert (checkComplete m 1 = true) as Hc1 by reflexivity.
  assert (checkComplete m 3 = false) as Hc3 by reflexivity.
  split; [exact H0|]. split; [by split|]. split; [by split|]. split; [|split].
  - exact (proj1 (addDependencies_spec m 3 3) H0).
  - exact (proj1 (proj2 (proj1 (proj2 (addDependencies_spec m 1 5)) H1 Hc1))).
  - exact (proj2 (proj2 (proj2 (proj2 (proj2 (addDependencies_spec m 3 5)) H3 Hc3)))).
Defined.

(** C4 as stated fails for a negative blocker: [-1 >= 5] does not hold and
    [-1] has not completed, yet nothing is recorded, because the guard also
    rejects [blocker < 0]. *)
Lemma addDependencies_negative_blocker_counterexample :
  ∃ m, newStatusManager 6 = Ok m
    ∧ ¬ (5 ≤ -1) ∧ checkComplete m (-1) = false
    ∧ addDependencies m (-1) 5 = (false, m)
    ∧ inner (dependency (addDependencies m (-1) 5).2) (-1) !! 5 = None
    ∧ inner (blocker (addDependencies m (-1) 5).2) 5 !! (-1) = None
    ∧ isBlocked (addDependencies m (-1) 5).2 5 = false.
Proof.
  eexists. split; [reflexivity|]. split; [lia|]. by vm_compute.
Qed.

(** C5, as amended.  In any state in which tasks 2 and 3 are not completed,
    task 5 is in none of the three lists, and task 5 has no recorded blocker
    other than 2 and 3: after [addDependencies(2,5)] and
    [addDependencies(3,5)] task 5 is blocked; after [removeDependency(2)]
    it is still blocked; after [removeDependency(3)] its blocker set is
    empty and it is in the pending list.  This holds for every order in
    which the run-time ranges over the dependents. *)
Theorem two_blockers_release (m : execStatusManager) :
  2 ∉ complete m → 3 ∉ complete m →
  5 ∉ pending m → 5 ∉ inProgress m → 5 ∉ complete m →
  (∀ k v, inner (blocker m) 5 !! k = Some v → k = 2 ∨ k = 3) →
  let m2 := (addDependencies (addDependencies m 2 5).2 3 5).2 in
  isBlocked m2 5 = true
  ∧ ∀ ks2, range_order m2 2 ks2 →
      let m3 := removeDependency_in ks2 m2 2 in
      isBlocked m3 5 = true
      ∧ ∀ ks3, range_order m3 3 ks3 →
          let m4 := removeDependency_in ks3 m3 3 in
          inner (blocker m4) 5 = ∅ ∧ isBlocked m4 5 = false
          ∧ 5 ∈ pending m4.
Proof.
  intros H2 H3 Hp Hi Hc Hb.
  destruct (addDependencies_recorded m 2 5 ltac:(lia) (checkList_false _ _ H2))
    as (m1 & -> & Hp1 & Hi1 & Hc1 & Hdep1 & Hoth1 & Hblk1).
  cbn [snd].
  destruct (addDependencies_recorded m1 3 5 ltac:(lia))
    as (m2 & -> & Hp2 & Hi2 & Hc2 & Hdep2 & Hoth2 & Hblk2).
  { apply checkList_false. by rewrite Hc1. }
  cbn [snd]. cbv zeta.
  set (B := inner (blocker m) 5) in *.
  assert (inner (blocker m2) 5 = <[3 := true]> (<[2 := true]> B)) as HB2.
  { by rewrite Hblk2, inner_insert_eq, Hblk1, inner_insert_eq. }
  assert (inner (dependency m2) 2 !! 5 = Some true) as Hd22.
  { unfold inner. rewrite Hoth2 by lia. fold (inner (dependency m1) 2).
    by rewrite Hdep1, lookup_insert_eq. }
  assert (inner (dependency m2) 3 !! 5 = Some true) as Hd23.
  { by rewrite Hdep2, lookup_insert_eq. }
  split.
  { apply (isBlocked_of_lookup m2 5 3 true). by rewrite HB2, lookup_insert_eq. }
  intros ks2 Hks2.
  pose proof (range_order_elem_of m2 2 5 true ks2 Hks2 Hd22) as Hin2.
  destruct (removeDependency_in_blocker ks2 m2 2 5 true Hd22) as [Hblk3 _].
  destruct (removeDependency_in_frame ks2 m2 2) as (Hi3 & Hc3 & Hoth3 & _).
  set (m3 := removeDependency_in ks2 m2 2) in *.
  assert (inner (blocker m3) 5 = delete 2 (<[3 := true]> (<[2 := true]> B))) as HB3.
  { by rewrite Hblk3, inner_release, decide_True, HB2. }
  assert (inner (dependency m3) 3 !! 5 = Some true) as Hd33.
  { unfold inner. rewrite Hoth3 by lia. done. }
  split.
  { apply (isBlocked_of_lookup m3 5 3 true).
    by rewrite HB3, lookup_delete_ne, lookup_insert_eq. }
  intros ks3 Hks3.
  pose proof (range_order_elem_of m3 3 5 true ks3 Hks3 Hd33) as Hin3.
  destruct (removeDependency_in_blocker ks3 m3 3 5 true Hd33) as [Hblk4 Hpend4].
  assert (delete 3 (inner (blocker m3) 5) = ∅) as Hempty.
  { rewrite HB3. apply map_empty. intros k.
    rewrite lookup_delete. case_decide; [done|].
    rewrite lookup_delete. case_decide; [done|].
    rewrite !lookup_insert_ne by done.
    destruct (B !! k) as [v|] eqn:E; [|done].
    destruct (Hb k v E); congruence. }
  assert (inner (blocker (removeDependency_in ks3 m3 3)) 5 = ∅) as HB4.
  { by rewrite Hblk4, inner_release, decide_True. }
  split; [done|]. split; [by apply isBlocked_empty|].
  rewrite Hpend4. apply removeDependency_fold_released; [done..| |].
  - by rewrite Hc3, Hc2, Hc1.
  - by rewrite Hi3, Hi2, Hi1.
Qed.

Lemma two_blockers_release_witness :
  let m := mkStatus [0; 1; 2; 3; 4] [] [] ∅ ∅ in
  let m2 := (addDependencies (addDependencies m 2 5).2 3 5).2 in
  let m3 := removeDependency_in [5] m2 2 in
  let m4 := removeDependency_in [5] m3 3 in
  isBlocked m2 5 = true ∧ isBlocked m3 5 = true
  ∧ inner (blocker m4) 5 = ∅ ∧ isBlocked m4 5 = false ∧ 5 ∈ pending m4.
Proof.
  intros m m2 m3 m4.
  assert (2 ∉ complete m) as H2 by (by intros ?%elem_of_nil).
  assert (3 ∉ complete m) as H3 by (by intros ?%elem_of_nil).
  assert (5 ∉ pending m) as Hp by (simpl; rewrite !elem_of_cons, elem_of_nil; lia).
  assert (5 ∉ inProgress m) as Hi by (by intros ?%elem_of_nil).
  assert (5 ∉ complete m) as Hc by (by intros ?%elem_of_nil).
  assert (∀ k v, inner (blocker m) 5 !! k = Some v → k = 2 ∨ k = 3) as Hb.
  { intros k v. unfold inner. simpl. rewrite lookup_empty. simpl.
    rewrite lookup_empty. discriminate. }
  destruct (two_blockers_release m H2 H3 Hp Hi Hc Hb) as [Hblocked Hrest].
  assert (range_order (addDependencies (addDependencies m 2 5).2 3 5).2 2 [5])
    as Hks2 by (by vm_compute).
  destruct (Hrest [5] Hks2) as [Hblocked3 Hrest3].
  assert (range_order
            (removeDependency_in [5]
               (addDependencies (addDependencies m 2 5).2 3 5).2 2) 3 [5])
    as Hks3 by (by vm_compute).
  destruct (Hrest3 [5] Hks3) as (Hempty & Hunblocked & Hpending).
  split; [exact Hblocked|]. split; [exact Hblocked3|].
  split; [exact Hempty|]. split; [exact Hunblocked|exact Hpending].
Defined.

(** C5 as stated fails when task 5 already waits for another blocker: from
    [newStatusManager(6)], [clearPending(5)] and [addDependencies(1,5)] lead
    to a state that meets the stated conditions, and after the whole
    sequence task 5 is still blocked (by 1) and not pending. *)
Lemma two_blockers_release_counterexample :
  ∃ m0 m1 m,
    newStatusManager 6 = Ok m0 ∧ clearPending m0 5 = Ok m1
    ∧ m = (addDependencies m1 1 5).2
    ∧ (2 ∉ complete m) ∧ (3 ∉ complete m)
    ∧ (5 ∉ pending m) ∧ (5 ∉ inProgress m) ∧ (5 ∉ complete m)
    ∧ let m2 := (addDependencies (addDependencies m 2 5).2 3 5).2 in
      let m3 := removeDependency m2 2 in
      let m4 := removeDependency m3 3 in
      range_order m2 2 [5] ∧ m3 = removeDependency_in [5] m2 2
      ∧ range_order m3 3 [5] ∧ m4 = removeDependency_in [5] m3 3
      ∧ inner (blocker m4) 5 = {[1 := true]}
      ∧ isBlocked m4 5 = true ∧ (5 ∉ pending m4).
Proof.
  eexists _, _, _. split; [reflexivity|]. split; [reflexivity|].
  split; [reflexivity|].
  do 5 (split; [compute_done|]).
  cbv zeta. do 6 (split; [by vm_compute|]).
  compute_done.
Qed.

(** C6.  When the in-progress list is sorted, [getRevalidationRange(txFrom)]
    returns, in ascending order, exactly the indices [x] with
    [txFrom <= x <= maxAllComplete()] that are not in progress.  (Sortedness
    of the other two lists is not needed.) *)
Theorem getRevalidationRange_spec (m : execStatusManager) (txFrom : Z) :
  Sorted Z.le (inProgress m) →
  ∃ max ret,
    maxAllComplete m = Ok max
    ∧ getRevalidationRange m txFrom = Ok ret
    ∧ StronglySorted Z.lt ret
    ∧ ∀ x, x ∈ ret ↔ txFrom ≤ x ≤ max ∧ (x ∉ inProgress m).
Proof.
  intros Hs. apply Sorted_StronglySorted in Hs; [|apply _].
  destruct (maxAllComplete_total m) as [max Hmax].
  exists max. eexists. split; [done|].
  unfold getRevalidationRange. rewrite Hmax. cbn. split; [done|].
  destruct (getRevalidationRange_loop_spec m (Z.to_nat (max - txFrom + 1)) txFrom [])
    as [Hsorted Hin]; [constructor..|].
  split; [done|]. intros x. rewrite Hin. split.
  - intros [?%elem_of_nil|[Hx Hc]]; [done|]. split; [lia|].
    intros Hmem. apply (checkList_spec _ _ Hs) in Hmem.
    unfold checkInProgress in Hc. congruence.
  - intros [Hx Hn]. right. split; [lia|]. by apply checkList_false.
Qed.

Lemma getRevalidationRange_spec_witness :
  let m := mkStatus [] [1; 4] [0; 1; 2; 3; 6] ∅ ∅ in
  Sorted Z.le (inProgress m)
  ∧ ∃ max ret,
      maxAllComplete m = Ok max
      ∧ getRevalidationRange m 1 = Ok ret
      ∧ StronglySorted Z.lt ret
      ∧ ∀ x, x ∈ ret ↔ 1 ≤ x ≤ max ∧ (x ∉ inProgress m).
Proof.
  intros m.
  assert (Sorted Z.le (inProgress m)) as Hs by (simpl; repeat constructor; lia).
  split; [exact Hs|]. exact (getRevalidationRange_spec m 1 Hs).
Defined.

Example getRevalidationRange_example :
  getRevalidationRange (mkStatus [] [1; 4] [0; 1; 2; 3; 6] ∅ ∅) 1 = Ok [2; 3].
Proof. reflexivity. Qed.

(** C7, as amended.  In every state reachable from [newStatusManager] by
    calls of the manager's methods in which [pushPending(tx)] is applied
    only to a [tx] that is neither in progress nor complete, and
    [pushPendingSet] only to indices that are not in progress, the pending,
    in-progress and complete lists are pairwise disjoint (and strictly
    sorted). *)
Theorem reachable_pairwise_disjoint (m : execStatusManager) :
  reachable_under push_guard m → pairwise_disjoint m.
Proof.
  intros Hr. cut (well_formed m); [by intros (_ & _ & _ & ?)|].
  induction Hr as [n m Hnew|m c m' _ IH _ Hg Hrun].
  - by eapply newStatusManager_well_formed.
  - by eapply run_well_formed.
Qed.

Lemma reachable_pairwise_disjoint_witness :
  ∃ m, reachable_under push_guard m ∧ pending m = [1; 2]
    ∧ inProgress m = [] ∧ complete m = [0] ∧ pairwise_disjoint m.
Proof.
  assert (∃ m, reachable_under push_guard m ∧ pending m = [1; 2]
               ∧ inProgress m = [] ∧ complete m = [0]) as (m & Hr & Hp & Hi & Hc).
  { pose proof (reachable_new push_guard 3 _ eq_refl) as H0.
    pose proof (reachable_call push_guard _ TakeNextPending _ H0 I I eq_refl) as H1.
    pose proof (reachable_call push_guard _ (MarkComplete 0) _ H1 I I eq_refl) as H2.
    eexists. split; [exact H2|]. by vm_compute. }
  exists m. split; [exact Hr|]. split; [exact Hp|]. split; [exact Hi|].
  split; [exact Hc|]. exact (reachable_pairwise_disjoint m Hr).
Defined.

(** C7 as stated fails: [pushPending] does not look at the other two lists.
    From [newStatusManager(1)], [takeNextPending()] followed by
    [pushPending(0)] leaves index 0 both pending and in progress. *)
Lemma reachable_not_disjoint_counterexample :
  ∃ m, reachable m ∧ 0 ∈ pending m ∧ 0 ∈ inProgress m
    ∧ ¬ pairwise_disjoint m.
Proof.
  exists (mkStatus [0] [0] [] ∅ {[0 := ∅]}).
  assert (0 ∈ [0]) as H0 by (by left).
  split; [|split; [done|split; [done|]]].
  - pose proof (reachable_new (λ _ _, True) 1 _ eq_refl) as H1.
    pose proof (reachable_call _ _ TakeNextPending _ H1 I I eq_refl) as H2.
    exact (reachable_call _ _ (PushPending 0) _ H2 I I eq_refl).
  - intros (Hd & _). by apply (Hd 0).
Qed.

(** C10: where the code departs from the claim.  When [v] is larger than
    every element of [l] (in particular when [l] is empty) the binary search
    returns [len(l)] and the read [l[x]] in [removeFromList] panics, whatever
    [expect] is; so do [clearComplete] and [clearPending]. *)
Theorem removeFromList_past_end_panics (l : list Z) (v : Z) (expect : bool)
    (m : execStatusManager) :
  Forall (λ y, y < v) l →
  removeFromList l v expect = Panic IndexOutOfRange
  ∧ (complete m = l → clearComplete m v = Panic IndexOutOfRange)
  ∧ (pending m = l → clearPending m v = Panic IndexOutOfRange).
Proof.
  intros Hall.
  assert (removeFromList l v expect = Panic IndexOutOfRange) as Hrm.
  { rewrite removeFromList_cases.
    destruct (SearchInts_spec l v) as (Hle & _ & Hr).
    destruct Hr as [->|(y & Hy & Hvy)].
    - by rewrite (proj2 (lookup_ge_None l (length l))).
    - rewrite Forall_lookup in Hall. specialize (Hall _ _ Hy). simpl in Hall. lia. }
  split; [done|].
  assert (removeFromList l v false = Panic IndexOutOfRange) as Hrm'.
  { rewrite removeFromList_cases.
    destruct (SearchInts_spec l v) as (Hle & _ & Hr).
    destruct Hr as [->|(y & Hy & Hvy)].
    - by rewrite (proj2 (lookup_ge_None l (length l))).
    - rewrite Forall_lookup in Hall. specialize (Hall _ _ Hy). simpl in Hall. lia. }
  split; intros Hl.
  - unfold clearComplete. by rewrite Hl, Hrm'.
  - unfold clearPending. by rewrite Hl, Hrm'.
Qed.

Lemma removeFromList_past_end_panics_witness :
  Forall (λ y, y < 7) [1; 3; 5]
  ∧ removeFromList [1; 3; 5] 7 false = Panic IndexOutOfRange
  ∧ clearComplete (mkStatus [] [] [1; 3; 5] ∅ ∅) 7 = Panic IndexOutOfRange
  ∧ clearPending (mkStatus [1; 3; 5] [] [] ∅ ∅) 7 = Panic IndexOutOfRange.
Proof.
  assert (Forall (λ y, y < 7) [1; 3; 5]) as H by (repeat constructor; lia).
  split; [exact H|]. split; [|split].
  - exact (proj1 (removeFromList_past_end_panics [1; 3; 5] 7 false
                    (mkStatus [] [] [1; 3; 5] ∅ ∅) H)).
  - exact (proj1 (proj2 (removeFromList_past_end_panics [1; 3; 5] 7 false
                           (mkStatus [] [] [1; 3; 5] ∅ ∅) H)) eq_refl).
  - exact (proj2 (proj2 (removeFromList_past_end_panics [1; 3; 5] 7 false
                           (mkStatus [1; 3; 5] [] [] ∅ ∅) H)) eq_refl).
Defined.

Example removeFromList_empty_panics :
  removeFromList [] 0 false = Panic IndexOutOfRange.
Proof. reflexivity. Qed.

(** The part of C10 that does hold: an absent [v] that is not beyond the
    last element leaves a sorted list unchanged. *)
Lemma removeFromList_absent_inside (l : list Z) (v z : Z) :
  Sorted Z.le l → v ∉ l → last l = Some z → v ≤ z →
  removeFromList l v false = Ok l.
Proof.
  intros Hs Hn Hlast Hvz. rewrite removeFromList_cases.
  pose proof (SearchInts_lt_length l v z Hlast Hvz) as Hlt.
  destruct (lookup_lt_is_Some_2 l _ Hlt) as [y Hy]. rewrite Hy.
  case_bool_decide as E; [|done]. subst y.
  exfalso. apply Hn, list_elem_of_lookup. eauto.
Qed.

End StatusTheorems.

(** * Properties of the queues *)

Module QueueTheorems.

Import Exec HeapFacts QueueFacts.

(** C1.  In every state of a [ResultsQueue] reached from [NewResultsQueue]
    by [Add], draining, [Push], [PopNext] and [Close] calls, if the results
    held by the heap have pairwise distinct [TxNum]s, then calling [PopNext]
    until the heap is empty returns all of them in strictly ascending
    [TxNum] order; and any other reachable queue holding the same results,
    however they arrived, returns the same sequence. *)
Theorem PopNext_ascending (q : ResultsQueue) :
  results_reachable q → NoDup (key <$> results q) →
  ∃ out q',
    PopNext_many (ResultsQueue_Len q) q = Ok (out, q')
    ∧ ResultsQueue_Len q' = 0%nat
    ∧ out ≡ₚ results q
    ∧ StronglySorted
        (λ a b, (state.TxNum (Version a) < state.TxNum (Version b))%N) out
    ∧ ∀ q2, results_reachable q2 → results q2 ≡ₚ results q →
        ∃ q2', PopNext_many (ResultsQueue_Len q2) q2 = Ok (out, q2').
Proof.
  intros Hr Hnd.
  assert (∀ p, results_reachable p → results p ≡ₚ results q →
            ∃ o h, pop_many (length (results p)) (results p) = Ok (o, h)
              ∧ h = [] ∧ o ≡ₚ results q
              ∧ StronglySorted (λ a b, (key a < key b)%N) o) as Hall.
  { intros p Hp Hperm.
    destruct (pop_many_sorted (length (results p)) (results p))
      as (o & h & Hpop & Hpm & Hlen & _ & Hs & _);
      [by apply results_reachable_is_heap|done|].
    assert (h = []) as ->.
    { apply Permutation_length in Hpm. rewrite length_app in Hpm.
      destruct h; [done|simpl in Hpm; lia]. }
    rewrite app_nil_r in Hpm.
    exists o, []. split; [done|]. split; [done|].
    split; [by rewrite <-Hpm|].
    apply sorted_key_strict; [done|]. by rewrite <-Hpm, Hperm. }
  destruct (Hall q Hr) as (out & h & Hpop & -> & Hperm & Hs); [done|].
  exists out, (set_results q []). unfold ResultsQueue_Len, Len.
  rewrite PopNext_many_pop_many, Hpop.
  split; [done|]. split; [done|]. split; [done|]. split; [done|].
  intros q2 Hr2 Hperm2.
  destruct (Hall q2 Hr2 Hperm2) as (out2 & h2 & Hpop2 & -> & Hperm2' & Hs2).
  exists (set_results q2 []). rewrite PopNext_many_pop_many, Hpop2.
  do 2 f_equal.
  apply (StronglySorted_unique_strong (λ a b, (key a < key b)%N));
    [|done|done|by rewrite Hperm2'].
  intros; lia.
Qed.

Lemma PopNext_ascending_witness :
  ∃ q out q',
    results_reachable q
    ∧ (state.TxNum ∘ Version <$> results q) = [2; 7; 5]%N
    ∧ PopNext_many (ResultsQueue_Len q) q = Ok (out, q')
    ∧ ResultsQueue_Len q' = 0%nat
    ∧ (state.TxNum ∘ Version <$> out) = [2; 5; 7]%N.
Proof.
  set (res n := mkResult (mkTxTask n 0 0 0) None false).
  set (ctx := mkContext false).
  set (q := mkResults 4 false (mkChan [] 4 false) false [res 2%N; res 7%N; res 5%N]).
  assert (results_reachable q) as Hq.
  { eapply results_reachable_step; [eapply results_reachable_step;
      [eapply results_reachable_step; [eapply results_reachable_step|]|]|].
    - by eapply (results_reachable_new 4 4).
    - by eapply (rstep_Add false ctx _ (Some (res 7%N))).
    - by eapply (rstep_Add false ctx _ (Some (res 5%N))).
    - by eapply (rstep_Add false ctx _ (Some (res 2%N))).
    - by eapply (rstep_drain (λ _, false) ctx _ None None). }
  assert (NoDup (key <$> results q)) as Hnd by compute_done.
  destruct (PopNext_ascending q Hq Hnd) as (out & q' & Hpop & Hlen & Hperm & Hs & _).
  exists q, out, q'. split; [exact Hq|]. split; [reflexivity|].
  split; [exact Hpop|]. split; [exact Hlen|].
  assert (PopNext_many (ResultsQueue_Len q) q
          = Ok ([res 2%N; res 5%N; res 7%N], set_results q [])) as Hc
    by (by vm_compute).
  rewrite Hc in Hpop. by simplify_eq.
Defined.

(** C2.  In every reachable state of a [QueueWithRetry] with a non-empty
    retry heap, [Next] returns a retry task of minimal [TxNum] and leaves
    the fresh-task channel untouched.  In particular, starting from an empty
    queue, after [ReTry(t)] and [Add(u)] in either order, [Next] returns
    [t], whatever the [TxNum]s of [t] and [u] are. *)
Theorem Next_prefers_retries {T : Type} `{!Task T} (q : QueueWithRetry T) :
  (queue_reachable q → retires q ≠ [] →
   ∀ pick ctx, ∃ t q',
     Next pick ctx q = Returned (Some t, true) q'
     ∧ t ∈ retires q
     ∧ (∀ t', t' ∈ retires q →
          (state.TxNum (Version t) ≤ state.TxNum (Version t'))%N)
     ∧ retires q ≡ₚ t :: retires q'
     ∧ newTasks q' = newTasks q)
  ∧ (retires q = [] → buf (newTasks q) = [] →
     ∀ (t u : T) pick_a ctx_a pick ctx q1 q2,
       (ReTry q t = Ok q1 ∧ Add pick_a ctx_a q1 u = Returned () q2)
       ∨ (Add pick_a ctx_a q u = Returned () q1 ∧ ReTry q1 t = Ok q2) →
       ∃ q', Next pick ctx q2 = Returned (Some t, true) q'
         ∧ newTasks q' = newTasks q2 ∧ retires q' = []).
Proof.
  split.
  - intros Hr Hne pick ctx.
    destruct (heap_Pop_is_heap (retires q) (queue_reachable_is_heap q Hr) Hne)
      as (t & r & Hpop & Hperm & _ & Hmin).
    exists t, (set_retires q r). rewrite (Next_retry pick ctx q t r Hpop).
    split; [done|]. split; [rewrite Hperm; by left|]. split; [done|].
    split; done.
  - intros Hempty Hbuf t u pick_a ctx_a pick ctx q1 q2 Hcalls.
    assert (retires q2 = [t]) as Hq2.
    { destruct Hcalls as [[HRe HAdd]|[HAdd HRe]].
      - assert (retires q1 = [t]) as Hq1.
        { unfold ReTry in HRe. rewrite Hempty in HRe. cbn in HRe.
          destruct (closed q); [by simplify_eq|].
          destruct (send_ready _); [|by simplify_eq].
          destruct (send _ _); cbn in HRe; by simplify_eq. }
        unfold Add in HAdd.
        destruct (send (newTasks q1) (Some u));
          destruct (done ctx_a), (send_ready (newTasks q1)); try destruct pick_a;
          by simplify_eq.
      - assert (retires q1 = []) as Hq1.
        { unfold Add in HAdd.
          destruct (send (newTasks q) (Some u));
            destruct (done ctx_a), (send_ready (newTasks q)); try destruct pick_a;
            by simplify_eq. }
        unfold ReTry in HRe. rewrite Hq1 in HRe. cbn in HRe.
        destruct (closed q1); [by simplify_eq|].
        destruct (send_ready _); [|by simplify_eq].
        destruct (send _ _); cbn in HRe; by simplify_eq. }
    exists (set_retires q2 []).
    rewrite (Next_retry pick ctx q2 t []); [done|]. by rewrite Hq2.
Qed.

Lemma Next_prefers_retries_witness :
  ∃ q0 q1 q2 : QueueWithRetry TxTask,
    let t := mkTxTask 9 0 0 0 in
    let u := mkTxTask 2 1 0 0 in
    let ctx := mkContext false in
    NewQueueWithRetry 4 = Ok q0
    ∧ ReTry q0 t = Ok q1 ∧ Add false ctx q1 u = Returned () q2
    ∧ buf (newTasks q2) = [None; Some u]
    ∧ queue_reachable q2 ∧ retires q2 ≠ []
    ∧ (∃ t' q', Next (λ _, false) ctx q2 = Returned (Some t', true) q'
         ∧ t' ∈ retires q2 ∧ newTasks q' = newTasks q2)
    ∧ ∃ q', Next (λ _, false) ctx q2 = Returned (Some t, true) q'
        ∧ newTasks q' = newTasks q2 ∧ retires q' = [].
Proof.
  set (t := mkTxTask 9 0 0 0). set (u := mkTxTask 2 1 0 0).
  set (ctx := mkContext false).
  set (q0 := mkQueue false (mkChan [] 4 false) ([] : list TxTask) 4).
  set (q1 := mkQueue false (mkChan [None] 4 false) [t] 4).
  set (q2 := mkQueue false (mkChan [None; Some u] 4 false) [t] 4).
  assert (queue_reachable q2) as Hq2.
  { eapply queue_reachable_step; [eapply queue_reachable_step|].
    - by eapply (queue_reachable_new 4 q0).
    - by eapply (step_ReTry q0 t q1).
    - by eapply (step_Add false ctx q1 u q2). }
  assert (retires q2 ≠ []) as Hne by done.
  exists q0, q1, q2. cbv zeta.
  split; [reflexivity|]. split; [reflexivity|]. split; [reflexivity|].
  split; [reflexivity|]. split; [exact Hq2|]. split; [exact Hne|]. split.
  - destruct (proj1 (Next_prefers_retries q2) Hq2 Hne (λ _, false) ctx)
      as (t' & q' & HNext & Hin & _ & _ & Hch).
    exists t', q'. split; [exact HNext|]. split; [exact Hin|exact Hch].
  - exact (proj2 (Next_prefers_retries q0) eq_refl eq_refl t u false ctx
             (λ _, false) ctx q1 q2 (or_introl (conj eq_refl eq_refl))).
Defined.

(** C8.  A second [Close] of either queue returns at once and leaves the
    queue as it is; and after [QueueWithRetry.Close] the tasks in the retry
    heap are still returned by [Next], one per call, until the heap is
    empty. *)
Theorem Close_idempotent {T : Type} `{!Task T} (q q' : QueueWithRetry T)
    (r r' : ResultsQueue) :
  (Close q = Ok q' → Close q' = Ok q')
  ∧ (ResultsQueue_Close r = Ok r' → ResultsQueue_Close r' = Ok r')
  ∧ (Close q = Ok q' →
     ∀ pick ctx k, (k ≤ RetriesLen q')%nat →
       ∃ ts q'', Next_many pick ctx k q' = (ts, q'')
         ∧ length ts = k
         ∧ retires q' ≡ₚ ts ++ retires q''
         ∧ RetriesLen q'' = (RetriesLen q' - k)%nat
         ∧ newTasks q'' = newTasks q' ∧ closed q'' = true).
Proof.
  split; [|split].
  - intros Hc. unfold Close. by rewrite (Close_closed q q' Hc).
  - unfold ResultsQueue_Close.
    destruct (results_closed r) eqn:E.
    + intros [= <-]. by rewrite E.
    + destruct (close _); [|done]. cbn. by intros [= <-].
  - intros Hc pick ctx k Hk.
    destruct (Next_many_retries pick ctx k q' Hk)
      as (ts & q'' & Hts & Hlen & Hperm & Hn & Hcl).
    exists ts, q''. split; [done|]. split; [done|]. split; [done|].
    split; [|split; [done|]].
    + apply Permutation_length in Hperm. rewrite length_app in Hperm.
      unfold RetriesLen, Len. lia.
    + by rewrite Hcl, (Close_closed q q' Hc).
Qed.

Lemma Close_idempotent_witness :
  ∃ (q q' : QueueWithRetry TxTask) (r r' : ResultsQueue),
    let t9 := mkTxTask 9 0 0 0 in
    let t4 := mkTxTask 4 0 0 0 in
    (q = mkQueue false (mkChan [None; None] 4 false) [t4; t9] 4)
    ∧ NewResultsQueue 4 4 = Ok r
    ∧ Close q = Ok q' ∧ ResultsQueue_Close r = Ok r'
    ∧ Close q' = Ok q' ∧ ResultsQueue_Close r' = Ok r'
    ∧ (2 ≤ RetriesLen q')%nat
    ∧ ∃ ts q'', Next_many (λ _, false) (mkContext false) 2 q' = (ts, q'')
        ∧ length ts = 2%nat ∧ RetriesLen q'' = 0%nat ∧ closed q'' = true.
Proof.
  set (t9 := mkTxTask 9 0 0 0). set (t4 := mkTxTask 4 0 0 0).
  set (q := mkQueue false (mkChan [None; None] 4 false) [t4; t9] 4).
  set (q' := mkQueue true (mkChan [None; None] 4 true) [t4; t9] 4).
  set (r := mkResults 4 false (mkChan [] 4 false) false []).
  set (r' := mkResults 4 true (mkChan [] 4 true) true []).
  assert (Close q = Ok q') as Hq by reflexivity.
  assert (ResultsQueue_Close r = Ok r') as Hr by reflexivity.
  assert (2 ≤ RetriesLen q')%nat as Hlen by (cbn; lia).
  destruct (Close_idempotent q q' r r') as (H1 & H2 & H3).
  exists q, q', r, r'. cbv zeta.
  split; [reflexivity|]. split; [reflexivity|].
  split; [exact Hq|]. split; [exact Hr|].
  split; [exact (H1 Hq)|]. split; [exact (H2 Hr)|]. split; [exact Hlen|].
  destruct (H3 Hq (λ _, false) (mkContext false) 2%nat Hlen)
    as (ts & q'' & Hts & Hl & _ & Hrest & _ & Hcl).
  exists ts, q''. split; [exact Hts|]. split; [exact Hl|].
  split; [exact Hrest|exact Hcl].
Defined.

(** C9, as amended.  With an already cancelled context [Add] never blocks;
    it returns without enqueuing [t] when the fresh-task buffer is full, or
    when the [select] picks the [ctx.Done()] case; and [Next] with both
    sources empty returns [(nil, false)] and leaves the queue as it is. *)
Theorem cancelled_Add_and_Next {T : Type} `{!Task T} (q : QueueWithRetry T)
    (ctx : Context) :
  done ctx = true →
  (∀ pick_done t, Add pick_done ctx q t ≠ Blocked q)
  ∧ (∀ pick_done t,
       pick_done = true ∨ send_ready (newTasks q) = false →
       Add pick_done ctx q t = Returned () q)
  ∧ (retires q = [] → buf (newTasks q) = [] →
     ∀ pick, Next pick ctx q = Returned (None, false) q).
Proof.
  intros Hdone. split; [|split].
  - intros pick t. unfold Add. rewrite Hdone.
    destruct (send_ready _); [|done]. destruct pick; [done|].
    by destruct (send _ _).
  - intros pick t Hcase. unfold Add. rewrite Hdone.
    destruct (send_ready _); [|done].
    destruct Hcase as [->|?]; done.
  - intros Hr Hb pick. unfold Next, popNoWait, popWait.
    destruct q as [cl [b c cc] r cp]. cbn in *. subst b r. cbn.
    rewrite Hdone. unfold set_retires, set_newTasks, set_buf. cbn.
    destruct cc; cbn; [|done].
    by destruct (pick 0%nat).
Qed.

Lemma cancelled_Add_and_Next_witness :
  let ctx := mkContext true in
  let t := mkTxTask 3 0 0 0 in
  let full : QueueWithRetry TxTask :=
    mkQueue false (mkChan [Some t] 1 false) [] 1 in
  let empty : QueueWithRetry TxTask :=
    mkQueue false (mkChan [] 1 false) [] 1 in
  done ctx = true
  ∧ send_ready (newTasks full) = false
  ∧ Add false ctx full t ≠ Blocked full
  ∧ Add false ctx full t = Returned () full
  ∧ Next (λ _, false) ctx empty = Returned (None, false) empty.
Proof.
  intros ctx t full empty.
  assert (done ctx = true) as Hd by reflexivity.
  assert (send_ready (newTasks full) = false) as Hfull by reflexivity.
  split; [exact Hd|]. split; [exact Hfull|]. split; [|split].
  - exact (proj1 (cancelled_Add_and_Next full ctx Hd) false t).
  - exact (proj1 (proj2 (cancelled_Add_and_Next full ctx Hd)) false t
             (or_intror Hfull)).
  - exact (proj2 (proj2 (cancelled_Add_and_Next empty ctx Hd)) eq_refl eq_refl
             (λ _, false)).
Defined.

(** C9 as stated fails: with room in the buffer both cases of the [select]
    in [Add] can proceed, and when the run-time picks the send, [t] is
    enqueued although the context is already cancelled. *)
Lemma cancelled_Add_enqueues_counterexample :
  ∃ q q' : QueueWithRetry TxTask,
    let ctx := mkContext true in
    let t := mkTxTask 3 0 0 0 in
    NewQueueWithRetry 1 = Ok q
    ∧ done ctx = true
    ∧ Add false ctx q t = Returned () q'
    ∧ buf (newTasks q) = []
    ∧ buf (newTasks q') = [Some t].
Proof.
  eexists _, _. cbv zeta. split; [reflexivity|]. split; [reflexivity|].
  split; [reflexivity|]. split; reflexivity.
Qed.

End QueueTheorems.

(** ** More on call sequences of the status manager *)

Module StatusMoreFacts.

Import SortFacts Status StatusCalls ListFacts MaxCompleteFacts RevalidationFacts
  DependencyFacts InvariantFacts.
Local Open Scope Z_scope.

(** *** Sortedness, whatever the calls *)

Lemma removeFromList_sorted (l l' : list Z) (v : Z) (expect : bool) :
  StronglySorted Z.lt l → removeFromList l v expect = Ok l' →
  StronglySorted Z.lt l'.
Proof. intros Hs E. by destruct (removeFromList_Ok _ _ _ _ Hs E). Qed.

Lemma pushPendingSet_lists_sorted (set : list Z) (m m' : execStatusManager) :
  lists_sorted m → pushPendingSet m set = Ok m' → lists_sorted m'.
Proof.
  revert m. induction set as [|v rest IH]; intros m Hs; simpl.
  { by intros [= <-]. }
  destruct Hs as (Hp & Hi & Hc).
  destruct (checkComplete m v).
  - unfold clearComplete.
    destruct (removeFromList (complete m) v false) as [c|] eqn:E; [|done].
    cbn. apply IH. split; [by apply insertInList_sorted|].
    split; [done|]. by eapply removeFromList_sorted.
  - cbn. apply IH. split; [by apply insertInList_sorted|]. done.
Qed.

Lemma removeDependency_in_lists_sorted (ks : list Z) (tx : Z) (m : execStatusManager) :
  lists_sorted m → lists_sorted (removeDependency_in ks m tx).
Proof.
  intros Hs. unfold removeDependency_in.
  destruct (dependency m !! tx) as [deps|]; [|done].
  destruct (0 <? size deps)%nat; [|done].
  cut (lists_sorted (foldl (removeDependency_step tx) m ks)); [done|].
  clear deps. revert m Hs. induction ks as [|k ks IH]; intros m Hs; [done|].
  simpl. apply IH.
  destruct (removeDependency_step_frame tx m k) as (Hi & Hc & _ & _ & Hp).
  destruct Hs as (Hsp & Hsi & Hsc). unfold lists_sorted.
  rewrite Hi, Hc. split; [|done].
  destruct Hp as [-> | ->]; [done|by apply insertInList_sorted].
Qed.

Lemma run_lists_sorted (m m' : execStatusManager) (c : call) :
  lists_sorted m → run m c = Ok m' → lists_sorted m'.
Proof.
  intros Hs. pose proof Hs as (Hp & Hi & Hc). destruct c; simpl.
  - intros [= <-]. unfold takeNextPending.
    destruct (pending m) as [|x rest] eqn:E; [done|]. simpl.
    apply StronglySorted_cons in Hp as [_ Hrest].
    split; [done|]. split; [by apply insertInList_sorted|done].
  - unfold markComplete.
    destruct (removeFromList (inProgress m) tx true) as [ip|] eqn:E; [|done].
    cbn. intros [= <-]. split; [done|].
    split; [exact (removeFromList_sorted _ _ _ _ Hi E)|by apply insertInList_sorted].
  - intros [= <-]. split; [by apply insertInList_sorted|done].
  - by apply pushPendingSet_lists_sorted.
  - unfold clearInProgress.
    destruct (removeFromList (inProgress m) tx true) as [ip|] eqn:E; [|done].
    cbn. intros [= <-]. split; [done|].
    split; [exact (removeFromList_sorted _ _ _ _ Hi E)|done].
  - unfold clearComplete.
    destruct (removeFromList (complete m) tx false) as [ip|] eqn:E; [|done].
    cbn. intros [= <-]. split; [done|].
    split; [done|exact (removeFromList_sorted _ _ _ _ Hc E)].
  - unfold clearPending.
    destruct (removeFromList (pending m) tx false) as [ip|] eqn:E; [|done].
    cbn. intros [= <-]. split; [exact (removeFromList_sorted _ _ _ _ Hp E)|done].
  - intros [= <-].
    destruct (addDependencies_lists m blocker_tx dependent) as (E1 & E2 & E3).
    unfold lists_sorted. by rewrite E1, E2, E3.
  - intros [= <-]. by apply removeDependency_in_lists_sorted.
Qed.

Lemma newStatusManager_fields (n : Z) (m : execStatusManager) :
  newStatusManager n = Ok m →
  0 ≤ n ∧ pending m = seqZ 0 n ∧ inProgress m = [] ∧ complete m = []
  ∧ dependency m = ∅ ∧ ∀ tx, inner (blocker m) tx = ∅.
Proof.
  unfold newStatusManager. destruct (Z.ltb_spec n 0); [done|].
  intros [= <-]. simpl. do 5 (split; [done|]).
  intros tx. unfold inner.
  destruct (list_to_map _ !! tx) as [b|] eqn:E; [|done]. simpl.
  apply elem_of_list_to_map_2 in E.
  apply list_elem_of_fmap in E as (i & [= _ ->] & _). done.
Qed.

Lemma reachable_lists_sorted (m : execStatusManager) :
  reachable m → lists_sorted m.
Proof.
  induction 1 as [n m Hnew|m c m' _ IH _ _ Hrun].
  - destruct (newStatusManager_well_formed n m Hnew) as (? & ? & ? & _).
    by repeat split.
  - by eapply run_lists_sorted.
Qed.

(** *** What [pushPendingSet] does to the lists *)

Lemma pushPendingSet_effect (set : list Z) (m : execStatusManager) :
  lists_sorted m →
  ∃ m', pushPendingSet m set = Ok m'
    ∧ (∀ y, y ∈ pending m' ↔ y ∈ pending m ∨ y ∈ set)
    ∧ (∀ y, y ∈ complete m' ↔ y ∈ complete m ∧ y ∉ set)
    ∧ inProgress m' = inProgress m
    ∧ dependency m' = dependency m ∧ blocker m' = blocker m.
Proof.
  revert m. induction set as [|v rest IH]; intros m Hs.
  { exists m. split; [done|]. split; [|split; [|done]].
    - intros y. rewrite elem_of_nil. tauto.
    - intros y. rewrite elem_of_nil. tauto. }
  destruct Hs as (Hp & Hi & Hc). cbn [pushPendingSet].
  destruct (checkComplete m v) eqn:Hcc.
  - apply (checkList_spec _ _ (sorted_le_of_lt _ Hc)) in Hcc.
    destruct (removeFromList_present _ _ false Hc Hcc) as [c Hrm].
    destruct (removeFromList_Ok _ _ _ _ Hc Hrm) as (Hsc & Hmem & _).
    unfold clearComplete. rewrite Hrm. cbn.
    destruct (IH (pushPending (set_complete m c) v))
      as (m' & Hrun & Hpm & Hcm & Hi' & Hd' & Hb').
    { split; [by apply insertInList_sorted|done]. }
    exists m'. split; [done|]. simpl in *. split; [|split; [|done]].
    + intros y. rewrite Hpm, elem_of_insertInList, elem_of_cons. tauto.
    + intros y. rewrite Hcm, Hmem, not_elem_of_cons. tauto.
  - cbn.
    destruct (IH (pushPending m v)) as (m' & Hrun & Hpm & Hcm & Hi' & Hd' & Hb').
    { split; [by apply insertInList_sorted|done]. }
    exists m'. split; [done|]. simpl in *. split; [|split; [|done]].
    + intros y. rewrite Hpm, elem_of_insertInList, elem_of_cons. tauto.
    + intros y. rewrite Hcm, not_elem_of_cons.
      assert (v ∉ complete m) as Hv.
      { intros Hin. apply (checkList_spec _ _ (sorted_le_of_lt _ Hc)) in Hin.
        unfold checkComplete in Hcc. congruence. }
      split; [|tauto]. intros [Hy Hn]. split; [done|].
      split; [|done]. by intros ->.
Qed.

(** *** A conflict-free pass *)

Lemma removeFromList_singleton (i : Z) : removeFromList [i] i true = Ok [].
Proof.
  unfold removeFromList, SearchInts, Search. cbn.
  rewrite Z.leb_refl. cbn. by rewrite Z.eqb_refl.
Qed.

Lemma insertInList_snoc (l : list Z) (i : Z) :
  (∀ z, last l = Some z → z < i) → insertInList l i = l ++ [i].
Proof.
  intros Hl. unfold insertInList. destruct (last l) as [z|]; [|done].
  specialize (Hl z eq_refl). by destruct (Z.ltb_spec z i); [|lia].
Qed.

Lemma last_seqZ (a : Z) (n : nat) :
  last (seqZ a (Z.of_nat n)) = if n is O then None else Some (a + Z.of_nat n - 1).
Proof.
  destruct n as [|n]; [done|].
  rewrite seqZ_S, last_snoc. f_equal. lia.
Qed.

Lemma process_all_run (n : nat) (first : Z) (m : execStatusManager) :
  0 ≤ first → pending m = seqZ first (Z.of_nat n) → inProgress m = [] →
  complete m = seqZ 0 first →
  ∃ m', run_all m (process_all first n) = Ok m'
    ∧ pending m' = [] ∧ inProgress m' = []
    ∧ complete m' = seqZ 0 (first + Z.of_nat n)
    ∧ dependency m' = dependency m ∧ blocker m' = blocker m.
Proof.
  revert first m. induction n as [|n IH]; intros first m Hf Hp Hi Hc.
  { exists m. cbn. rewrite Z.add_0_r. by rewrite Hp. }
  unfold process_all. rewrite seqZ_cons by lia. cbn [flat_map app run_all run].
  replace (Z.pred (Z.of_nat (S n))) with (Z.of_nat n) in * by lia.
  rewrite seqZ_cons in Hp by lia.
  replace (Z.pred (Z.of_nat (S n))) with (Z.of_nat n) in * by lia.
  unfold takeNextPending. rewrite Hp, Hi. cbn.
  unfold markComplete. cbn [inProgress].
  rewrite removeFromList_singleton. cbn.
  rewrite Hc.
  assert (insertInList (seqZ 0 first) first = seqZ 0 (Z.succ first)) as ->.
  { rewrite insertInList_snoc.
    - replace (Z.succ first) with (first + 1) by lia.
      rewrite seqZ_app by lia. f_equal.
    - intros z Hz. apply last_Some in Hz as [l' Hl'].
      assert (z ∈ seqZ 0 first) as Hin by (rewrite Hl'; set_solver).
      apply elem_of_seqZ in Hin. lia. }
  edestruct (IH (Z.succ first)) as (m' & Hrun & Hp' & Hi' & Hc' & Hd' & Hb');
    [lia| | | |].
  4:{ exists m'. fold (process_all (Z.succ first) n). rewrite Hrun.
      split; [done|]. split; [done|]. split; [done|].
      split; [|done]. rewrite Hc'. f_equal. lia. }
  all: done.
Qed.

(** *** Blockers and dependents stay paired *)

Lemma pushPendingSet_maps (set : list Z) (m m' : execStatusManager) :
  pushPendingSet m set = Ok m' →
  dependency m' = dependency m ∧ blocker m' = blocker m.
Proof.
  revert m. induction set as [|v rest IH]; intros m; simpl.
  { by intros [= <-]. }
  destruct (checkComplete m v).
  - unfold clearComplete.
    destruct (removeFromList (complete m) v false) as [c|]; [|done].
    cbn. intros E. by destruct (IH _ E).
  - cbn. intros E. by destruct (IH _ E).
Qed.

Lemma removeDependency_in_edges (ks : list Z) (tx : Z) (m : execStatusManager) :
  edges_consistent m → range_order m tx ks →
  let m' := removeDependency_in ks m tx in
  edges_consistent m'
  ∧ (∀ d, inner (blocker m') d !! tx = None)
  ∧ inner (dependency m') tx = ∅.
Proof.
  intros Hcons Hks.
  assert (∀ d, d ∉ ks → inner (blocker m) d !! tx = None) as Hnot.
  { intros d Hd. destruct (inner (blocker m) d !! tx) as [v|] eqn:E; [|done].
    exfalso. destruct (Hcons d tx) as [w Hw]; [by eexists|].
    apply Hd. by eapply range_order_elem_of. }
  unfold removeDependency_in.
  destruct (dependency m !! tx) as [deps|] eqn:Hdeps.
  - destruct (Nat.ltb_spec 0 (size deps)) as [Hsz|Hsz].
    + destruct (removeDependency_fold_frame tx ks m) as (_ & _ & Hd & Hb & _).
      cbn. rewrite Hd, Hb.
      assert (∀ d, inner (release tx (blocker m) ks) d !! tx = None) as Hclear.
      { intros d. rewrite inner_release. case_decide.
        - apply lookup_delete_eq.
        - by apply Hnot. }
      split; [|split; [done|]].
      * intros d b [v Hv]. cbn in Hv |- *. rewrite Hb, inner_release in Hv.
        assert (b ≠ tx) as Hne.
        { intros ->. specialize (Hclear d). rewrite inner_release in Hclear.
          congruence. }
        rewrite inner_delete_ne by done. apply Hcons.
        case_decide; [|by eexists].
        rewrite lookup_delete_ne in Hv by done. by eexists.
      * unfold inner. by rewrite lookup_delete_eq.
    + assert (deps = ∅) as -> by (apply map_size_empty_inv; lia).
      split; [done|]. split.
      * intros d. destruct (inner (blocker m) d !! tx) as [v|] eqn:E; [|done].
        destruct (Hcons d tx) as [w Hw]; [by eexists|].
        unfold inner in Hw. rewrite Hdeps in Hw. simpl in Hw.
        by rewrite lookup_empty in Hw.
      * unfold inner. by rewrite Hdeps.
  - split; [done|]. split.
    + intros d. destruct (inner (blocker m) d !! tx) as [v|] eqn:E; [|done].
      destruct (Hcons d tx) as [w Hw]; [by eexists|].
      unfold inner in Hw. rewrite Hdeps in Hw. simpl in Hw.
      by rewrite lookup_empty in Hw.
    + unfold inner. by rewrite Hdeps.
Qed.

Lemma addDependencies_edges (m : execStatusManager) (b d : Z) :
  edges_consistent m → edges_consistent (addDependencies m b d).2.
Proof.
  intros Hcons.
  destruct (decide (b < 0 ∨ d ≤ b)) as [Hrej|Hok].
  { by rewrite addDependencies_rejected. }
  assert (0 ≤ b < d) as Hbd by lia.
  destruct (checkComplete m b) eqn:Hc.
  - rewrite (addDependencies_completed m b d Hbd Hc). cbn.
    intros d' b' [v Hv]. cbn in *. rewrite inner_alter_delete in Hv.
    apply Hcons. case_decide; [|by eexists].
    apply lookup_delete_Some in Hv as [_ Hv]. by eexists.
  - destruct (addDependencies_recorded m b d Hbd Hc)
      as (m' & -> & _ & _ & _ & Hdep & Hoth & Hblk).
    cbn. intros d' b' [v Hv]. rewrite Hblk in Hv.
    assert (is_Some (inner (blocker m) d' !! b') ∨ (d' = d ∧ b' = b)) as [Hold|[-> ->]].
    { destruct (decide (d' = d)) as [->|Hne].
      - rewrite inner_insert_eq in Hv.
        destruct (decide (b' = b)) as [->|Hne']; [by right|].
        rewrite lookup_insert_ne in Hv by done. left. by eexists.
      - rewrite inner_insert_ne in Hv by done. left. by eexists. }
    + specialize (Hcons d' b' Hold).
      destruct (decide (b' = b)) as [->|Hne].
      * rewrite Hdep. destruct (decide (d' = d)) as [->|Hne'].
        -- rewrite lookup_insert_eq. by eexists.
        -- by rewrite lookup_insert_ne.
      * unfold inner. rewrite Hoth by done. done.
    + rewrite Hdep, lookup_insert_eq. by eexists.
Qed.

Lemma edges_consistent_maps (m m' : execStatusManager) :
  dependency m' = dependency m → blocker m' = blocker m →
  edges_consistent m → edges_consistent m'.
Proof. unfold edges_consistent. by intros -> ->. Qed.

Lemma run_edges_consistent (m m' : execStatusManager) (c : call) :
  edges_consistent m → possible m c → run m c = Ok m' → edges_consistent m'.
Proof.
  intros Hcons Hposs. destruct c; simpl in *.
  - intros [= <-]. unfold takeNextPending. by destruct (pending m).
  - unfold markComplete. destruct (removeFromList _ _ _); [|done].
    cbn. by intros [= <-].
  - by intros [= <-].
  - intros E. destruct (pushPendingSet_maps _ _ _ E).
    by apply (edges_consistent_maps m).
  - unfold clearInProgress. destruct (removeFromList _ _ _); [|done].
    cbn. by intros [= <-].
  - unfold clearComplete. destruct (removeFromList _ _ _); [|done].
    cbn. by intros [= <-].
  - unfold clearPending. destruct (removeFromList _ _ _); [|done].
    cbn. by intros [= <-].
  - intros [= <-]. by apply addDependencies_edges.
  - intros [= <-]. by apply removeDependency_in_edges.
Qed.

Lemma reachable_edges_consistent (m : execStatusManager) :
  reachable m → edges_consistent m.
Proof.
  induction 1 as [n m Hnew|m c m' _ IH Hposs _ Hrun].
  - destruct (newStatusManager_fields n m Hnew) as (_ & _ & _ & _ & _ & Hb).
    intros d b [v Hv]. rewrite Hb in Hv. by rewrite lookup_empty in Hv.
  - by eapply run_edges_consistent.
Qed.

(** *** [maxAllComplete] returns a completed index or [-1] *)

Lemma maxAllComplete_loop_elem_of (c : list Z) (n : nat) (k : Z) :
  maxAllComplete_loop c n = Ok k → k = -1 ∨ k ∈ c.
Proof.
  induction n as [|n IH]; cbn [maxAllComplete_loop]; [intros [= <-]; by left|].
  destruct (hasNoGap (take (n + 1) c)) as [[|]|]; cbn; [|done|done].
  destruct (c !! n) as [z|] eqn:Hz; [|done].
  intros [= <-]. right. by eapply list_elem_of_lookup_2.
Qed.

(** *** Re-queueing the revalidation range *)

Lemma getRevalidationRange_members (m : execStatusManager) (txFrom max : Z) :
  StronglySorted Z.lt (inProgress m) →
  (∀ j, txFrom ≤ j ≤ max → j ∉ inProgress m) →
  ∀ y, y ∈ getRevalidationRange_loop m (Z.to_nat (max - txFrom + 1)) txFrom []
       ↔ txFrom ≤ y ≤ max.
Proof.
  intros Hs Hfree y.
  destruct (getRevalidationRange_loop_spec m (Z.to_nat (max - txFrom + 1))
              txFrom []) as [_ Hin]; [constructor|constructor|].
  rewrite Hin, elem_of_nil. split.
  - intros [[]|[Hy _]]. lia.
  - intros Hy. right. split; [lia|].
    apply checkList_false, Hfree. lia.
Qed.

End StatusMoreFacts.

(** * Further properties of the status manager *)

Module StatusExtras.

Import SortFacts Status StatusCalls ListFacts MaxCompleteFacts RevalidationFacts
  DependencyFacts InvariantFacts StatusMoreFacts.
Local Open Scope Z_scope.

(** X1.  On a strictly sorted list [insertInList] is set insertion: the
    result is strictly sorted and holds [v] and the old elements; a present
    [v] leaves the list as it is, an absent one makes it one longer. *)
Theorem insertInList_set_insert (l : list Z) (v : Z) :
  StronglySorted Z.lt l →
  StronglySorted Z.lt (insertInList l v)
  ∧ (∀ y, y ∈ insertInList l v ↔ y = v ∨ y ∈ l)
  ∧ (v ∈ l → insertInList l v = l)
  ∧ (v ∉ l → length (insertInList l v) = S (length l)).
Proof.
  intros Hs. split; [by apply insertInList_sorted|].
  split; [intros y; apply elem_of_insertInList|].
  destruct (insertInList_cases l v)
    as [[Heq Hlast]|[[Heq Hin]|(Heq & Hlen & Hne & z & Hz & Hvz)]].
  - split.
    + intros Hin. exfalso.
      destruct (last l) as [z|] eqn:Hl.
      * specialize (Hlast z eq_refl). rewrite last_lookup in Hl.
        apply list_elem_of_lookup in Hin as [i Hi].
        pose proof (lookup_lt_Some _ _ _ Hi).
        destruct (decide (i = pred (length l))) as [->|]; [simplify_eq; lia|].
        pose proof (StronglySorted_lookup _ l i (pred (length l)) v z Hs
                      ltac:(lia) Hi Hl). lia.
      * apply last_None in Hl. subst l. by apply elem_of_nil in Hin.
    + intros _. rewrite Heq, length_app. simpl. lia.
  - split; [done|]. done.
  - split.
    + intros Hin. exfalso. apply Hne.
      apply (checkList_spec l v (sorted_le_of_lt l Hs)) in Hin.
      unfold checkList in Hin.
      by apply andb_prop in Hin as [_ Hin%bool_decide_eq_true].
    + intros _. rewrite Heq, length_app. simpl.
      rewrite length_take, length_drop. lia.
Qed.

Lemma insertInList_set_insert_witness :
  StronglySorted Z.lt [1; 3; 5]
  ∧ insertInList [1; 3; 5] 4 = [1; 3; 4; 5]
  ∧ StronglySorted Z.lt (insertInList [1; 3; 5] 4)
  ∧ (3 ∈ [1; 3; 5] → insertInList [1; 3; 5] 3 = [1; 3; 5]).
Proof.
  assert (StronglySorted Z.lt [1; 3; 5]) as Hs by (repeat constructor; lia).
  split; [exact Hs|]. split; [reflexivity|]. split.
  - exact (proj1 (insertInList_set_insert [1; 3; 5] 4 Hs)).
  - exact (proj1 (proj2 (proj2 (insertInList_set_insert [1; 3; 5] 3 Hs)))).
Defined.

(** X2.  [takeNextPending] on a well-formed state: with nothing pending it
    returns [-1] and changes nothing; otherwise it returns the smallest
    pending index (the value of [minPending]) and moves it from pending to
    in-progress, keeping the state well-formed. *)
Theorem takeNextPending_takes_min (m : execStatusManager) :
  well_formed m →
  (pending m = [] → takeNextPending m = (-1, m) ∧ minPending m = -1)
  ∧ (pending m ≠ [] →
     let x := (takeNextPending m).1 in
     let m' := (takeNextPending m).2 in
     x = minPending m ∧ x ∈ pending m ∧ (∀ y, y ∈ pending m → x ≤ y)
     ∧ (∀ y, y ∈ pending m' ↔ y ∈ pending m ∧ y ≠ x)
     ∧ (∀ y, y ∈ inProgress m' ↔ y = x ∨ y ∈ inProgress m)
     ∧ complete m' = complete m
     ∧ well_formed m').
Proof.
  intros Hwf. unfold takeNextPending, minPending.
  pose proof (takeNextPending_well_formed m Hwf) as Hwf'.
  unfold takeNextPending in Hwf'.
  destruct (pending m) as [|x rest] eqn:E; (split; [|done || intros _]).
  - done.
  - done.
  - cbn [fst snd pending inProgress complete] in *.
    destruct Hwf as (Hp & _). rewrite E in Hp.
    apply StronglySorted_cons in Hp as [Hall Hrest].
    rewrite Forall_forall in Hall.
    split; [done|]. split; [by left|]. split.
    { intros y [->|Hy]%elem_of_cons; [lia|]. specialize (Hall y Hy). lia. }
    split.
    { intros y. rewrite elem_of_cons. split.
      - intros Hy. split; [by right|]. specialize (Hall y Hy). lia.
      - intros [[->|Hy] Hne]; done. }
    split; [intros y; apply elem_of_insertInList|]. split; done.
Qed.

Lemma takeNextPending_takes_min_witness :
  let m := mkStatus [2; 4] [1] [0] ∅ ∅ in
  well_formed m ∧ pending m ≠ []
  ∧ (takeNextPending m).1 = 2
  ∧ well_formed (takeNextPending m).2.
Proof.
  intros m.
  assert (well_formed m) as Hwf.
  { unfold well_formed, pairwise_disjoint. simpl.
    repeat split; try (repeat constructor; lia); intros x;
      rewrite ?elem_of_cons, ?elem_of_nil; lia. }
  assert (pending m ≠ []) as Hne by done.
  destruct (proj2 (takeNextPending_takes_min m Hwf) Hne)
    as (Hmin & _ & _ & _ & _ & _ & Hwf').
  split; [exact Hwf|]. split; [exact Hne|]. split; [exact Hmin|exact Hwf'].
Defined.

(** X3.  [markComplete(tx)] on a well-formed state moves [tx] from
    in-progress to complete when it is in progress, and panics when it is
    not. *)
Theorem markComplete_moves_or_panics (m : execStatusManager) (tx : Z) :
  well_formed m →
  (tx ∈ inProgress m →
     ∃ m', markComplete m tx = Ok m'
       ∧ (∀ y, y ∈ inProgress m' ↔ y ∈ inProgress m ∧ y ≠ tx)
       ∧ (∀ y, y ∈ complete m' ↔ y = tx ∨ y ∈ complete m)
       ∧ pending m' = pending m ∧ well_formed m')
  ∧ (tx ∉ inProgress m → ∃ p, markComplete m tx = Panic p).
Proof.
  intros Hwf. pose proof Hwf as (_ & Hi & _). split.
  - intros Hin.
    destruct (removeFromList_present _ _ true Hi Hin) as [ip Hip].
    destruct (removeFromList_Ok _ _ _ _ Hi Hip) as (_ & Hmem & _).
    assert (markComplete m tx
            = Ok (set_complete (set_inProgress m ip)
                    (insertInList (complete m) tx))) as Hmc.
    { unfold markComplete. by rewrite Hip. }
    eexists. split; [exact Hmc|]. simpl. split; [done|].
    split; [intros y; apply elem_of_insertInList|]. split; [done|].
    by eapply markComplete_well_formed.
  - intros Hnin. unfold markComplete.
    destruct (removeFromList (inProgress m) tx true) as [ip|p] eqn:E.
    + destruct (removeFromList_Ok _ _ _ _ Hi E) as (_ & _ & Htx).
      by specialize (Htx eq_refl).
    + by exists p.
Qed.

Lemma markComplete_moves_or_panics_witness :
  let m := mkStatus [2; 4] [1; 3] [0] ∅ ∅ in
  well_formed m ∧ 3 ∈ inProgress m ∧ (7 ∉ inProgress m)
  ∧ (∃ m', markComplete m 3 = Ok m' ∧ well_formed m')
  ∧ ∃ p, markComplete m 7 = Panic p.
Proof.
  intros m.
  assert (well_formed m) as Hwf.
  { unfold well_formed, pairwise_disjoint. simpl.
    repeat split; try (repeat constructor; lia); intros x;
      rewrite ?elem_of_cons, ?elem_of_nil; lia. }
  assert (3 ∈ inProgress m) as H3 by (simpl; rewrite !elem_of_cons; lia).
  assert (7 ∉ inProgress m) as H7
    by (simpl; rewrite !elem_of_cons, elem_of_nil; lia).
  split; [exact Hwf|]. split; [exact H3|]. split; [exact H7|]. split.
  - destruct (proj1 (markComplete_moves_or_panics m 3 Hwf) H3)
      as (m' & Hm & _ & _ & _ & Hwf').
    exists m'. split; [exact Hm|exact Hwf'].
  - exact (proj2 (markComplete_moves_or_panics m 7 Hwf) H7).
Defined.

(** X4.  Whatever calls led to it, the manager keeps its three lists
    strictly sorted, so the binary-search membership tests [checkPending],
    [checkInProgress] and [checkComplete] are exact. *)
Theorem reachable_checks_exact (m : execStatusManager) :
  reachable m →
  lists_sorted m
  ∧ ∀ tx, (checkPending m tx = true ↔ tx ∈ pending m)
        ∧ (checkInProgress m tx = true ↔ tx ∈ inProgress m)
        ∧ (checkComplete m tx = true ↔ tx ∈ complete m).
Proof.
  intros Hr. pose proof (reachable_lists_sorted m Hr) as Hs.
  split; [done|]. destruct Hs as (Hp & Hi & Hc). intros tx.
  split; [|split]; apply checkList_spec; by apply sorted_le_of_lt.
Qed.

Lemma reachable_checks_exact_witness :
  ∃ m, reachable m ∧ pending m = [0; 1; 2] ∧ inProgress m = [0]
    ∧ lists_sorted m ∧ (checkInProgress m 0 = true ↔ 0 ∈ inProgress m).
Proof.
  assert (∃ m, reachable m ∧ pending m = [0; 1; 2] ∧ inProgress m = [0])
    as (m & Hr & Hp & Hi).
  { pose proof (reachable_new (λ _ _, True) 3 _ eq_refl) as H0.
    pose proof (reachable_call _ _ TakeNextPending _ H0 I I eq_refl) as H1.
    pose proof (reachable_call _ _ (PushPending 0) _ H1 I I eq_refl) as H2.
    eexists. split; [exact H2|]. by vm_compute. }
  exists m. split; [exact Hr|]. split; [exact Hp|]. split; [exact Hi|].
  destruct (reachable_checks_exact m Hr) as [Hs Hc].
  split; [exact Hs|]. exact (proj1 (proj2 (Hc 0))).
Defined.

(** X5.  [newStatusManager] panics on a negative task count; otherwise the
    fresh manager has every index pending in order, nothing in progress or
    complete, no task blocked, an all-complete limit of [-1] and the least
    index as [minPending]. *)
Theorem newStatusManager_fresh (n : Z) :
  (n < 0 → newStatusManager n = Panic MakeSliceLenOutOfRange)
  ∧ (0 ≤ n →
     ∃ m, newStatusManager n = Ok m
       ∧ pending m = seqZ 0 n ∧ inProgress m = [] ∧ complete m = []
       ∧ (∀ tx, isBlocked m tx = false)
       ∧ (∀ tx, checkPending m tx = true ↔ 0 ≤ tx < n)
       ∧ maxAllComplete m = Ok (-1) ∧ countComplete m = 0
       ∧ minPending m = (if n =? 0 then -1 else 0)
       ∧ well_formed m).
Proof.
  split.
  - intros Hn. unfold newStatusManager. by destruct (Z.ltb_spec n 0); [|lia].
  - intros Hn.
    destruct (newStatusManager n) as [m|] eqn:E; cycle 1.
    { unfold newStatusManager in E. by destruct (Z.ltb_spec n 0); [lia|]. }
    destruct (newStatusManager_fields n m E) as (_ & Hp & Hi & Hc & _ & Hb).
    pose proof (newStatusManager_well_formed n m E) as Hwf.
    exists m. split; [done|]. do 3 (split; [done|]).
    split; [intros tx; by apply isBlocked_empty|].
    split.
    { intros tx. unfold checkPending.
      rewrite checkList_spec by (apply sorted_le_of_lt, Hwf).
      rewrite Hp, elem_of_seqZ. lia. }
    split; [unfold maxAllComplete; by rewrite Hc|].
    split; [unfold countComplete; by rewrite Hc|].
    split; [|done].
    unfold minPending. rewrite Hp.
    destruct (Z.eqb_spec n 0) as [->|]; [done|].
    by rewrite seqZ_cons by lia.
Qed.

Lemma newStatusManager_fresh_witness :
  newStatusManager (-1) = Panic MakeSliceLenOutOfRange
  ∧ ∃ m, newStatusManager 3 = Ok m ∧ pending m = [0; 1; 2]
      ∧ minPending m = 0 ∧ isBlocked m 1 = false.
Proof.
  split.
  - apply (proj1 (newStatusManager_fresh (-1))). lia.
  - destruct (proj2 (newStatusManager_fresh 3)) as
      (m & Hm & Hp & _ & _ & Hb & _ & _ & _ & Hmin & _); [lia|].
    exists m. split; [exact Hm|]. split; [exact Hp|].
    split; [exact Hmin|exact (Hb 1)].
Defined.

(** X6.  A pass without conflicts: on a fresh manager for [n] tasks, taking
    the next pending task and marking it complete, [n] times over, never
    panics and ends with nothing pending or in progress, all of
    [0 .. n-1] complete, an all-complete limit of [n - 1], and
    [takeNextPending] answering [-1]. *)
Theorem process_all_completes (n : nat) :
  ∃ m0 m', newStatusManager (Z.of_nat n) = Ok m0
    ∧ run_all m0 (process_all 0 n) = Ok m'
    ∧ pending m' = [] ∧ inProgress m' = []
    ∧ complete m' = seqZ 0 (Z.of_nat n)
    ∧ maxAllComplete m' = Ok (Z.of_nat n - 1)
    ∧ countComplete m' = Z.of_nat n
    ∧ (takeNextPending m').1 = -1.
Proof.
  destruct (newStatusManager (Z.of_nat n)) as [m0|] eqn:E; cycle 1.
  { unfold newStatusManager in E.
    by destruct (Z.ltb_spec (Z.of_nat n) 0); [lia|]. }
  destruct (newStatusManager_fields _ m0 E) as (_ & Hp & Hi & Hc & _).
  destruct (process_all_run n 0 m0) as (m' & Hrun & Hp' & Hi' & Hc' & _);
    [lia|done|done|done|].
  rewrite Z.add_0_l in Hc'.
  exists m0, m'. do 4 (split; [done|]). split; [done|].
  split; [|split].
  - unfold maxAllComplete. rewrite Hc'. destruct n as [|n]; [done|].
    assert (head (seqZ 0 (Z.of_nat (S n))) = Some 0) as ->
      by (by rewrite seqZ_cons by lia).
    rewrite last_seqZ, length_seqZ. cbn [negb Z.eqb].
    destruct (Z.eqb_spec (0 + Z.of_nat (S n) - 1)
                (Z.of_nat (Z.to_nat (Z.of_nat (S n))) - 1)); [|lia].
    f_equal; lia.
  - unfold countComplete. rewrite Hc', length_seqZ. lia.
  - unfold takeNextPending. by rewrite Hp'.
Qed.

(** X7.  In every state the calls can reach, the blocker map only names
    blockers that the dependency map knows; so [removeDependency(tx)],
    in whatever order it ranges over the dependents, leaves no task that
    still lists [tx] as a blocker, and no dependents of [tx]. *)
Theorem removeDependency_clears_edges (m : execStatusManager) (tx : Z)
    (ks : list Z) :
  reachable m → range_order m tx ks →
  let m' := removeDependency_in ks m tx in
  edges_consistent m
  ∧ (∀ d, inner (blocker m') d !! tx = None)
  ∧ inner (dependency m') tx = ∅
  ∧ edges_consistent m'.
Proof.
  intros Hr Hks m'.
  pose proof (reachable_edges_consistent m Hr) as Hcons.
  destruct (removeDependency_in_edges ks tx m Hcons Hks) as (H1 & H2 & H3).
  done.
Qed.

Lemma removeDependency_clears_edges_witness :
  ∃ m, reachable m ∧ inner (blocker m) 5 !! 2 = Some true
    ∧ inner (blocker (removeDependency_in [5] m 2)) 5 !! 2 = None
    ∧ inner (dependency (removeDependency_in [5] m 2)) 2 = ∅.
Proof.
  assert (∃ m, reachable m ∧ inner (blocker m) 5 !! 2 = Some true
               ∧ range_order m 2 [5]) as (m & Hr & Hb & Hks).
  { pose proof (reachable_new (λ _ _, True) 6 _ eq_refl) as H0.
    pose proof (reachable_call _ _ (AddDependencies 2 5) _ H0 I I eq_refl) as H1.
    eexists. split; [exact H1|]. by vm_compute. }
  exists m. split; [exact Hr|]. split; [exact Hb|].
  destruct (removeDependency_clears_edges m 2 [5] Hr Hks) as (_ & H1 & H2 & _).
  split; [exact (H1 5)|exact H2].
Defined.

(** X8.  [pushPendingSet] on sorted lists never panics: every task of the
    set becomes pending, the tasks of the set leave [complete], and
    [inProgress] and the two maps are untouched. *)
Theorem pushPendingSet_moves (m : execStatusManager) (set : list Z) :
  lists_sorted m →
  ∃ m', pushPendingSet m set = Ok m'
    ∧ (∀ y, y ∈ pending m' ↔ y ∈ pending m ∨ y ∈ set)
    ∧ (∀ y, y ∈ complete m' ↔ y ∈ complete m ∧ y ∉ set)
    ∧ inProgress m' = inProgress m
    ∧ dependency m' = dependency m ∧ blocker m' = blocker m
    ∧ lists_sorted m'.
Proof.
  intros Hs.
  destruct (pushPendingSet_effect set m Hs) as (m' & Hrun & Hp & Hc & Hi & Hd & Hb).
  exists m'. do 6 (split; [done|]). by eapply pushPendingSet_lists_sorted.
Qed.

Lemma pushPendingSet_moves_witness :
  let m := mkStatus [2; 4] [1; 3] [0; 5] ∅ ∅ in
  lists_sorted m
  ∧ ∃ m', pushPendingSet m [5; 0; 7] = Ok m'
      ∧ (∀ y, y ∈ complete m' ↔ y ∈ complete m ∧ y ∉ [5; 0; 7])
      ∧ inProgress m' = [1; 3].
Proof.
  intros m.
  assert (lists_sorted m) as Hs.
  { unfold lists_sorted. simpl. repeat split; repeat constructor; lia. }
  split; [exact Hs|].
  destruct (pushPendingSet_moves m [5; 0; 7] Hs)
    as (m' & Hrun & _ & Hc & Hi & _).
  exists m'. split; [exact Hrun|]. split; [exact Hc|exact Hi].
Defined.

(** X9.  Re-queueing a revalidation range: in a well-formed state with
    non-negative completed indices, [pushPendingSet(getRevalidationRange(txFrom))]
    never panics, keeps the state well formed, moves exactly the tasks
    [txFrom .. max] from complete to pending, and lowers the all-complete
    limit to [min(max, txFrom - 1)]. *)
Theorem revalidation_requeue (m : execStatusManager) (txFrom : Z) :
  well_formed m → Forall (λ z, 0 ≤ z ≤ int_max) (complete m) → 0 ≤ txFrom →
  ∃ max r m',
    maxAllComplete m = Ok max
    ∧ getRevalidationRange m txFrom = Ok r
    ∧ pushPendingSet m r = Ok m'
    ∧ well_formed m'
    ∧ (∀ x, x ∈ r ↔ txFrom ≤ x ≤ max)
    ∧ (∀ y, y ∈ pending m' ↔ y ∈ pending m ∨ txFrom ≤ y ≤ max)
    ∧ (∀ y, y ∈ complete m' ↔ y ∈ complete m ∧ ¬ (txFrom ≤ y ≤ max))
    ∧ inProgress m' = inProgress m
    ∧ maxAllComplete m' = Ok (Z.min max (txFrom - 1)).
Proof.
  intros Hwf Hrange Hfrom.
  pose proof Hwf as (Hsp & Hsi & Hsc & Hdp & Hdc & Hic).
  destruct (maxAllComplete_prefix m Hsc Hrange) as (k & Hk & Hk1 & Hpre & Hnext).
  set (r := getRevalidationRange_loop m (Z.to_nat (k - txFrom + 1)) txFrom []).
  assert (∀ y, y ∈ r ↔ txFrom ≤ y ≤ k) as Hr.
  { apply getRevalidationRange_members; [done|].
    intros j Hj Hin. apply (Hic j); [done|]. apply Hpre. lia. }
  destruct (pushPendingSet_effect r m) as (m' & Hrun & Hp' & Hc' & Hi' & _).
  { by repeat split. }
  assert (well_formed m') as Hwf'.
  { apply (pushPendingSet_well_formed r m m' Hwf); [|done].
    apply Forall_forall. intros x Hx%Hr Hin.
    apply (Hic x); [done|]. apply Hpre. lia. }
  exists k, r, m'. split; [done|].
  split; [unfold getRevalidationRange; by rewrite Hk|].
  do 3 (split; [done|]).
  split; [intros y; rewrite Hp', Hr; tauto|].
  assert (∀ y, y ∈ complete m' ↔ y ∈ complete m ∧ ¬ (txFrom ≤ y ≤ k)) as Hcm.
  { intros y. rewrite Hc', Hr. tauto. }
  do 2 (split; [done|]).
  destruct Hwf' as (_ & _ & Hsc' & _).
  destruct (maxAllComplete_prefix m' Hsc') as (k' & Hk' & Hk1' & Hpre' & Hnext').
  { apply Forall_forall. intros z Hz%Hcm.
    rewrite Forall_forall in Hrange. apply Hrange. tauto. }
  rewrite Hk'. f_equal.
  destruct (decide (txFrom ≤ k)) as [Hle|Hgt].
  - rewrite Z.min_r by lia.
    destruct (decide (k' < txFrom - 1)) as [Hlt|Hge].
    + exfalso. apply Hnext', Hcm. split; [apply Hpre; lia|lia].
    + destruct (decide (txFrom ≤ k')) as [Hin|]; [|lia].
      exfalso. assert (txFrom ∈ complete m') as Hx by (apply Hpre'; lia).
      apply Hcm in Hx as [_ Hx]. apply Hx. lia.
  - rewrite Z.min_l by lia.
    destruct (decide (k' < k)) as [Hlt|Hge].
    + exfalso. apply Hnext', Hcm. split; [apply Hpre; lia|lia].
    + destruct (decide (k < k')) as [Hin|]; [|lia].
      exfalso. apply Hnext.
      assert (k + 1 ∈ complete m') as Hx by (apply Hpre'; lia).
      by apply Hcm in Hx as [Hx _].
Qed.

Lemma revalidation_requeue_witness :
  let m := mkStatus [5] [4] [0; 1; 2; 3; 7] ∅ ∅ in
  ∃ m', getRevalidationRange m 2 = Ok [2; 3]
    ∧ pushPendingSet m [2; 3] = Ok m'
    ∧ well_formed m' ∧ maxAllComplete m' = Ok 1.
Proof.
  intros m.
  assert (well_formed m) as Hwf.
  { unfold well_formed, pairwise_disjoint. simpl.
    repeat split; try (repeat constructor; lia); intros x;
      rewrite ?elem_of_cons, ?elem_of_nil; lia. }
  assert (Forall (λ z, 0 ≤ z ≤ int_max) (complete m)) as Hr.
  { simpl. unfold int_max. repeat constructor; lia. }
  destruct (revalidation_requeue m 2 Hwf Hr ltac:(lia))
    as (max & r & m' & Hmax & Hget & Hrun & Hwf' & _ & _ & _ & _ & Hmax').
  assert (max = 3) as -> by (vm_compute in Hmax; congruence).
  assert (r = [2; 3]) as -> by (vm_compute in Hget; congruence).
  exists m'. split; [exact Hget|]. split; [exact Hrun|].
  split; [exact Hwf'|exact Hmax'].
Defined.

(** X10.  [maxAllComplete] never panics, whatever the state of the
    [complete] list, and answers [-1] or an index that is in the list. *)
Theorem maxAllComplete_safe (m : execStatusManager) :
  ∃ k, maxAllComplete m = Ok k ∧ (k = -1 ∨ k ∈ complete m).
Proof.
  destruct (maxAllComplete_total m) as [k Hk]. exists k. split; [done|].
  unfold maxAllComplete in Hk.
  destruct (head (complete m)) as [first|]; [|left; congruence].
  destruct (last (complete m)) as [final|] eqn:Hlast; [|left; congruence].
  destruct (negb (first =? 0)); [left; congruence|].
  destruct (final =? _).
  - right. injection Hk as <-. rewrite last_lookup in Hlast.
    by eapply list_elem_of_lookup_2.
  - by eapply maxAllComplete_loop_elem_of.
Qed.



(** X12.  [removeFromList] on a strictly sorted list, when some element is
    not below [v]: a present [v] is removed (the list gets one shorter and
    stays sorted); an absent [v] leaves the list alone if [expect] is false
    and panics with the should-not-happen message if it is true. *)
Theorem removeFromList_sorted_spec (l : list Z) (v : Z) :
  StronglySorted Z.lt l → (∃ z, z ∈ l ∧ v ≤ z) →
  (v ∈ l → ∀ expect, ∃ l',
     removeFromList l v expect = Ok l'
     ∧ StronglySorted Z.lt l' ∧ (∀ y, y ∈ l' ↔ y ∈ l ∧ y ≠ v)
     ∧ length l = S (length l'))
  ∧ (v ∉ l →
     removeFromList l v false = Ok l
     ∧ removeFromList l v true = Panic ElementExpectedInList).
Proof.
  intros Hs (z & Hz & Hvz).
  pose proof (sorted_le_of_lt l Hs) as Hle.
  assert (∃ y, l !! SearchInts l v = Some y) as [y Hy].
  { destruct (last l) as [w|] eqn:Hlast.
    - apply lookup_lt_is_Some. eapply SearchInts_lt_length; [done|].
      apply list_elem_of_lookup in Hz as [i Hi].
      rewrite last_lookup in Hlast.
      pose proof (lookup_lt_Some _ _ _ Hi).
      destruct (decide (i = pred (length l))) as [->|]; [simplify_eq; lia|].
      pose proof (StronglySorted_lookup _ l i (pred (length l)) z w Hle
                    ltac:(lia) Hi Hlast). lia.
    - apply last_None in Hlast. subst l. by apply elem_of_nil in Hz. }
  split.
  - intros Hin expect.
    destruct (removeFromList_present l v expect Hs Hin) as [l' Hl'].
    destruct (removeFromList_Ok _ _ _ _ Hs Hl') as (Hs' & Hmem & _).
    exists l'. do 3 (split; [done|]).
    rewrite removeFromList_cases, Hy in Hl'.
    case_bool_decide as E.
    + injection Hl' as <-. pose proof (lookup_lt_Some _ _ _ Hy).
      rewrite length_delete by eauto. lia.
    + exfalso. apply (checkList_spec l v Hle) in Hin.
      unfold checkList in Hin.
      apply andb_prop in Hin as [_ Hin%bool_decide_eq_true]. congruence.
  - intros Hnin. rewrite !removeFromList_cases, Hy.
    rewrite bool_decide_eq_false_2; [done|].
    intros ->. apply Hnin. by eapply list_elem_of_lookup_2.
Qed.

Lemma removeFromList_sorted_spec_witness :
  (∃ l', removeFromList [1; 3; 6] 3 true = Ok l' ∧ length l' = 2%nat)
  ∧ removeFromList [1; 3; 6] 4 false = Ok [1; 3; 6]
  ∧ removeFromList [1; 3; 6] 4 true = Panic ElementExpectedInList.
Proof.
  assert (StronglySorted Z.lt [1; 3; 6]) as Hs by (repeat constructor; lia).
  assert (6 ∈ [1; 3; 6]) as H6 by (rewrite !elem_of_cons; lia).
  assert (3 ∈ [1; 3; 6]) as H3 by (rewrite !elem_of_cons; lia).
  assert (4 ∉ [1; 3; 6]) as H4 by (rewrite !elem_of_cons, elem_of_nil; lia).
  assert (∃ z, z ∈ [1; 3; 6] ∧ 3 ≤ z) as Hex3
    by (exists 6; split; [exact H6|lia]).
  assert (∃ z, z ∈ [1; 3; 6] ∧ 4 ≤ z) as Hex4
    by (exists 6; split; [exact H6|lia]).
  split.
  - destruct (proj1 (removeFromList_sorted_spec [1; 3; 6] 3 Hs Hex3) H3 true)
      as (l' & Hl' & _ & _ & Hlen).
    exists l'. split; [exact Hl'|]. simpl in Hlen. lia.
  - exact (proj2 (removeFromList_sorted_spec [1; 3; 6] 4 Hs Hex4) H4).
Defined.

End StatusExtras.

(** * Further properties of the queues *)

Module QueueMoreFacts.

Import Exec ExecCalls HeapFacts QueueFacts.

Section queue_more_facts.
Context {T : Type} `{!Task T}.
Implicit Types q : QueueWithRetry T.

Lemma heap_Pop_head (x : T) (h : list T) :
  ∃ h', heap_Pop (x :: h) = Ok (x, h') ∧ x :: h ≡ₚ x :: h'.
Proof.
  destruct (heap_Pop_Permutation (x :: h)) as (y & h' & Hpop & Hperm & _ & Hy);
    [done|].
  rewrite lookup_Swap in Hy by (simpl; lia).
  assert (y = x) as ->.
  { destruct (decide (length (x :: h) - 1 = 0)%nat) as [E|E].
    - rewrite E in Hy. cbn in Hy. congruence.
    - rewrite decide_True in Hy by done. cbn in Hy. congruence. }
  by exists h'.
Qed.

(** The receive loop of [popNoWait] hands out the first task of the buffer
    and drops the markers before it. *)
Lemma popNoWait_recv_spec (b : list (option T)) :
  match popNoWait_recv b with
  | (Some t, b') => omap id b = t :: omap id b' ∧ (length b' < length b)%nat
  | (None, b') => omap id b = [] ∧ b' = []
  end.
Proof.
  induction b as [|[t|] b IH]; cbn; [done| |].
  - split; [done|lia].
  - destruct (popNoWait_recv b) as [[t|] b']; [|done].
    destruct IH. split; [done|lia].
Qed.

(** What [Next] does, case by case. *)
Lemma Next_cases pick ctx q :
  match retires q with
  | _ :: _ =>
      ∃ t r, heap_Pop (retires q) = Ok (t, r)
        ∧ Next pick ctx q = Returned (Some t, true) (set_retires q r)
  | [] =>
      match popNoWait_recv (buf (newTasks q)) with
      | (Some t, b') =>
          Next pick ctx q =
            Returned (Some t, true) (set_newTasks q (set_buf (newTasks q) b'))
      | (None, _) =>
          let q1 := set_newTasks q (set_buf (newTasks q) []) in
          Next pick ctx q =
            if chan_closed (newTasks q) || done ctx
            then Returned (None, false) q1 else Blocked q1
      end
  end.
Proof.
  destruct (retires q) as [|x h] eqn:E.
  - unfold Next, popNoWait. rewrite E. cbn.
    pose proof (popNoWait_recv_spec (buf (newTasks q))) as Hspec.
    destruct (popNoWait_recv (buf (newTasks q))) as [[t|] b']; cbn.
    + done.
    + destruct Hspec as [_ ->].
      unfold popWait. cbn. rewrite E. destruct q as [c [b cp cl] r cy].
      cbn in *. subst r. destruct cl; cbn.
      * by destruct (done ctx && pick 0%nat).
      * by destruct (done ctx).
  - destruct (heap_Pop_head x h) as (h' & Hpop & _).
    exists x, h'. split; [done|]. rewrite <-E in Hpop.
    by apply Next_retry.
Qed.

Local Ltac inv_done :=
  unfold queue_inv; cbn; rewrite ?length_app; simpl; repeat split;
  first [congruence | lia].

Lemma queue_step_inv q q' : queue_step q q' → queue_inv q → queue_inv q'.
Proof.
  intros Hstep (Hc & Hlen & Hcap).
  assert (∀ b, (length b ≤ length (buf (newTasks q)))%nat →
            queue_inv (set_newTasks q (set_buf (newTasks q) b))) as Hshrink.
  { intros b Hb. split; [done|]. split; [cbn; lia|done]. }
  destruct Hstep as
    [pick ctx q t q' HAdd|q t q' HRe|pick ctx q a q' HNext
    |pick ctx q q' HNext|q q' HClose].
  - unfold Add, send, send_ready in HAdd.
    destruct (chan_closed (newTasks q)) eqn:Ecl;
      destruct (done ctx); cbn -[Nat.ltb] in HAdd;
      try destruct (Nat.ltb_spec (length (buf (newTasks q))) (cap (newTasks q)));
      try destruct pick; simplify_eq.
    all: unfold queue_inv; cbn; rewrite ?Ecl, ?length_app; simpl.
    all: split; [done|]; split; [lia|done].
  - unfold ReTry, send, send_ready in HRe. cbn -[Nat.ltb] in HRe.
    destruct (closed q) eqn:Eq; [simplify_eq; inv_done|].
    rewrite <-Hc in HRe. cbn -[Nat.ltb] in HRe.
    destruct (Nat.ltb_spec (length (buf (newTasks q))) (cap (newTasks q)));
      cbn in HRe; simplify_eq; [|inv_done].
    inv_done.
  - pose proof (Next_cases pick ctx q) as Hn.
    pose proof (popNoWait_recv_spec (buf (newTasks q))) as Hspec.
    destruct (retires q) as [|x h].
    + destruct (popNoWait_recv (buf (newTasks q))) as [[t|] b'].
      * rewrite Hn in HNext. simplify_eq. apply Hshrink. lia.
      * cbn in Hn. rewrite Hn in HNext.
        destruct (chan_closed (newTasks q) || done ctx); simplify_eq.
        apply Hshrink. simpl. lia.
    + destruct Hn as (t & r & _ & Hn). rewrite Hn in HNext. simplify_eq; inv_done.
  - pose proof (Next_cases pick ctx q) as Hn.
    destruct (retires q) as [|x h].
    + destruct (popNoWait_recv (buf (newTasks q))) as [[t|] b'].
      * rewrite Hn in HNext. simplify_eq; inv_done.
      * cbn in Hn. rewrite Hn in HNext.
        destruct (chan_closed (newTasks q) || done ctx); simplify_eq.
        apply Hshrink. simpl. lia.
    + destruct Hn as (t & r & _ & Hn). rewrite Hn in HNext. simplify_eq; inv_done.
  - unfold Close, close in HClose. destruct (closed q) eqn:Eq; [simplify_eq; inv_done|].
    rewrite <-Hc in HClose. cbn in HClose. simplify_eq; inv_done.
Qed.

Lemma queue_reachable_inv q : queue_reachable q → queue_inv q.
Proof.
  induction 1 as [c q Hnew|q q' _ IH Hstep].
  - unfold NewQueueWithRetry, make_chan in Hnew.
    destruct (Z.ltb_spec c 0); [done|]. cbn in Hnew. simplify_eq.
    split; [done|]. split; [simpl; lia|]. simpl. lia.
  - by eapply queue_step_inv.
Qed.

Lemma ReTry_Ok q (t : T) :
  queue_inv q →
  ∃ q', ReTry q t = Ok q'
    ∧ retires q' = heap_Push (retires q) t
    ∧ fresh q' = fresh q
    ∧ closed q' = closed q ∧ queue_inv q'.
Proof.
  intros (Hc & Hlen & Hcap). unfold ReTry, send, send_ready. cbn -[Nat.ltb].
  destruct (closed q) eqn:Eq.
  { eexists. split; [done|]. do 3 (split; [done|]). inv_done. }
  rewrite <-Hc. cbn -[Nat.ltb].
  destruct (Nat.ltb_spec (length (buf (newTasks q))) (cap (newTasks q))); cbn.
  - eexists. split; [done|]. split; [done|]. split.
    + unfold fresh. cbn. rewrite omap_app. cbn. by rewrite app_nil_r.
    + split; [done|]. inv_done.
  - eexists. split; [done|]. do 3 (split; [done|]). inv_done.
Qed.

(** [Next] only waits on an open channel. *)
Lemma Next_Blocked_open pick ctx q q' :
  Next pick ctx q = Blocked q' → chan_closed (newTasks q) = false.
Proof.
  intros Hb. pose proof (Next_cases pick ctx q) as Hn.
  destruct (retires q) as [|x h].
  - destruct (popNoWait_recv (buf (newTasks q))) as [[t|] b'].
    + rewrite Hn in Hb. by simplify_eq.
    + cbn in Hn. rewrite Hn in Hb.
      by destruct (chan_closed (newTasks q)).
  - destruct Hn as (t & r & _ & Hn). rewrite Hn in Hb. by simplify_eq.
Qed.

(** Fresh tasks come out of [Next] in the order they went in. *)
Lemma Next_many_fresh pick ctx (n : nat) q :
  retires q = [] → length (buf (newTasks q)) = n →
  ∃ q', Next_many pick ctx (length (fresh q)) q = (fresh q, q')
    ∧ retires q' = [] ∧ fresh q' = []
    ∧ closed q' = closed q ∧ capacity q' = capacity q
    ∧ chan_closed (newTasks q') = chan_closed (newTasks q).
Proof.
  revert q. induction n as [n IH] using lt_wf_ind. intros q Hr Hn.
  pose proof (Next_cases pick ctx q) as Hnext. rewrite Hr in Hnext.
  pose proof (popNoWait_recv_spec (buf (newTasks q))) as Hspec.
  destruct (popNoWait_recv (buf (newTasks q))) as [[t|] b'].
  - destruct Hspec as [Hb Hlt]. unfold fresh at 1 2. rewrite Hb.
    cbn [length Next_many]. rewrite Hnext.
    destruct (IH (length b') ltac:(lia)
                (set_newTasks q (set_buf (newTasks q) b')))
      as (q' & Hmany & Hr' & Hf' & Hc' & Hcap' & Hch'); [done|done|].
    unfold fresh at 1 2 in Hmany. cbn in Hmany. rewrite Hmany.
    by exists q'.
  - destruct Hspec as [Hb _]. unfold fresh at 1 2. rewrite Hb. cbn.
    exists q. by repeat split.
Qed.
End queue_more_facts.

End QueueMoreFacts.

Module QueueExtras.

Import Exec ExecCalls HeapFacts QueueFacts QueueMoreFacts.

(** X13.  [Next] blocks exactly when there is nothing to hand out and
    more may come: the retry heap is empty, the channel holds no task,
    the channel is open and the context is live. *)
Theorem Next_blocks_iff {T : Type} `{!Task T} (q : QueueWithRetry T)
    (pick : nat → bool) (ctx : Context) :
  (∃ q', Next pick ctx q = Blocked q')
  ↔ retires q = [] ∧ fresh q = [] ∧ chan_closed (newTasks q) = false
    ∧ done ctx = false.
Proof.
  pose proof (Next_cases pick ctx q) as Hn.
  pose proof (popNoWait_recv_spec (buf (newTasks q))) as Hspec.
  destruct (retires q) as [|x h].
  - destruct (popNoWait_recv (buf (newTasks q))) as [[t|] b'].
    + rewrite Hn. destruct Hspec as [Hb _]. unfold fresh. rewrite Hb.
      split; [by intros [? ?]|]. by intros (_ & ? & _).
    + cbn in Hn. rewrite Hn. destruct Hspec as [Hb _]. unfold fresh.
      destruct (chan_closed (newTasks q)), (done ctx); cbn.
      1-3: split; [by intros [? ?]|by intros (_ & _ & ? & ?)].
      split; [done|]. intros _. by eexists.
  - destruct Hn as (t & r & _ & ->). split; [by intros [? ?]|].
    by intros [? _].
Qed.

(** X14.  [Next] neither loses nor invents a task, and never panics: a
    returned task is reported with [ok = true] and is taken out of the
    tasks the queue held; [(nil, false)] and blocking only happen when the
    queue holds no task. *)
Theorem Next_conserves_tasks {T : Type} `{!Task T} (q : QueueWithRetry T)
    (pick : nat → bool) (ctx : Context) :
  match Next pick ctx q with
  | Returned (Some t, ok) q' => ok = true ∧ queued q ≡ₚ t :: queued q'
  | Returned (None, ok) q' => ok = false ∧ queued q = [] ∧ queued q' = []
  | Blocked q' => queued q = [] ∧ queued q' = []
  | Panicked _ => False
  end.
Proof.
  pose proof (Next_cases pick ctx q) as Hn.
  pose proof (popNoWait_recv_spec (buf (newTasks q))) as Hspec.
  unfold queued, fresh.
  destruct (retires q) as [|x h] eqn:E.
  - destruct (popNoWait_recv (buf (newTasks q))) as [[t|] b'].
    + rewrite Hn. destruct Hspec as [Hb _]. cbn. rewrite E, Hb. done.
    + cbn in Hn. rewrite Hn. destruct Hspec as [Hb _].
      destruct (chan_closed (newTasks q) || done ctx); cbn; by rewrite E, Hb.
  - destruct Hn as (t & r & Hpop & ->). cbn. split; [done|].
    destruct (heap_Pop_Permutation (x :: h)) as (t' & r' & Hpop' & Hperm & _);
      [done|].
    rewrite Hpop in Hpop'. simplify_eq.
    exact (Permutation_app_tail _ Hperm).
Qed.

(** X15.  With an empty retry heap, [Next] hands out the fresh tasks in
    the order [Add] put them into the channel, skipping the markers. *)
Theorem Next_fifo {T : Type} `{!Task T} (q : QueueWithRetry T)
    (pick : nat → bool) (ctx : Context) :
  retires q = [] →
  ∃ q', Next_many pick ctx (length (fresh q)) q = (fresh q, q')
    ∧ retires q' = [] ∧ fresh q' = [].
Proof.
  intros Hr.
  destruct (Next_many_fresh pick ctx _ q Hr eq_refl) as (q' & Hm & Hr' & Hf' & _).
  by exists q'.
Qed.

Lemma Next_fifo_witness :
  let t1 := mkTxTask 9 0 1 0 in
  let t2 := mkTxTask 4 1 1 0 in
  let q := mkQueue false (mkChan [Some t1; None; Some t2] 4 false) [] 4 in
  ∃ q', Next_many (λ _, false) (mkContext false) 2 q = ([t1; t2], q')
    ∧ retires q' = [] ∧ fresh q' = [].
Proof.
  intros t1 t2 q.
  exact (Next_fifo q (λ _, false) (mkContext false) eq_refl).
Defined.

(** X16.  In every state a [QueueWithRetry] can reach, the [closed] flag
    agrees with the channel and the buffer stays within the capacity; so
    [ReTry] never panics or blocks (it adds the task to the retry heap and
    at most a marker to the channel) and [Close] never panics. *)
Theorem queue_reachable_safe {T : Type} `{!Task T} (q : QueueWithRetry T) :
  queue_reachable q →
  queue_inv q
  ∧ (Z.of_nat (NewTasksLen q) ≤ Capacity q)%Z
  ∧ (∀ t, ∃ q', ReTry q t = Ok q'
        ∧ retires q' ≡ₚ t :: retires q ∧ is_heap (retires q')
        ∧ fresh q' = fresh q)
  ∧ (∃ q', Close q = Ok q' ∧ closed q' = true ∧ queued q' = queued q).
Proof.
  intros Hr. pose proof (queue_reachable_inv q Hr) as Hinv.
  split; [done|]. split.
  { destruct Hinv as (_ & Hlen & Hcap). unfold NewTasksLen, Capacity. lia. }
  split.
  - intros t. destruct (ReTry_Ok q t Hinv) as (q' & HRe & Hret & Hf & _).
    exists q'. split; [done|]. rewrite Hret.
    split; [apply heap_Push_Permutation|]. split; [|done].
    by apply heap_Push_is_heap, queue_reachable_is_heap.
  - destruct Hinv as (Hc & _). unfold Close, close.
    destruct (closed q) eqn:Eq; [by exists q|].
    rewrite <-Hc. cbn. eexists. by repeat split.
Qed.

Lemma queue_reachable_safe_witness :
  let t := mkTxTask 7 0 1 0 in
  ∃ q : QueueWithRetry TxTask,
    queue_reachable q ∧ closed q = true
    ∧ (∃ q', ReTry q t = Ok q' ∧ retires q' ≡ₚ t :: retires q)
    ∧ ∃ q', Close q = Ok q'.
Proof.
  intros t.
  assert (∃ q : QueueWithRetry TxTask, queue_reachable q ∧ closed q = true)
    as (q & Hr & Hc).
  { pose proof (queue_reachable_new (T := TxTask) 2 _ eq_refl) as H0.
    pose proof (queue_reachable_step _ _ H0
      (step_Close (mkQueue false (mkChan [] (Z.to_nat 2) false) [] 2)
         (mkQueue true (mkChan [] (Z.to_nat 2) true) [] 2) eq_refl))
      as H1.
    eexists. split; [exact H1|reflexivity]. }
  exists q. split; [exact Hr|]. split; [exact Hc|].
  destruct (queue_reachable_safe q Hr) as (_ & _ & HRe & HCl).
  split.
  - destruct (HRe t) as (q' & H1 & H2 & _). exists q'. by split.
  - destruct HCl as (q' & H1 & _). by exists q'.
Defined.

(** X17.  After [Close], on a queue the calls can reach: [Add] with a
    live context panics on the closed channel instead of enqueuing,
    [ReTry] still accepts the task but leaves the channel alone, and
    [Next] never blocks. *)
Theorem after_Close {T : Type} `{!Task T} (q q' : QueueWithRetry T) :
  queue_reachable q → Close q = Ok q' →
  (∀ pick_done ctx t, done ctx = false →
     Add pick_done ctx q' t = Panicked SendOnClosedChannel)
  ∧ (∀ t, ReTry q' t = Ok (set_retires q' (heap_Push (retires q') t)))
  ∧ (∀ pick ctx q'', Next pick ctx q' ≠ Blocked q'').
Proof.
  intros Hr HCl.
  assert (queue_reachable q') as Hr'.
  { eapply queue_reachable_step; [done|]. by apply step_Close. }
  destruct (queue_reachable_inv q' Hr') as (Hc & _).
  pose proof (Close_closed q q' HCl) as Hcl. rewrite Hcl in Hc.
  split; [|split].
  - intros pick_done ctx t Hd. unfold Add, send, send_ready.
    by rewrite Hd, <-Hc.
  - intros t. unfold ReTry. cbn. by rewrite Hcl.
  - intros pick ctx q'' Hb.
    pose proof (Next_Blocked_open pick ctx q' q'' Hb) as Hopen. congruence.
Qed.

Lemma after_Close_witness :
  let t := mkTxTask 7 0 1 0 in
  ∃ q' : QueueWithRetry TxTask,
    closed q' = true
    ∧ Add false (mkContext false) q' t = Panicked SendOnClosedChannel
    ∧ ReTry q' t = Ok (set_retires q' (heap_Push (retires q') t)).
Proof.
  intros t.
  pose proof (queue_reachable_new (T := TxTask) 2 _ eq_refl) as H0.
  destruct (after_Close _ (mkQueue true (mkChan [] 2 true) [] 2) H0 eq_refl)
    as (HAdd & HRe & _).
  eexists. split; [|split; [exact (HAdd false (mkContext false) t eq_refl)|exact (HRe t)]].
  reflexivity.
Defined.

End QueueExtras.

(** * Further properties of the results queue *)

Module ResultsMoreFacts.

Import Exec ExecCalls HeapFacts QueueFacts QueueMoreFacts.

Lemma foldl_heap_Push_Permutation {T : Type} `{!Task T} (ts r : list T) :
  foldl heap_Push r ts ≡ₚ r ++ ts.
Proof.
  revert r. induction ts as [|t ts IH]; intros r; cbn.
  { by rewrite app_nil_r. }
  rewrite IH, heap_Push_Permutation. cbn. by rewrite Permutation_middle.
Qed.

Lemma foldl_heap_Push_is_heap {T : Type} `{!Task T} (ts r : list T) :
  is_heap r → is_heap (foldl heap_Push r ts).
Proof.
  revert r. induction ts as [|t ts IH]; intros r Hr; cbn; [done|].
  by apply IH, heap_Push_is_heap.
Qed.

(** How [drainNoBlock]'s loop ends. *)
Lemma drainNoBlock_loop_ends pick k ctx q (b : list (option Result))
    (r : list Result) :
  let res := drainNoBlock_loop pick k ctx q b r in
  (res.1 = None ∨ (res.1 = Some Canceled ∧ done ctx = true))
  ∧ (done ctx = false →
     buf (resultCh res.2) = [] ∨ (limit q < Z.of_nat (Len (results res.2)))%Z)
  ∧ (Z.of_nat (Len (results res.2)) ≤ Z.max (Z.of_nat (Len r)) (limit q) + 1)%Z.
Proof.
  revert k r. induction b as [|x b IH]; intros k r; cbn [drainNoBlock_loop].
  - unfold ctx_Err.
    destruct (chan_closed (resultCh q)), (done ctx) eqn:Hd; cbn;
      try destruct (pick k); cbn; (split; [by auto|]); (split; [by auto|]);
      unfold Len; lia.
  - unfold ctx_Err. destruct (done ctx) eqn:Hd; cbn [andb].
    + destruct (pick k); cbn.
      { split; [by auto|]. split; [done|]. unfold Len. lia. }
      destruct x as [t|]; [|apply IH].
      destruct (Z.ltb_spec (limit q) (Z.of_nat (Len (heap_Push r t)))); cbn.
      * split; [by auto|]. split; [done|].
        unfold Len in *. rewrite heap_Push_length in *. lia.
      * destruct (IH (S k) (heap_Push r t)) as (H1 & H2 & H3).
        split; [done|]. split; [done|].
        unfold Len in *. rewrite heap_Push_length in *. lia.
    + destruct x as [t|]; [|apply IH].
      destruct (Z.ltb_spec (limit q) (Z.of_nat (Len (heap_Push r t)))); cbn.
      * split; [by auto|]. split; [by auto|].
        unfold Len in *. rewrite heap_Push_length in *. lia.
      * destruct (IH (S k) (heap_Push r t)) as (H1 & H2 & H3).
        split; [done|]. split; [done|].
        unfold Len in *. rewrite heap_Push_length in *. lia.
Qed.

(** With room below the limit the loop moves the whole buffer. *)
Lemma drainNoBlock_loop_all pick k ctx q (ts r : list Result) :
  done ctx = false →
  (Z.of_nat (length r + length ts) ≤ limit q + 1)%Z →
  drainNoBlock_loop pick k ctx q (Some <$> ts) r =
    (None, set_results (set_resultCh q (set_buf (resultCh q) []))
             (foldl heap_Push r ts)).
Proof.
  intros Hd. revert k r. induction ts as [|t ts IH]; intros k r Hlen;
    cbn [drainNoBlock_loop fmap list_fmap foldl]; rewrite Hd.
  { by destruct (chan_closed (resultCh q)). }
  cbn [andb].
  destruct (Z.ltb_spec (limit q) (Z.of_nat (Len (heap_Push r t)))) as [Hlt|Hge].
  - unfold Len in Hlt. rewrite heap_Push_length in Hlt. simpl in Hlen.
    destruct ts; [done|]. simpl in Hlen. lia.
  - apply IH. rewrite heap_Push_length. simpl in Hlen. lia.
Qed.

Lemma Add_all_room pick_done k ctx q (rs : list Result) :
  done ctx = false → chan_closed (resultCh q) = false →
  (length (buf (resultCh q)) + length rs ≤ cap (resultCh q))%nat →
  Add_all pick_done k ctx q rs =
    Some (set_resultCh q (set_buf (resultCh q) (buf (resultCh q) ++ (Some <$> rs)))).
Proof.
  intros Hd. revert k q. induction rs as [|r rs IH]; intros k q Hopen Hlen.
  { cbn. rewrite app_nil_r. by destruct q as [? ? [] ? ?]. }
  cbn [Add_all]. unfold ResultsQueue_Add, send, send_ready.
  rewrite Hd, Hopen. cbn -[Nat.ltb].
  destruct (Nat.ltb_spec (length (buf (resultCh q))) (cap (resultCh q)));
    [|simpl in Hlen; lia].
  rewrite IH; cbn; [|done|rewrite length_app; simpl in *; lia].
  unfold set_resultCh, set_buf. cbn. by rewrite Hopen, <-app_assoc.
Qed.

Lemma drainNoBlock_held pick ctx q task :
  held (drainNoBlock pick ctx q task).2 ≡ₚ option_list task ++ held q.
Proof.
  unfold drainNoBlock, held.
  rewrite drainNoBlock_loop_Permutation.
  destruct task as [t|]; cbn; [|done].
  by rewrite heap_Push_Permutation.
Qed.

Lemma Drain_receive_held pick ctx q :
  match Drain_receive pick ctx q with
  | Returned e q' =>
      held q' ≡ₚ held q ∧ (e = None ∨ done ctx = true)
  | _ => False
  end.
Proof.
  unfold Drain_receive. destruct (buf (resultCh q)) as [|x b] eqn:Hb.
  { split; [done|by left]. }
  pose proof (drainNoBlock_held pick ctx
                (set_resultCh q (set_buf (resultCh q) b)) x) as Hh.
  pose proof (drainNoBlock_loop_ends pick 0 ctx
                (set_resultCh q (set_buf (resultCh q) b)) b
                (match x with Some t => heap_Push (results q) t
                 | None => results q end)) as (He & _).
  unfold drainNoBlock in *. cbn in *.
  destruct (drainNoBlock_loop _ _ _ _ _ _) as [e q']. cbn in *.
  split.
  - rewrite Hh. unfold held. cbn. rewrite Hb.
    destruct x as [t|]; cbn; [|done]. apply Permutation_middle.
  - destruct He as [?|[_ ?]]; by auto.
Qed.

Lemma DropResults_loop_live pick k ctx cl (b calls : list (option Result)) :
  done ctx = false →
  DropResults_loop pick k ctx cl b calls = (false, [], calls ++ b).
Proof.
  intros Hd. revert k calls. induction b as [|x b IH]; intros k calls;
    cbn [DropResults_loop]; rewrite Hd.
  { rewrite app_nil_r. by destruct cl. }
  cbn [andb]. rewrite IH. by rewrite <-app_assoc.
Qed.

Lemma DropResults_heap_pop_many (n : nat) (h : list Result)
    (calls : list (option Result)) :
  length h = n →
  DropResults_heap n h calls =
    match pop_many n h with
    | Ok (out, h') => Ok (calls ++ (Some <$> out), h')
    | Panic p => Panic p
    end.
Proof.
  revert h calls. induction n as [|n IH]; intros h calls Hn.
  { cbn. by rewrite app_nil_r. }
  destruct h as [|x h0]; [done|].
  destruct (heap_Pop_Permutation (x :: h0)) as (y & h' & Hpop & Hperm & _);
    [done|].
  cbn [DropResults_heap pop_many Len length Nat.ltb Nat.leb].
  rewrite Hpop. cbn.
  rewrite IH.
  - destruct (pop_many n h') as [[out h'']|]; cbn; [|done].
    by rewrite <-app_assoc.
  - apply Permutation_length in Hperm. simpl in *. lia.
Qed.

(** The flags of the queue as [drainNoBlock]'s loop leaves them. *)
Lemma drainNoBlock_loop_frame pick k ctx q (b : list (option Result))
    (r : list Result) :
  let q' := (drainNoBlock_loop pick k ctx q b r).2 in
  results_closed q' = results_closed q
  ∧ ticker_stopped q' = ticker_stopped q
  ∧ chan_closed (resultCh q') = chan_closed (resultCh q)
  ∧ cap (resultCh q') = cap (resultCh q)
  ∧ (length (buf (resultCh q')) ≤ length b)%nat.
Proof.
  revert k r. induction b as [|x b IH]; intros k r; cbn [drainNoBlock_loop].
  - destruct (chan_closed (resultCh q)) eqn:E;
      [destruct (done ctx && pick k)|destruct (done ctx)];
      cbn; rewrite ?E; by repeat split.
  - destruct (done ctx && pick k); [cbn; by repeat split|].
    destruct x as [t|].
    + destruct (_ <? _)%Z.
      * cbn. repeat split; lia.
      * destruct (IH (S k) (heap_Push r t)) as (? & ? & ? & ? & ?).
        repeat split; try done. simpl. lia.
    + destruct (IH (S k) r) as (? & ? & ? & ? & ?).
      repeat split; try done. simpl. lia.
Qed.

Lemma drainNoBlock_inv pick ctx q task :
  results_inv q → results_inv (drainNoBlock pick ctx q task).2.
Proof.
  intros (Hc & Ht & Hlen). unfold drainNoBlock.
  match goal with |- context [drainNoBlock_loop _ _ _ _ _ ?r] =>
    destruct (drainNoBlock_loop_frame pick 0 ctx q (buf (resultCh q)) r)
      as (H1 & H2 & H3 & H4 & H5)
  end.
  unfold results_inv. rewrite H1, H2, H3, H4. split; [done|]. split; [done|lia].
Qed.

Lemma Drain_inv ticks pick_done pick ctx q e q' :
  Drain ticks pick_done pick ctx q = Returned e q' →
  results_inv q → results_inv q'.
Proof.
  intros HD Hinv.
  assert (Drain_no_tick pick_done pick ctx q = Returned e q' → results_inv q')
    as Hno.
  { assert (Drain_receive pick ctx q = Returned e q' → results_inv q') as Hrecv.
    { unfold Drain_receive. destruct (buf (resultCh q)) as [|x b] eqn:Hb;
        [by intros [= _ <-]|].
      pose proof (drainNoBlock_inv pick ctx
        (set_resultCh q (set_buf (resultCh q) b)) x) as Hd.
      destruct (drainNoBlock _ _ _ _) as [e1 q1]. intros [= _ <-].
      apply Hd. destruct Hinv as (Hc & Ht & Hlen).
      split; [done|]. split; [done|]. cbn. rewrite Hb in Hlen. simpl in Hlen. lia. }
    unfold Drain_no_tick.
    destruct (done ctx), (recv_ready (resultCh q)); try destruct pick_done;
      try (intros; by simplify_eq); apply Hrecv. }
  induction ticks as [|ticks IH]; cbn [Drain] in HD; [by apply Hno|].
  destruct (ticker_stopped q); [by apply Hno|].
  destruct (0 <? Len (results q))%nat; [by simplify_eq|]. by apply IH.
Qed.

Lemma results_step_inv q q' : results_step q q' → results_inv q → results_inv q'.
Proof.
  intros Hstep Hinv. destruct Hstep as
    [pick ctx q task e q' HAdd|pick ctx q task e q' Hdrain
    |ticks pick_done pick ctx q e q' HDrain|q t
    |q r q' Hpop|q q' HClose]; [| |by eapply Drain_inv|..].
  - destruct Hinv as (Hc & Ht & Hlen).
    unfold ResultsQueue_Add, send, send_ready in HAdd.
    destruct (chan_closed (resultCh q)) eqn:Ecl;
      destruct (done ctx); cbn -[Nat.ltb] in HAdd;
      try destruct (Nat.ltb_spec (length (buf (resultCh q))) (cap (resultCh q)));
      try destruct pick; simplify_eq.
    all: unfold results_inv; cbn; rewrite ?Ecl, ?length_app; simpl.
    all: split; [done|]; split; [done|lia].
  - pose proof (drainNoBlock_inv pick ctx q task Hinv) as Hd.
    by rewrite Hdrain in Hd.
  - done.
  - unfold PopNext in Hpop.
    destruct (heap_Pop (results q)) as [[x h]|]; cbn in Hpop; by simplify_eq.
  - unfold ResultsQueue_Close, close in HClose.
    destruct (results_closed q) eqn:Eq; [by simplify_eq|].
    destruct Hinv as (Hc & Ht & Hlen). rewrite Eq in Hc.
    rewrite <-Hc in HClose. cbn in HClose. simplify_eq. by repeat split.
Qed.

Lemma results_reachable_inv q : results_reachable q → results_inv q.
Proof.
  induction 1 as [c l q Hnew|q q' _ IH Hstep].
  - unfold NewResultsQueue, make_chan in Hnew.
    destruct (Z.ltb_spec c 0); [done|]. cbn in Hnew. simplify_eq.
    split; [done|]. split; [done|]. simpl. lia.
  - by eapply results_step_inv.
Qed.

End ResultsMoreFacts.

Module ResultsExtras.

Import Exec ExecCalls HeapFacts QueueFacts QueueMoreFacts ResultsMoreFacts.

(** X18.  [HasNext] is false exactly when [PopNext] would panic, and
    [Has(n)] is true exactly when [PopNext] would return a result with
    [TxNum] [n]; in a state the calls can reach, that result has the least
    [TxNum] of the heap. *)
Theorem Has_tells_PopNext (q : ResultsQueue) (n : N) :
  (HasNext q = false ↔ PopNext q = Panic IndexOutOfRange)
  ∧ (Has q n = true ↔
     ∃ r q', PopNext q = Ok (r, q') ∧ state.TxNum (Version r) = n)
  ∧ (results_reachable q → Has q n = true →
     ∀ y, y ∈ results q → (n ≤ state.TxNum (Version y))%N).
Proof.
  unfold HasNext, Has, PopNext.
  destruct (results q) as [|x h] eqn:E.
  { cbn. split; [done|]. split; [|done].
    split; [done|]. by intros (? & ? & ? & _). }
  destruct (heap_Pop_head x h) as (h' & Hpop & _). rewrite Hpop. cbn.
  split; [done|]. split.
  - rewrite N.eqb_eq. split.
    + intros Hn. by exists x, (set_results q h').
    + by intros (r & q' & [= <- _] & Hn).
  - intros Hr Hn%N.eqb_eq y Hy. subst n.
    pose proof (results_reachable_is_heap q Hr) as Hh. rewrite E in Hh.
    destruct (heap_Pop_is_heap (x :: h) Hh) as (x' & h'' & Hpop' & _ & _ & Hmin);
      [done|].
    rewrite Hpop in Hpop'. simplify_eq. by apply Hmin.
Qed.

Lemma Has_tells_PopNext_witness :
  let r5 := mkResult (mkTxTask 5 0 1 0) None false in
  let r9 := mkResult (mkTxTask 9 1 1 0) None false in
  ∃ q, results_reachable q ∧ results q = [r5; r9] ∧ Has q 5 = true
    ∧ ∀ y, y ∈ results q → (5 ≤ state.TxNum (Version y))%N.
Proof.
  intros r5 r9.
  assert (∃ q, results_reachable q ∧ results q = [r5; r9] ∧ Has q 5 = true)
    as (q & Hr & Hres & HHas).
  { pose proof (results_reachable_new 4 2 _ eq_refl) as H0.
    pose proof (results_reachable_step _ _ H0 (rstep_Push _ r9)) as H1.
    pose proof (results_reachable_step _ _ H1 (rstep_Push _ r5)) as H2.
    eexists. split; [exact H2|]. by vm_compute. }
  exists q. split; [exact Hr|]. split; [exact Hres|]. split; [exact HHas|].
  exact (proj2 (proj2 (Has_tells_PopNext q 5)) Hr HHas).
Defined.

(** X19.  [drainNoBlock] loses no result: what was in the heap or in the
    channel (and the result passed in) is in the heap or in the channel
    afterwards.  It fails only with the context's error; with a live
    context it stops when the channel is empty or the heap has grown past
    the limit, and the heap never grows more than one past the larger of
    its starting size and the limit. *)
Theorem drainNoBlock_bounded (pick : nat → bool) (ctx : Context)
    (q : ResultsQueue) (task : option Result) :
  let res := drainNoBlock pick ctx q task in
  let start := (Len (results q) + length (option_list task))%nat in
  held res.2 ≡ₚ option_list task ++ held q
  ∧ (res.1 = None ∨ (res.1 = Some Canceled ∧ done ctx = true))
  ∧ (done ctx = false →
     buf (resultCh res.2) = [] ∨ (limit q < Z.of_nat (Len (results res.2)))%Z)
  ∧ (Z.of_nat (Len (results res.2)) ≤ Z.max (Z.of_nat start) (limit q) + 1)%Z
  ∧ (is_heap (results q) → is_heap (results res.2)).
Proof.
  intros res start. split; [apply drainNoBlock_held|].
  unfold res, start, drainNoBlock.
  match goal with |- context [drainNoBlock_loop _ _ _ _ _ ?r] =>
    destruct (drainNoBlock_loop_ends pick 0 ctx q (buf (resultCh q)) r)
      as (H1 & H2 & H3);
    pose proof (drainNoBlock_loop_is_heap pick 0 ctx q (buf (resultCh q)) r)
      as H4
  end.
  split; [done|]. split; [done|]. split.
  - destruct task as [t|]; cbn in *.
    + unfold Len in *. rewrite heap_Push_length in H3. lia.
    + unfold Len in *. lia.
  - intros Hh. apply H4. destruct task; [by apply heap_Push_is_heap|done].
Qed.

(** X20.  [Drain] never panics and loses no result; it fails only when
    the context is cancelled, and it blocks only with a live context on an
    open channel with an empty buffer, leaving the queue as it is. *)
Theorem Drain_conserves (ticks : nat) (pick_done : bool) (pick : nat → bool)
    (ctx : Context) (q : ResultsQueue) :
  match Drain ticks pick_done pick ctx q with
  | Returned e q' => held q' ≡ₚ held q ∧ (e = None ∨ done ctx = true)
  | Blocked q' =>
      q' = q ∧ done ctx = false ∧ buf (resultCh q) = []
      ∧ chan_closed (resultCh q) = false
  | Panicked _ => False
  end.
Proof.
  assert (match Drain_no_tick pick_done pick ctx q with
          | Returned e q' => held q' ≡ₚ held q ∧ (e = None ∨ done ctx = true)
          | Blocked q' =>
              q' = q ∧ done ctx = false ∧ buf (resultCh q) = []
              ∧ chan_closed (resultCh q) = false
          | Panicked _ => False
          end) as Hno.
  { unfold Drain_no_tick, recv_ready.
    pose proof (Drain_receive_held pick ctx q) as Hrecv.
    destruct (done ctx) eqn:Hd.
    - destruct (buf (resultCh q)) as [|x b] eqn:Hb.
      + destruct (chan_closed (resultCh q)); [|by auto].
        destruct pick_done; [by auto|].
        destruct (Drain_receive pick ctx q); [|done..].
        destruct Hrecv. by auto.
      + destruct pick_done; [by auto|].
        destruct (Drain_receive pick ctx q); [|done..].
        destruct Hrecv. by auto.
    - destruct (buf (resultCh q)) as [|x b] eqn:Hb.
      + destruct (chan_closed (resultCh q)) eqn:Hc; [|done].
        by destruct (Drain_receive pick ctx q).
      + by destruct (Drain_receive pick ctx q). }
  induction ticks as [|ticks IH]; cbn [Drain]; [done|].
  destruct (ticker_stopped q); [done|].
  destruct (0 <? Len (results q))%nat; [|done]. split; [done|by left].
Qed.

(** X21.  From producer to consumer: on a fresh results queue with a live
    context, [Add] of up to [resultChannelLimit] results (and no more than
    one above the heap limit) returns [nil] each time; one [Drain] then
    moves all of them to the heap, and [PopNext] hands them out in
    ascending [TxNum] order, whatever order they were added in. *)
Theorem Add_Drain_PopNext (c l : Z) (q0 : ResultsQueue) (rs : list Result)
    (ctx : Context) (pick_a : nat → bool) (ticks : nat) (pick_done : bool)
    (pick : nat → bool) :
  NewResultsQueue c l = Ok q0 → done ctx = false → rs ≠ [] →
  (Z.of_nat (length rs) ≤ c)%Z → (Z.of_nat (length rs) ≤ l + 1)%Z →
  ∃ q1 q2 out q3,
    Add_all pick_a 0 ctx q0 rs = Some q1
    ∧ ResultChLen q1 = length rs
    ∧ Drain ticks pick_done pick ctx q1 = Returned None q2
    ∧ ResultChLen q2 = 0%nat ∧ results q2 ≡ₚ rs
    ∧ PopNext_many (length rs) q2 = Ok (out, q3)
    ∧ out ≡ₚ rs
    ∧ StronglySorted
        (λ a b, (state.TxNum (Version a) ≤ state.TxNum (Version b))%N) out
    ∧ ResultsQueue_Len q3 = 0%nat.
Proof.
  intros Hnew Hd Hne Hc Hl.
  unfold NewResultsQueue, make_chan in Hnew.
  destruct (Z.ltb_spec c 0); [done|]. cbn in Hnew. simplify_eq.
  set (q0 := {| limit := l; results_closed := false;
                resultCh := mkChan [] (Z.to_nat c) false;
                ticker_stopped := false; results := [] |}).
  pose proof (Add_all_room pick_a 0 ctx q0 rs Hd eq_refl) as HAdd.
  cbn in HAdd. specialize (HAdd ltac:(lia)).
  eexists. 
  destruct rs as [|r rs]; [done|].
  assert (∀ ticks q1,
            q1 = set_resultCh q0 (set_buf (resultCh q0) (Some <$> r :: rs)) →
            Drain ticks pick_done pick ctx q1 =
              Returned None
                (set_results (set_resultCh q0 (set_buf (resultCh q0) []))
                   (foldl heap_Push (heap_Push [] r) rs))) as HDrain.
  { intros tk q1 ->.
    assert (Drain_no_tick pick_done pick ctx
              (set_resultCh q0 (set_buf (resultCh q0) (Some <$> r :: rs))) =
            Returned None
              (set_results (set_resultCh q0 (set_buf (resultCh q0) []))
                 (foldl heap_Push (heap_Push [] r) rs))) as Hno.
    { unfold Drain_no_tick, recv_ready, Drain_receive, drainNoBlock.
      rewrite Hd. cbn [fmap list_fmap buf set_resultCh set_buf resultCh q0 results].
      rewrite drainNoBlock_loop_all; [done|done|].
      rewrite heap_Push_length. cbn [limit set_resultCh q0 length] in *. lia. }
    induction tk as [|tk IH]; cbn [Drain]; [done|]. cbn. exact IH. }
  eexists. 
  assert (foldl heap_Push (heap_Push [] r) rs ≡ₚ r :: rs) as Hperm.
  { etrans; [apply foldl_heap_Push_Permutation|].
    exact (Permutation_app_tail rs (heap_Push_Permutation [] r)). }
  assert (is_heap (foldl heap_Push (heap_Push [] r) rs)) as Hheap.
  { apply foldl_heap_Push_is_heap, heap_Push_is_heap, is_heap_nil. }
  destruct (pop_many_sorted (length (r :: rs)) _ Hheap)
    as (out & h' & Hpop & Hperm' & Hlen & _ & Hsorted & _).
  { apply Permutation_length in Hperm. lia. }
  exists out. eexists.
  split; [exact HAdd|]. split; [unfold ResultChLen; cbn; by rewrite length_fmap|].
  split; [by apply HDrain|]. split; [done|]. split; [done|].
  assert (h' = []) as ->.
  { apply Permutation_length in Hperm, Hperm'.
    rewrite length_app in Hperm'. apply nil_length_inv.
    simpl in *. lia. }
  rewrite app_nil_r in Hperm'.
  split; [rewrite PopNext_many_pop_many; cbn [results set_results]; by rewrite Hpop|].
  split; [by rewrite <-Hperm', Hperm|]. split; [done|]. done.
Qed.

Lemma Add_Drain_PopNext_witness :
  let r5 := mkResult (mkTxTask 5 0 1 0) None false in
  let r9 := mkResult (mkTxTask 9 1 1 0) None false in
  ∃ q0 q1 q2 out q3,
    NewResultsQueue 8 1 = Ok q0
    ∧ Add_all (λ _, false) 0 (mkContext false) q0 [r9; r5] = Some q1
    ∧ Drain 1 false (λ _, false) (mkContext false) q1 = Returned None q2
    ∧ PopNext_many 2 q2 = Ok (out, q3)
    ∧ out ≡ₚ [r9; r5].
Proof.
  intros r5 r9.
  destruct (Add_Drain_PopNext 8 1 _ [r9; r5] (mkContext false) (λ _, false)
              1 false (λ _, false) eq_refl eq_refl)
    as (q1 & q2 & out & q3 & HAdd & _ & HDrain & _ & _ & HPop & Hperm & _);
    [done|simpl; lia|simpl; lia|].
  eexists _, q1, q2, out, q3. split; [reflexivity|]. split; [exact HAdd|].
  split; [exact HDrain|]. split; [exact HPop|exact Hperm].
Defined.

(** X22.  [DropResults] with a live context hands to the callback first
    everything buffered in the channel, in arrival order, and then the
    results of the heap in ascending [TxNum] order, leaving both empty;
    when the cancelled-context case is taken at once it drops nothing. *)
Theorem DropResults_drops_all (pick : nat → bool) (ctx : Context)
    (q : ResultsQueue) :
  is_heap (results q) →
  (done ctx = false →
   ∃ out q',
     DropResults pick ctx q = Ok (buf (resultCh q) ++ (Some <$> out), q')
     ∧ out ≡ₚ results q
     ∧ StronglySorted
         (λ a b, (state.TxNum (Version a) ≤ state.TxNum (Version b))%N) out
     ∧ results q' = [] ∧ buf (resultCh q') = [])
  ∧ (done ctx = true → pick 0%nat = true →
     ∃ q', DropResults pick ctx q = Ok ([], q')
       ∧ results q' = results q ∧ buf (resultCh q') = buf (resultCh q)).
Proof.
  intros Hh. split.
  - intros Hd. unfold DropResults.
    rewrite DropResults_loop_live by done. cbn.
    rewrite DropResults_heap_pop_many by done.
    destruct (pop_many_sorted (length (results q)) (results q) Hh)
      as (out & h' & Hpop & Hperm & Hlen & _ & Hsorted & _); [done|].
    unfold Len. rewrite Hpop. cbn.
    assert (h' = []) as ->.
    { apply Permutation_length in Hperm. rewrite length_app in Hperm.
      apply nil_length_inv. lia. }
    rewrite app_nil_r in Hperm.
    exists out. eexists. split; [done|]. by repeat split.
  - intros Hd Hp. unfold DropResults.
    destruct (buf (resultCh q)) as [|x b] eqn:Hb; cbn [DropResults_loop].
    + rewrite Hd, Hp. destruct (chan_closed (resultCh q)); cbn;
        eexists; (split; [done|]); by cbn.
    + rewrite Hd, Hp. cbn. eexists. split; [done|]. by cbn.
Qed.

Lemma DropResults_drops_all_witness :
  let r5 := mkResult (mkTxTask 5 0 1 0) None false in
  let r9 := mkResult (mkTxTask 9 1 1 0) None false in
  let r2 := mkResult (mkTxTask 2 2 1 0) None false in
  let q := mkResults 4 false (mkChan [Some r2; None] 8 false) false [r5; r9] in
  ∃ out q', DropResults (λ _, false) (mkContext false) q
            = Ok ([Some r2; None] ++ (Some <$> out), q')
    ∧ out ≡ₚ [r5; r9] ∧ results q' = [] ∧ buf (resultCh q') = [].
Proof.
  intros r5 r9 r2 q.
  assert (is_heap (results q)) as Hh.
  { intros c Hc. simpl in Hc. assert (c = 1%nat) as -> by lia. by vm_compute. }
  destruct (proj1 (DropResults_drops_all (λ _, false) (mkContext false) q Hh)
              eq_refl) as (out & q' & HDrop & Hperm & _ & Hres & Hbuf).
  exists out, q'. split; [exact HDrop|]. split; [exact Hperm|].
  split; [exact Hres|exact Hbuf].
Defined.

(** X26.  In every state a [ResultsQueue] can reach, the [closed] flag
    agrees with the channel, a closed queue has its ticker stopped, and
    the channel holds no more than its capacity.  So [Close] never panics
    and keeps the results; on a closed queue [Add] with a live context
    panics instead of enqueuing, and [Drain] with an empty channel returns
    at once and leaves the queue as it is. *)
Theorem results_reachable_safe (q : ResultsQueue) :
  results_reachable q →
  results_inv q
  ∧ (∃ q', ResultsQueue_Close q = Ok q' ∧ results_closed q' = true
        ∧ ticker_stopped q' = true ∧ held q' = held q)
  ∧ (results_closed q = true →
     (∀ pick_done ctx task, done ctx = false →
        ResultsQueue_Add pick_done ctx q task = Panicked SendOnClosedChannel)
     ∧ (buf (resultCh q) = [] →
        ∀ ticks pick_done pick ctx,
          ∃ e, Drain ticks pick_done pick ctx q = Returned e q
            ∧ (e = None ∨ done ctx = true))).
Proof.
  intros Hr. pose proof (results_reachable_inv q Hr) as Hinv.
  split; [done|]. destruct Hinv as (Hc & Ht & Hlen). split; [|split].
  - unfold ResultsQueue_Close, close.
    destruct (results_closed q) eqn:Eq; [exists q; by auto|].
    rewrite <-Hc. cbn. eexists. by repeat split.
  - intros pick_done ctx task Hd. unfold ResultsQueue_Add, send, send_ready.
    by rewrite Hd, <-Hc, H.
  - intros Hb ticks pick_done pick ctx.
    assert (∃ e, Drain_no_tick pick_done pick ctx q = Returned e q
                 ∧ (e = None ∨ done ctx = true)) as Hno.
    { unfold Drain_no_tick, recv_ready, Drain_receive. rewrite Hb, <-Hc, H.
      destruct (done ctx); [destruct pick_done|]; eexists; by auto. }
    destruct ticks as [|ticks]; cbn [Drain]; [done|]. by rewrite (Ht H).
Qed.

Lemma results_reachable_safe_witness :
  ∃ q, results_reachable q ∧ results_closed q = true
    ∧ (∃ q', ResultsQueue_Close q = Ok q')
    ∧ ResultsQueue_Add false (mkContext false) q None
      = Panicked SendOnClosedChannel.
Proof.
  assert (∃ q, results_reachable q ∧ results_closed q = true) as (q & Hr & Hc).
  { pose proof (results_reachable_new 2 1 _ eq_refl) as H0.
    pose proof (results_reachable_step _ _ H0
      (rstep_Close (mkResults 1 false (mkChan [] (Z.to_nat 2) false) false [])
         (mkResults 1 true (mkChan [] (Z.to_nat 2) true) true []) eq_refl))
      as H1.
    eexists. split; [exact H1|reflexivity]. }
  exists q. split; [exact Hr|]. split; [exact Hc|].
  destruct (results_reachable_safe q Hr) as (_ & (q' & HCl & _) & Hclosed).
  split; [by exists q'|].
  exact (proj1 (Hclosed Hc) false (mkContext false) None eq_refl).
Defined.

End ResultsExtras.

(** * The worker loop *)

Module WorkerExtras.

Import Exec ExecCalls HeapFacts QueueFacts QueueMoreFacts ResultsMoreFacts.

Lemma Run_closed_queue {W : Type}
    (RunTxTask : W → option TxTask → result (Result * W)) (n : nat) :
  ∀ (rw : Worker) (pick_next : nat → nat → bool) (pick_add : nat → bool)
    (k : nat) (sorted h' : list TxTask) (rs : list Result) (w' : W),
  (length (retires (worker_in rw)) + length (buf (newTasks (worker_in rw))))%nat
    = n →
  done (worker_ctx rw) = false →
  chan_closed (newTasks (worker_in rw)) = true →
  chan_closed (resultCh (worker_resultCh rw)) = false →
  (length (buf (resultCh (worker_resultCh rw)))
   + length (queued (worker_in rw)) ≤ cap (resultCh (worker_resultCh rw)))%nat →
  pop_many (Len (retires (worker_in rw))) (retires (worker_in rw))
    = Ok (sorted, h') →
  run_tasks RunTxTask (worker_rest rw) (sorted ++ fresh (worker_in rw))
    = Ok (rs, w') →
  ∃ rw',
    Run RunTxTask (S (length (queued (worker_in rw)))) pick_next pick_add k rw
      = Some (Returned None rw')
    ∧ worker_rest rw' = w'
    ∧ buf (resultCh (worker_resultCh rw'))
      = buf (resultCh (worker_resultCh rw)) ++ (Some <$> rs)
    ∧ results (worker_resultCh rw') = results (worker_resultCh rw)
    ∧ queued (worker_in rw') = [].
Proof.
  induction n as [n IH] using lt_wf_ind.
  intros [q ctx rq w] pick_next pick_add k sorted h' rs w'.
  cbn [worker_in worker_ctx worker_resultCh worker_rest].
  intros Hn Hd Hcl Hopen Hroom Hpop Hrun.
  pose proof (Next_cases (pick_next k) ctx q) as Hnext.
  pose proof (popNoWait_recv_spec (buf (newTasks q))) as Hspec.
  assert (∀ res,
            (length (buf (resultCh rq)) < cap (resultCh rq))%nat →
            ResultsQueue_Add (pick_add k) ctx rq (Some res) =
              Returned None
                (set_resultCh rq
                   (mkChan (buf (resultCh rq) ++ [Some res]) (cap (resultCh rq))
                      false))) as HAdd.
  { intros res Hlt. unfold ResultsQueue_Add, send, send_ready.
    rewrite Hd, Hopen. cbn -[Nat.ltb].
    by destruct (Nat.ltb_spec (length (buf (resultCh rq))) (cap (resultCh rq)));
      [|lia]. }
  unfold queued, fresh in Hroom, Hrun |- *. rewrite length_app in Hroom.
  destruct (retires q) as [|x h] eqn:Er.
  - destruct (popNoWait_recv (buf (newTasks q))) as [[t|] b'] eqn:Erecv.
    + destruct Hspec as [Hb Hlt]. rewrite Hb in Hroom, Hrun |- *.
      cbn in Hpop. simplify_eq.
      cbn [app run_tasks] in Hrun.
      destruct (RunTxTask w (Some t)) as [[res w1]|] eqn:Et; [|done].
      cbn in Hrun.
      destruct (run_tasks RunTxTask w1 (omap id b')) as [[rs' w2]|] eqn:Ets;
        [|done].
      cbn in Hrun. simplify_eq. cbn [length] in Hroom.
      pose proof (IH (length b') ltac:(simpl; lia)
                    (mkWorker (set_newTasks q (set_buf (newTasks q) b')) ctx
                       (set_resultCh rq
                          (mkChan (buf (resultCh rq) ++ [Some res])
                             (cap (resultCh rq)) false)) w1)
                    pick_next pick_add (S k) [] [] rs' w') as HIH.
      unfold queued, fresh in HIH. cbn in HIH. rewrite Er in HIH.
      cbn in HIH. rewrite length_app in HIH. cbn in HIH.
      destruct HIH as (rw' & HRun & Hw & Hbuf & Hres & Hq);
        [done|done|done|done|lia|done|done|].
      exists rw'. cbn [Run app length].
      cbn [worker_in worker_ctx worker_resultCh worker_rest].
      rewrite Hnext, Et, HAdd by lia. rewrite HRun.
      split; [done|]. split; [done|].
      rewrite Hbuf, <-app_assoc. by repeat split.
    + destruct Hspec as [Hb _]. rewrite Hb in Hrun |- *.
      cbn in Hpop. simplify_eq. cbn in Hrun. simplify_eq.
      cbn in Hnext. rewrite Hcl in Hnext. cbn in Hnext.
      eexists. cbn [Run length app worker_in worker_ctx worker_rest
                      worker_resultCh].
      rewrite Hnext. split; [done|]. cbn. rewrite app_nil_r, Er.
      by repeat split.
  - destruct Hnext as (t & r & Hpop1 & Hnext).
    destruct (heap_Pop_Permutation (x :: h)) as (t' & r' & Hpop1' & Hperm & _);
      [done|].
    rewrite Hpop1 in Hpop1'. simplify_eq.
    assert (length r' = length h) as Hlen.
    { apply Permutation_length in Hperm. simpl in Hperm. lia. }
    cbn [Len length pop_many] in Hpop. rewrite Hpop1 in Hpop. cbn in Hpop.
    destruct (pop_many (length h) r') as [[s' h'']|] eqn:Epop; [|done].
    cbn in Hpop. simplify_eq.
    cbn [app run_tasks] in Hrun.
    destruct (RunTxTask w (Some t')) as [[res w1]|] eqn:Et; [|done].
    cbn in Hrun.
    destruct (run_tasks RunTxTask w1 (s' ++ omap id (buf (newTasks q))))
      as [[rs' w2]|] eqn:Ets; [|done].
    cbn in Hrun. simplify_eq. cbn [length] in Hroom.
    pose proof (IH (length r' + length (buf (newTasks q)))%nat
                  ltac:(simpl; lia)
                  (mkWorker (set_retires q r') ctx
                     (set_resultCh rq
                        (mkChan (buf (resultCh rq) ++ [Some res])
                           (cap (resultCh rq)) false)) w1)
                  pick_next pick_add (S k) s' h' rs' w') as HIH.
    unfold queued, fresh, Len in HIH. cbn in HIH.
    rewrite !length_app, Hlen in HIH. cbn in HIH.
    destruct HIH as (rw' & HRun & Hw & Hbuf & Hres & Hq);
      [done|done|done|done|lia|done|done|].
    exists rw'. cbn [Run app length].
    cbn [worker_in worker_ctx worker_resultCh worker_rest].
    rewrite Hnext, Et, HAdd by lia. rewrite length_app, HRun.
    split; [done|]. split; [done|].
    rewrite Hbuf, <-app_assoc. by repeat split.
Qed.

(** X23.  A worker on a closed input queue, with a live context and room
    in the results channel: [Run] returns [nil] after running every queued
    task exactly once, first the retries in the order the heap pops them
    (ascending [TxNum] when the retry slice is a heap), then the fresh
    tasks in arrival order, and sends the results to the channel in that
    order; it leaves the input queue without tasks and does not touch the
    results heap. *)
Theorem Run_drains_closed_queue {W : Type}
    (RunTxTask : W → option TxTask → result (Result * W)) (rw : Worker)
    (pick_next : nat → nat → bool) (pick_add : nat → bool) (k : nat)
    (sorted h' : list TxTask) (rs : list Result) (w' : W) :
  done (worker_ctx rw) = false →
  chan_closed (newTasks (worker_in rw)) = true →
  chan_closed (resultCh (worker_resultCh rw)) = false →
  (length (buf (resultCh (worker_resultCh rw)))
   + length (queued (worker_in rw)) ≤ cap (resultCh (worker_resultCh rw)))%nat →
  pop_many (Len (retires (worker_in rw))) (retires (worker_in rw))
    = Ok (sorted, h') →
  run_tasks RunTxTask (worker_rest rw) (sorted ++ fresh (worker_in rw))
    = Ok (rs, w') →
  (is_heap (retires (worker_in rw)) →
   StronglySorted (λ a b, (TxNum a ≤ TxNum b)%N) sorted)
  ∧ sorted ++ fresh (worker_in rw) ≡ₚ queued (worker_in rw)
  ∧ ∃ rw',
      Run RunTxTask (S (length (queued (worker_in rw)))) pick_next pick_add k rw
        = Some (Returned None rw')
      ∧ worker_rest rw' = w'
      ∧ buf (resultCh (worker_resultCh rw'))
        = buf (resultCh (worker_resultCh rw)) ++ (Some <$> rs)
      ∧ results (worker_resultCh rw') = results (worker_resultCh rw)
      ∧ queued (worker_in rw') = [].
Proof.
  intros Hd Hcl Hopen Hroom Hpop Hrun.
  destruct (pop_many_Permutation (Len (retires (worker_in rw)))
              (retires (worker_in rw))) as (out & h'' & Hpop' & Hperm & Hlen);
    [done|].
  rewrite Hpop in Hpop'. simplify_eq.
  assert (h'' = []) as ->.
  { apply Permutation_length in Hperm. rewrite length_app in Hperm.
    unfold Len in Hlen. apply nil_length_inv. lia. }
  rewrite app_nil_r in Hperm.
  split; [|split].
  - intros Hh.
    destruct (pop_many_sorted (Len (retires (worker_in rw)))
                (retires (worker_in rw)) Hh)
      as (out' & h2 & Hpop2 & _ & _ & _ & Hsorted & _); [done|].
    rewrite Hpop in Hpop2. by simplify_eq.
  - unfold queued. by rewrite <-Hperm.
  - by eapply Run_closed_queue.
Qed.

Lemma Run_drains_closed_queue_witness :
  let t3 := mkTxTask 3 0 1 0 in
  let t8 := mkTxTask 8 1 1 0 in
  let t5 := mkTxTask 5 2 1 1 in
  let RunTxTask (w : nat) (t : option TxTask) :=
    match t with
    | Some t => Ok (mkResult t None false, S w)
    | None => Panic IndexOutOfRange
    end in
  let rw := mkWorker (mkQueue true (mkChan [Some t3; None; Some t8] 4 true) [t5] 4)
              (mkContext false)
              (mkResults 2 false (mkChan [] 8 false) false []) 0%nat in
  ∃ rw', Run RunTxTask 4 (λ _ _, false) (λ _, false) 0 rw
         = Some (Returned None rw')
    ∧ worker_rest rw' = 3%nat
    ∧ buf (resultCh (worker_resultCh rw'))
      = Some <$> [mkResult t5 None false; mkResult t3 None false;
                  mkResult t8 None false].
Proof.
  intros t3 t8 t5 RunTxTask rw.
  destruct (Run_drains_closed_queue RunTxTask rw (λ _ _, false) (λ _, false) 0
              [t5] [] [mkResult t5 None false; mkResult t3 None false;
                       mkResult t8 None false] 3%nat
              eq_refl eq_refl eq_refl)
    as (_ & _ & rw' & HRun & Hw & Hbuf & _); [simpl; lia|reflexivity|reflexivity|].
  exists rw'. split; [exact HRun|]. split; [exact Hw|exact Hbuf].
Defined.

End WorkerExtras.

(** * Transaction lookup entries *)

Module RawdbFacts.

Import Rawdb.
Local Open Scope N_scope.

Lemma to_N_byte_of_N (v : N) : Byte.to_N (byte_of_N v) = v mod 256.
Proof.
  unfold byte_of_N. destruct (Byte.of_N (v mod 256)) as [b|] eqn:E; cbn.
  - by apply Byte.to_of_N.
  - apply Byte.of_N_None_iff in E. pose proof (N.mod_upper_bound v 256). lia.
Qed.

Lemma SetBytes_snoc (l : list Byte.byte) (b : Byte.byte) :
  SetBytes (l ++ [b]) = SetBytes l * 256 + Byte.to_N b.
Proof. unfold SetBytes. by rewrite foldl_app. Qed.

Lemma SetBytes_app (a b : list Byte.byte) :
  SetBytes (a ++ b) = SetBytes a * 256 ^ N.of_nat (length b) + SetBytes b.
Proof.
  induction b as [|x b IH] using rev_ind.
  { rewrite app_nil_r. cbn. lia. }
  rewrite app_assoc, !SetBytes_snoc, IH, length_app. cbn [length].
  replace (N.of_nat (length b + 1)) with (N.succ (N.of_nat (length b))) by lia.
  rewrite N.pow_succ_r'. lia.
Qed.

Lemma SetBytes_lt (l : list Byte.byte) : SetBytes l < 256 ^ N.of_nat (length l).
Proof.
  induction l as [|x l IH] using rev_ind; [cbn; lia|].
  rewrite SetBytes_snoc, length_app. cbn [length].
  replace (N.of_nat (length l + 1)) with (N.succ (N.of_nat (length l))) by lia.
  rewrite N.pow_succ_r'. pose proof (Byte.to_N_bounded x). lia.
Qed.

Lemma SetBytes_take (l : list Byte.byte) (k : nat) :
  (k ≤ length l)%nat →
  SetBytes (take k l) = SetBytes l / 256 ^ N.of_nat (length l - k).
Proof.
  intros Hk. rewrite <-(take_drop k l) at 2. rewrite SetBytes_app.
  rewrite length_drop. pose proof (SetBytes_lt (drop k l)) as Hlt.
  rewrite length_drop in Hlt.
  apply N.div_unique with (SetBytes (drop k l)); [done|lia].
Qed.

Lemma SetBytes_drop (l : list Byte.byte) (k : nat) :
  (k ≤ length l)%nat →
  SetBytes (drop k l) = SetBytes l mod 256 ^ N.of_nat (length l - k).
Proof.
  intros Hk. rewrite <-(take_drop k l) at 2. rewrite SetBytes_app.
  rewrite length_drop. pose proof (SetBytes_lt (drop k l)) as Hlt.
  rewrite length_drop in Hlt.
  apply N.mod_unique with (SetBytes (take k l)); [done|lia].
Qed.

Lemma length_big_endian (w : nat) (v : N) : length (big_endian w v) = w.
Proof.
  revert v. induction w as [|w IH]; intros v; cbn; [done|].
  rewrite length_app, IH. simpl. lia.
Qed.

Lemma SetBytes_big_endian (w : nat) (v : N) :
  SetBytes (big_endian w v) = v mod 256 ^ N.of_nat w.
Proof.
  revert v. induction w as [|w IH]; intros v.
  { cbn. by rewrite N.mod_1_r. }
  cbn [big_endian]. rewrite SetBytes_snoc, IH, to_N_byte_of_N.
  replace (N.of_nat (S w)) with (N.succ (N.of_nat w)) by lia.
  rewrite N.pow_succ_r', N.Div0.mod_mul_r. lia.
Qed.

Lemma Bytes_loop_spec (fuel : nat) (x : N) :
  x < 256 ^ N.of_nat fuel →
  SetBytes (Bytes_loop fuel x) = x
  ∧ (x = 0 → Bytes_loop fuel x = [])
  ∧ (0 < x →
     256 ^ N.of_nat (length (Bytes_loop fuel x) - 1) ≤ x
     ∧ (0 < length (Bytes_loop fuel x))%nat).
Proof.
  revert x. induction fuel as [|fuel IH]; intros x Hx.
  { cbn in *. assert (x = 0) as -> by lia. split; [done|]. split; [done|lia]. }
  cbn [Bytes_loop]. destruct (N.eqb_spec x 0) as [->|Hne].
  { split; [done|]. split; [done|lia]. }
  replace (N.of_nat (S fuel)) with (N.succ (N.of_nat fuel)) in Hx by lia.
  rewrite N.pow_succ_r' in Hx.
  assert (x / 256 < 256 ^ N.of_nat fuel) as Hdiv.
  { apply N.Div0.div_lt_upper_bound. lia. }
  destruct (IH _ Hdiv) as (Hset & Hzero & Hpos).
  pose proof (N.div_mod x 256 ltac:(lia)) as Hdm.
  split; [|split; [lia|]].
  - rewrite SetBytes_snoc, Hset, to_N_byte_of_N. lia.
  - intros _. rewrite length_app. cbn [length]. split; [|lia].
    replace (length (Bytes_loop fuel (x / 256)) + 1 - 1)%nat
      with (length (Bytes_loop fuel (x / 256))) by lia.
    destruct (N.eqb_spec (x / 256) 0) as [E|E].
    + rewrite (Hzero E). cbn. lia.
    + destruct Hpos as [Hle Hlen]; [lia|].
      replace (N.of_nat (length (Bytes_loop fuel (x / 256))))
        with (N.succ (N.of_nat (length (Bytes_loop fuel (x / 256)) - 1)))
        by lia.
      rewrite N.pow_succ_r'.
      etrans; [apply N.mul_le_mono_l, Hle|].
      rewrite Hdm at 2. apply N.le_add_r.
Qed.

Lemma Bytes_spec (x : N) :
  SetBytes (Bytes x) = x
  ∧ (0 < x → 256 ^ N.of_nat (length (Bytes x) - 1) ≤ x)
  ∧ x < 256 ^ N.of_nat (length (Bytes x)).
Proof.
  assert (x < 256 ^ N.of_nat (N.to_nat (N.size x))) as Hx.
  { pose proof (N.size_gt x) as Hs. rewrite N2Nat.id.
    eapply N.lt_le_trans; [done|].
    apply N.pow_le_mono_l. lia. }
  destruct (Bytes_loop_spec _ x Hx) as (Hset & _ & Hpos). unfold Bytes.
  split; [done|]. split; [intros H0; by apply Hpos|].
  rewrite <-Hset at 1. apply SetBytes_lt.
Qed.

(** A block number fills eight bytes exactly from [2^56] up to [2^64]. *)
Lemma length_Bytes_8 (x : N) :
  length (Bytes x) = 8%nat ↔ 2 ^ 56 ≤ x < 2 ^ 64.
Proof.
  destruct (Bytes_spec x) as (_ & Hlo & Hhi).
  assert (∀ a b : nat, (a ≤ b)%nat → 256 ^ N.of_nat a ≤ 256 ^ N.of_nat b) as Hmono.
  { intros a b Hab. apply N.pow_le_mono_r; lia. }
  change (2 ^ 56) with (256 ^ N.of_nat 7). change (2 ^ 64) with (256 ^ N.of_nat 8).
  split.
  - intros E. rewrite E in Hlo, Hhi. split; [|done].
    apply Hlo. destruct (N.eq_dec x 0) as [->|]; [|lia].
    cbn in E. done.
  - intros [H56 H64].
    assert (0 < x) as Hpos.
    { eapply N.lt_le_trans; [|done]. by vm_compute. }
    specialize (Hlo Hpos).
    destruct (decide (length (Bytes x) ≤ 7)%nat) as [Hle|Hgt].
    { pose proof (Hmono _ _ Hle). lia. }
    destruct (decide (9 ≤ length (Bytes x))%nat) as [Hge|]; [|lia].
    pose proof (Hmono 8%nat (length (Bytes x) - 1)%nat ltac:(lia)). lia.
Qed.

Lemma length_Bytes_le_8 (x : N) : x < 2 ^ 64 → (length (Bytes x) ≤ 8)%nat.
Proof.
  intros Hx. destruct (Bytes_spec x) as (_ & Hlo & _).
  destruct (N.eq_dec x 0) as [->|Hne].
  { change (Bytes 0) with (@nil Byte.byte). simpl. lia. }
  specialize (Hlo ltac:(lia)).
  destruct (decide (9 ≤ length (Bytes x))%nat) as [Hge|]; [|lia].
  assert (256 ^ N.of_nat 8 ≤ 256 ^ N.of_nat (length (Bytes x) - 1)) as Hm.
  { apply N.pow_le_mono_r; lia. }
  change (256 ^ N.of_nat 8) with (2 ^ 64) in Hm. lia.
Qed.

(** What [ReadTxLookupEntry] makes of an entry that holds a block number
    followed by the eight bytes of a transaction number. *)
Lemma ReadTxLookupEntry_decode {Hash E : Type}
    (GetOne : Hash → list Byte.byte + E) (h : Hash) (blockNumber txNum : N) :
  blockNumber < 2 ^ 64 → txNum < 2 ^ 64 →
  GetOne h = inl (Bytes blockNumber ++ PutUint64 txNum) →
  ReadTxLookupEntry GetOne h =
    (Some (blockNumber * 256 ^ N.of_nat (8 - length (Bytes blockNumber))
           + txNum / 256 ^ N.of_nat (length (Bytes blockNumber))),
     Some (txNum mod 256 ^ N.of_nat (length (Bytes blockNumber))), None).
Proof.
  intros Hbn Htx HGet. unfold ReadTxLookupEntry. rewrite HGet.
  pose proof (length_Bytes_le_8 blockNumber Hbn) as HL.
  destruct (Bytes_spec blockNumber) as (Hset & _ & Hhi).
  set (B := Bytes blockNumber) in *. set (L := length B) in *.
  assert (length (PutUint64 txNum) = 8%nat) as HP by apply length_big_endian.
  assert (SetBytes (PutUint64 txNum) = txNum) as HSP.
  { unfold PutUint64. rewrite SetBytes_big_endian.
    apply N.mod_small. by change (256 ^ N.of_nat 8) with (2 ^ 64). }
  rewrite length_app, HP. fold L.
  assert ((L + 8 =? 0)%nat = false) as -> by (apply Nat.eqb_neq; lia).
  assert ((8 <=? L + 8)%nat = true) as -> by (apply Nat.leb_le; lia).
  assert (Nat.min 8 (L + 8) = 8%nat) as -> by lia.
  rewrite take_app_ge, drop_app_ge by (fold L; lia). fold L.
  rewrite SetBytes_app, Hset, length_take, HP.
  rewrite SetBytes_take, SetBytes_drop by (rewrite HP; lia).
  rewrite HSP, HP.
  replace (8 - (8 - L))%nat with L by lia.
  replace (Nat.min (8 - L) 8) with (8 - L)%nat by lia.
  set (a := 256 ^ N.of_nat L) in *. set (b := 256 ^ N.of_nat (8 - L)).
  assert (a * b = 2 ^ 64) as Hab.
  { unfold a, b. rewrite <-N.pow_add_r.
    replace (N.of_nat L + N.of_nat (8 - L)) with 8 by lia. done. }
  assert (0 < a) as Ha by (apply N.neq_0_lt_0, N.pow_nonzero; lia).
  assert (txNum / a < b) as Hdiv.
  { apply N.Div0.div_lt_upper_bound. by rewrite Hab. }
  assert (blockNumber * b + txNum / a < 2 ^ 64) as Hblock.
  { rewrite <-Hab. apply N.lt_le_trans with ((blockNumber + 1) * b); [lia|].
    apply N.mul_le_mono_r. lia. }
  assert (txNum mod a < 2 ^ 64) as Hmod.
  { eapply N.le_lt_trans; [apply N.Div0.mod_le|done]. }
  unfold Uint64. by rewrite !(N.mod_small _ (2 ^ 64)) by done.
Qed.

Section tx_lookup_facts.
Context {Hash : Type} `{Countable Hash}.

Lemma WriteTxLookupEntries_lookup (txns : list Hash) (db : TxLookup Hash)
    (blockNumber txNum : N) :
  NoDup txns → txNum + N.of_nat (length txns) ≤ 2 ^ 64 →
  (∀ i h, txns !! i = Some h →
     WriteTxLookupEntries db blockNumber txns txNum !! h =
       Some (Bytes blockNumber ++ PutUint64 (txNum + N.of_nat i)))
  ∧ (∀ h, h ∉ txns →
       WriteTxLookupEntries db blockNumber txns txNum !! h = db !! h).
Proof.
  revert db txNum. induction txns as [|t txns IH]; intros db txNum Hnd Hlen.
  { split; [done|]. done. }
  apply NoDup_cons in Hnd as [Hnin Hnd]. cbn [WriteTxLookupEntries].
  assert ((txNum + 1) mod 2 ^ 64 + N.of_nat (length txns) ≤ 2 ^ 64
          ∧ (txns ≠ [] → (txNum + 1) mod 2 ^ 64 = txNum + 1)) as [Hlen' Hnext].
  { cbn [length] in Hlen.
    destruct (N.eq_dec (txNum + 1) (2 ^ 64)) as [E|E].
    - rewrite E, N.Div0.mod_same.
      destruct txns; [split; [simpl; lia|done]|simpl in Hlen; lia].
    - rewrite N.mod_small by lia. split; [lia|done]. }
  destruct (IH (<[t := Bytes blockNumber ++ PutUint64 txNum]> db)
              ((txNum + 1) mod 2 ^ 64) Hnd Hlen') as [IH1 IH2].
  split.
  - intros [|i] h Hi; cbn in Hi.
    + simplify_eq. rewrite IH2 by done. rewrite lookup_insert_eq.
      by rewrite N.add_0_r.
    + rewrite (IH1 i h Hi), Hnext by (by intros ->).
      do 3 f_equal. lia.
  - intros h Hh. apply not_elem_of_cons in Hh as [Hne Hh].
    rewrite IH2 by done. by rewrite lookup_insert_ne.
Qed.
End tx_lookup_facts.

End RawdbFacts.

Module RawdbExtras.

Import Rawdb RawdbFacts.
Local Open Scope N_scope.

(** X24.  Reading back an entry made by [WriteTxLookupEntries].  The entry
    is the block number in as few bytes as it needs, then the transaction
    number on eight bytes; [ReadTxLookupEntry] takes the block number from
    the first eight bytes and the transaction number from the rest.  So a
    block number of eight bytes (from [2^56] on) is read back exactly,
    with the transaction number; a shorter one is read back shifted left,
    with the high bytes of the transaction number appended, and only the
    low bytes of the transaction number are returned. *)
Theorem ReadTxLookupEntry_written {Hash E : Type}
    (GetOne : Hash → list Byte.byte + E) (h : Hash) (blockNumber txNum : N) :
  blockNumber < 2 ^ 64 → txNum < 2 ^ 64 →
  GetOne h = inl (Bytes blockNumber ++ PutUint64 txNum) →
  let L := length (Bytes blockNumber) in
  ReadTxLookupEntry GetOne h =
    (Some (blockNumber * 256 ^ N.of_nat (8 - L) + txNum / 256 ^ N.of_nat L),
     Some (txNum mod 256 ^ N.of_nat L), None)
  ∧ (L ≤ 8)%nat
  ∧ (L = 8%nat ↔ 2 ^ 56 ≤ blockNumber)
  ∧ (2 ^ 56 ≤ blockNumber →
     ReadTxLookupEntry GetOne h = (Some blockNumber, Some txNum, None)).
Proof.
  intros Hbn Htx HGet L.
  pose proof (ReadTxLookupEntry_decode GetOne h blockNumber txNum Hbn Htx HGet)
    as Hread.
  split; [done|]. split; [by apply length_Bytes_le_8|].
  assert (L = 8%nat ↔ 2 ^ 56 ≤ blockNumber) as HL.
  { unfold L. rewrite length_Bytes_8. split; [by intros [? _]|done]. }
  split; [done|].
  intros H56. apply HL in H56. unfold L in H56. rewrite Hread, H56.
  change (256 ^ N.of_nat (8 - 8)) with 1. change (256 ^ N.of_nat 8) with (2 ^ 64).
  rewrite N.div_small, N.mod_small by done. do 3 f_equal. lia.
Qed.

Lemma ReadTxLookupEntry_written_witness :
  ReadTxLookupEntry (E := unit) (λ _ : N, inl (Bytes 5 ++ PutUint64 7)) 0
    = (Some (5 * 256 ^ 7), Some 7, None)
  ∧ ReadTxLookupEntry (E := unit) (λ _ : N, inl (Bytes (2 ^ 56) ++ PutUint64 7)) 0
    = (Some (2 ^ 56), Some 7, None).
Proof.
  split.
  - assert (5 < 2 ^ 64) as H5 by (by vm_compute).
    assert (7 < 2 ^ 64) as H7 by (by vm_compute).
    exact (proj1 (ReadTxLookupEntry_written (E := unit)
                    (λ _ : N, inl (Bytes 5 ++ PutUint64 7)) 0 5 7 H5 H7 eq_refl)).
  - assert (2 ^ 56 < 2 ^ 64) as H5 by (by vm_compute).
    assert (7 < 2 ^ 64) as H7 by (by vm_compute).
    assert (2 ^ 56 ≤ 2 ^ 56) as H56 by (by vm_compute).
    exact (proj2 (proj2 (proj2 (ReadTxLookupEntry_written (E := unit)
                    (λ _ : N, inl (Bytes (2 ^ 56) ++ PutUint64 7)) 0 (2 ^ 56) 7
                    H5 H7 eq_refl))) H56).
Defined.

(** X25.  Round trip through the table: after [WriteTxLookupEntries] for a
    block whose number takes eight bytes and whose transactions have
    distinct hashes, [ReadTxLookupEntry] of the [i]-th transaction's hash
    returns the block number and [txNum + i]; entries of other hashes are
    left alone; and after [DeleteTxLookupEntry] the hash reads as absent. *)
Theorem Write_Read_round_trip {Hash : Type} `{Countable Hash} (E : Type)
    (db : TxLookup Hash) (blockNumber : N) (txns : list Hash) (txNum : N) :
  2 ^ 56 ≤ blockNumber < 2 ^ 64 → NoDup txns →
  txNum + N.of_nat (length txns) ≤ 2 ^ 64 →
  let db' := WriteTxLookupEntries db blockNumber txns txNum in
  (∀ i h, txns !! i = Some h →
     ReadTxLookupEntry (GetOne (E := E) db') h =
       (Some blockNumber, Some (txNum + N.of_nat i), None))
  ∧ (∀ h, h ∉ txns → db' !! h = db !! h)
  ∧ (∀ h, ReadTxLookupEntry (GetOne (E := E) (DeleteTxLookupEntry db' h)) h =
          (None, None, None)).
Proof.
  intros [H56 H64] Hnd Hlen db'.
  destruct (WriteTxLookupEntries_lookup txns db blockNumber txNum Hnd Hlen)
    as [Hin Hout].
  split; [|split; [done|]].
  - intros i h Hi.
    assert (txNum + N.of_nat i < 2 ^ 64) as Hi64.
    { apply lookup_lt_Some in Hi. lia. }
    rewrite (ReadTxLookupEntry_decode _ h blockNumber (txNum + N.of_nat i));
      [|done|done|unfold GetOne, db'; by rewrite (Hin i h Hi)].
    assert (length (Bytes blockNumber) = 8%nat) as -> by (by apply length_Bytes_8).
    change (256 ^ N.of_nat (8 - 8)) with 1.
    change (256 ^ N.of_nat 8) with (2 ^ 64).
    rewrite N.div_small, N.mod_small by done. do 3 f_equal. lia.
  - intros h. unfold ReadTxLookupEntry, GetOne, DeleteTxLookupEntry.
    by rewrite lookup_delete_eq.
Qed.

Lemma Write_Read_round_trip_witness :
  let db' := WriteTxLookupEntries (Hash := N) ∅ (2 ^ 56) [10; 20] 7 in
  ReadTxLookupEntry (GetOne (E := unit) db') 20 = (Some (2 ^ 56), Some 8, None)
  ∧ ReadTxLookupEntry (GetOne (E := unit) (DeleteTxLookupEntry db' 20)) 20
    = (None, None, None).
Proof.
  intros db'.
  assert (2 ^ 56 ≤ 2 ^ 56 < 2 ^ 64) as Hbn by (split; by vm_compute).
  assert (NoDup [10; 20]) as Hnd by compute_done.
  assert (7 + N.of_nat (length [10; 20]) ≤ 2 ^ 64) as Hlen by (by vm_compute).
  destruct (Write_Read_round_trip (Hash := N) unit ∅ (2 ^ 56) [10; 20] 7
              Hbn Hnd Hlen) as (Hread & _ & Hdel).
  split; [exact (Hread 1%nat 20 eq_refl)|exact (Hdel 20)].
Defined.

End RawdbExtras.
